(** * genutil: ordered projections of maps and compression-aware file resolution

    A shallow embedding of the Go package [genutil] (files
    [genutil_sortbykey.go], [genutil_sortbyval.go], and of [genutil.go] the
    file resolution with the functions around it and some shorthands)
    together with the properties of its specification and further
    properties of the code.

    Conventions of the embedding:
    - a Go [string] is a byte string: [string] of the Standard Library;
    - a Go [map[K]V] is a [gmap K V]; the order in which [range] visits it
      is chosen by the runtime and is a parameter of the functions;
    - a Go [float64] is an IEEE 754 value: [spec_float];
    - a Go [int] is a [Z];
    - a function that may panic returns a [Result]. *)

From Stdlib Require Import ZArith Lia Strings.Byte Ascii.
From Stdlib Require Import Floats.SpecFloat.
From stdpp Require Import base list gmap strings sorting.

Local Open Scope Z_scope.

(** ** Results of functions that may panic *)

Inductive Result (A : Type) : Type :=
| Ok (a : A)
| Panic (msg : string).
Arguments Ok {A} a.
Arguments Panic {A} msg.

#[global] Instance Result_ret : MRet Result := fun A a => Ok a.
#[global] Instance Result_bind : MBind Result := fun A B k r =>
  match r with
  | Ok a => k a
  | Panic msg => Panic msg
  end.

(** ** The Go runtime and the [sort] package

    [sort.Sort] and the iteration order of [range] over a map are not code
    of the package.  They are parameters of the embedding, and the
    contracts below state what the Go documentation promises of them. *)

(** [less] is a strict weak ordering of the elements of [l]. *)
Record strict_weak_on {A} (less : A -> A -> bool) (l : list A) : Prop := {
  swo_irrefl : forall x, x ∈ l -> less x x = false;
  swo_trans : forall x y z, x ∈ l -> y ∈ l -> z ∈ l ->
      less x y = true -> less y z = true -> less x z = true;
  swo_split : forall x y z, x ∈ l -> y ∈ l -> z ∈ l ->
      less x z = true -> less x y = true \/ less y z = true
}.

(** No element of the result is [less] than its predecessor. *)
Definition ordered_by {A} (less : A -> A -> bool) (out : list A) : Prop :=
  forall i a b, out !! i = Some a -> out !! S i = Some b -> less b a = false.

(** [sort.Sort] only swaps elements. *)
Definition sort_permutes (sort_Sort : forall A, (A -> A -> bool) -> list A -> list A) : Prop :=
  forall A (less : A -> A -> bool) (l : list A), sort_Sort A less l ≡ₚ l.

(** [sort.Sort] sorts in the order determined by [Less], when [Less] is an
    ordering of the elements. *)
Definition sort_orders (sort_Sort : forall A, (A -> A -> bool) -> list A -> list A) : Prop :=
  forall A (less : A -> A -> bool) (l : list A),
    strict_weak_on less l -> ordered_by less (sort_Sort A less l).

(** [range] over a map visits every entry exactly once, in some order. *)
Definition range_visits_all
    (range : forall K (EqK : EqDecision K) (CK : Countable K) V,
               gmap K V -> list (K * V)) : Prop :=
  forall K EqK CK V (m : gmap K V), range K EqK CK V m ≡ₚ map_to_list m.

(** An instance of the parameters: insertion sort (which [sort.Sort] runs on
    short slices) and the iteration in the order of [map_to_list]. *)
Fixpoint insert_sorted {A} (less : A -> A -> bool) (x : A) (l : list A) : list A :=
  match l with
  | [] => [x]
  | y :: l' => if less x y then x :: y :: l' else y :: insert_sorted less x l'
  end.

Definition insertion_sort A (less : A -> A -> bool) (l : list A) : list A :=
  foldr (insert_sorted less) [] l.

Definition range_canonical K (EqK : EqDecision K) (CK : Countable K) V
    (m : gmap K V) : list (K * V) :=
  map_to_list m.

(** ** float64 *)

Definition float64 := spec_float.

(** The values a [float64] can hold. *)
Definition is_float64 (x : float64) : bool := valid_binary 53 1024 x.

Definition is_nan (x : float64) : bool :=
  match x with S754_nan => true | _ => false end.

(** Go's [<], [>], [<=], [>=] on float64 and [math.Abs]. *)
Definition f64_lt (x y : float64) : bool := SFltb x y.
Definition f64_gt (x y : float64) : bool := SFltb y x.
Definition f64_le (x y : float64) : bool := SFleb x y.
Definition f64_ge (x y : float64) : bool := SFleb y x.
Definition math_Abs (x : float64) : float64 := SFabs x.

(** ** Slices filled by index *)

(** [for _, x := range xs { arr[ii] = x; ii++ }]: an index outside of [arr]
    panics. *)
Fixpoint store_loop {A} (arr : list A) (ii : nat) (xs : list A) : Result (list A) :=
  match xs with
  | [] => Ok arr
  | x :: xs' =>
      if decide (ii < length arr)%nat
      then store_loop (<[ii := x]> arr) (S ii) xs'
      else Panic "runtime error: index out of range"
  end.

(** ** genutil_sortbykey.go, genutil_sortbyval.go

    The functions take a pointer to the map; it is taken to be non-nil, and
    the map is the argument. *)

(** The element type of the four slices sorted by value: the source declares
    it once per ordering, with the same two fields. *)
Record myelemFloat64 := { kk_ : string; val_ : float64 }.

Section OrderedProjection.
Variable sort_Sort : forall A, (A -> A -> bool) -> list A -> list A.
Variable range : forall K (EqK : EqDecision K) (CK : Countable K) V,
  gmap K V -> list (K * V).

(** [sort.Strings] and [sort.Ints]. *)
Definition sort_Strings (keys : list string) : list string :=
  sort_Sort string String.ltb keys.
Definition sort_Ints (keys : list Z) : list Z :=
  sort_Sort Z Z.ltb keys.

(** The body shared by the [SortedKeys_String2*] functions. *)
Definition sorted_string_keys {V} (_mp : gmap string V) : Result (list string) :=
  let keys := replicate (size _mp) "" in
  keys ← store_loop keys 0 (range string _ _ V _mp).*1;
  Ok (sort_Strings keys).

Definition SortedKeys_String2Int (_mp : gmap string Z) : Result (list string) :=
  sorted_string_keys _mp.
Definition SortedKeys_String2Int64 (_mp : gmap string Z) : Result (list string) :=
  sorted_string_keys _mp.
Definition SortedKeys_String2Float64 (_mp : gmap string float64) : Result (list string) :=
  sorted_string_keys _mp.
Definition SortedKeys_String2Bool (_mp : gmap string bool) : Result (list string) :=
  sorted_string_keys _mp.
Definition SortedKeys_String2String (_mp : gmap string string) : Result (list string) :=
  sorted_string_keys _mp.

Definition SortedKeys_Int2Int (_mp : gmap Z Z) : Result (list Z) :=
  let keys := replicate (size _mp) 0 in
  keys ← store_loop keys 0 (range Z _ _ Z _mp).*1;
  Ok (sort_Ints keys).

Definition Less_Ascending (a b : myelemFloat64) : bool :=
  f64_lt (val_ a) (val_ b).
Definition Less_AbsAscending (a b : myelemFloat64) : bool :=
  f64_lt (math_Abs (val_ a)) (math_Abs (val_ b)).
Definition Less_Descending (a b : myelemFloat64) : bool :=
  f64_gt (val_ a) (val_ b).
Definition Less_AbsDescending (a b : myelemFloat64) : bool :=
  f64_gt (math_Abs (val_ a)) (math_Abs (val_ b)).

(** The body shared by the [SortedKeysByVal_String2Float64_*] functions,
    which differ in [Less] only. *)
Definition sorted_keys_by_val (Less : myelemFloat64 -> myelemFloat64 -> bool)
    (_mp : gmap string float64) : Result (list string) :=
  let mlen := size _mp in
  let mp := replicate mlen {| kk_ := ""; val_ := S754_zero false |} in
  mp ← store_loop mp 0
         ((fun kv => {| kk_ := kv.1; val_ := kv.2 |}) <$> range string _ _ float64 _mp);
  let mp := sort_Sort myelemFloat64 Less mp in
  let kkarr := replicate mlen "" in
  store_loop kkarr 0 (kk_ <$> mp).

Definition SortedKeysByVal_String2Float64_Ascending :=
  sorted_keys_by_val Less_Ascending.
Definition SortedKeysByVal_String2Float64_AbsAscending :=
  sorted_keys_by_val Less_AbsAscending.
Definition SortedKeysByVal_String2Float64_Descending :=
  sorted_keys_by_val Less_Descending.
Definition SortedKeysByVal_String2Float64_AbsDescending :=
  sorted_keys_by_val Less_AbsDescending.
End OrderedProjection.

(** ** The vocabulary of the specification: ordered projections *)

(** The keys of a mapping. *)
Definition keys {K} `{Countable K} {V} (m : gmap K V) : list K :=
  (map_to_list m).*1.

(** The result is a sequence of all the keys: a permutation of them, as long
    as the mapping, and with the key set as its set of elements. *)
Definition is_projection {K} `{Countable K} {V} (m : gmap K V)
    (r : Result (list K)) : Prop :=
  exists out, r = Ok out /\ out ≡ₚ keys m /\ length out = size m /\
    forall k, k ∈ out <-> k ∈ dom m.

(** The result is the sorted permutation of the keys, and the only one. *)
Definition is_sorted_projection {K} `{Countable K} {V} (le : relation K)
    (m : gmap K V) (r : Result (list K)) : Prop :=
  exists out, r = Ok out /\ out ≡ₚ keys m /\ Sorted le out /\
    forall l, l ≡ₚ keys m -> Sorted le l -> l = out.

(** The values of adjacent keys of the result are related by [R]. *)
Definition adjacent_values (R : float64 -> float64 -> bool)
    (m : gmap string float64) (out : list string) : Prop :=
  forall i k1 k2 v1 v2,
    out !! i = Some k1 -> out !! S i = Some k2 ->
    m !! k1 = Some v1 -> m !! k2 = Some v2 -> R v1 v2 = true.

Definition ordered_values (R : float64 -> float64 -> bool)
    (m : gmap string float64) (r : Result (list string)) : Prop :=
  exists out, r = Ok out /\ adjacent_values R m out.

Definition abs_le (x y : float64) : bool := f64_le (math_Abs x) (math_Abs y).
Definition abs_ge (x y : float64) : bool := f64_ge (math_Abs x) (math_Abs y).

(** No value of the mapping is a NaN. *)
Definition no_nan (m : gmap string float64) : Prop :=
  map_Forall (fun _ v => is_nan v = false) m.

(** The elements that the functions sorting by value put in the slice. *)
Definition elems
    (range : forall K (EqK : EqDecision K) (CK : Countable K) V,
               gmap K V -> list (K * V))
    (m : gmap string float64) : list myelemFloat64 :=
  (fun kv => {| kk_ := kv.1; val_ := kv.2 |}) <$> range string _ _ float64 m.

(** The mappings of the examples. *)
Definition bac_map : gmap string Z :=
  <["b" := 1]> (<["a" := 2]> (<["c" := 3]> ∅)).

(** 1.0, 2.0, 3.0, -4.0 and -5.0. *)
Definition f64_one : float64 := S754_finite false 4503599627370496 (-52).
Definition f64_two : float64 := S754_finite false 4503599627370496 (-51).
Definition f64_three : float64 := S754_finite false 6755399441055744 (-51).
Definition f64_minus_four : float64 := S754_finite true 4503599627370496 (-50).
Definition f64_minus_five : float64 := S754_finite true 5629499534213120 (-50).

Definition xyz_map : gmap string float64 :=
  <["x" := f64_three]> (<["y" := f64_one]> (<["z" := f64_two]> ∅)).

Definition pqr_map : gmap string float64 :=
  <["p" := f64_minus_five]> (<["q" := f64_three]> (<["r" := f64_minus_four]> ∅)).

Definition nan_map : gmap string float64 :=
  <["x" := S754_nan]> (<["y" := f64_one]> ∅).

(** ** Strings *)

(** [strings.HasSuffix]. *)
Definition HasSuffix (s suffix : string) : bool :=
  bool_decide (String.length suffix <= String.length s)%nat &&
  String.eqb (String.substring (String.length s - String.length suffix)
                               (String.length suffix) s) suffix.

(** The slice [s[:len(s)-n]]. *)
Definition drop_last (n : nat) (s : string) : string :=
  String.substring 0 (String.length s - n) s.

(** ** The operating system

    The file system and the processes are the collaborators of the package.
    A [World] says what [os.Stat], [os.Open], [os.Remove], [os.Pipe] and the
    start of a command answer. *)

Record File := { Mode : Z; Data : list byte }.

Record Cmd := { Path : string; Args : list string }.

Inductive Started :=
| Running (stdout : list byte)
| StartError (err : string).

Record World := {
  files : gmap string File;      (* the paths [os.Stat] succeeds on *)
  open_fails : gset string;      (* the paths [os.Open] reports an error on *)
  remove_fails : gset string;    (* the paths [os.Remove] reports an error on *)
  pipe_fails : bool;             (* [os.Pipe] reports an error *)
  start : Cmd -> Started         (* what starting a command gives *)
}.

Definition os_Stat (w : World) (path : string) : option File :=
  files w !! path.

Definition os_Open (w : World) (path : string) : list byte + string :=
  match files w !! path with
  | Some f =>
      if decide (path ∈ open_fails w)
      then inr ("open " +:+ path +:+ ": permission denied")
      else inl (Data f)
  | None => inr ("open " +:+ path +:+ ": no such file or directory")
  end.

Definition os_Remove (w : World) (path : string) : World + string :=
  match files w !! path with
  | Some _ =>
      if decide (path ∈ remove_fails w)
      then inr ("remove " +:+ path +:+ ": operation not permitted")
      else inl {| files := delete path (files w);
                  open_fails := open_fails w;
                  remove_fails := remove_fails w;
                  pipe_fails := pipe_fails w;
                  start := start w |}
  | None => inr ("remove " +:+ path +:+ ": no such file or directory")
  end.

(** [exec.Command] and the methods [StdoutPipe] and [Start] of [exec.Cmd]. *)
Definition exec_Command (name : string) (arg : list string) : Cmd :=
  {| Path := name; Args := name :: arg |}.

Definition Cmd_StdoutPipe (w : World) (c : Cmd) : option string :=
  if pipe_fails w then Some "pipe: too many open files" else None.

Definition Cmd_Start (w : World) (c : Cmd) : Started := start w c.

(** What can be read from the pipe of a command: its output when it runs;
    nothing when it did not start, as the failed start closes the pipe. *)
Definition pipe_stream (s : Started) : list byte :=
  match s with
  | Running stdout => stdout
  | StartError _ => []
  end.

(** ** genutil.go: file resolution *)

Definition PathOK (w : World) (_path : string) : bool :=
  match os_Stat w _path with
  | Some _ => true
  | None => false
  end.

Definition FileExecutable (w : World) (_path : string) : bool :=
  match os_Stat w _path with
  | None => false
  | Some info =>
      let mode := Mode info in
      let isx := 0 <? Z.land mode 73 (* 0111 *) in
      isx
  end.

Definition ReadableFilename (w : World) (_fname : string)
    : Result (string * option Cmd * Z) :=
  let ofname := "/dev/null" in
  let fok := PathOK w _fname in
  if HasSuffix _fname ".xz" && fok then
    Ok (_fname, Some (exec_Command "/usr/bin/xzcat" [_fname]), 1)
  else if HasSuffix _fname ".gz" && fok then
    Ok (_fname, Some (exec_Command "/bin/zcat" [_fname]), 2)
  else if HasSuffix _fname ".bz2" && fok then
    Ok (_fname, Some (exec_Command "/usr/bin/bzcat" [_fname]), 3)
  else if HasSuffix _fname ".zip" && fok then
    Ok (_fname, Some (exec_Command "/usr/bin/unzip -p" [_fname]), 4)
  else if HasSuffix _fname ".bash" then
    if FileExecutable w _fname
    then Ok (ofname, Some (exec_Command _fname []), 5)
    else Panic ("bash file exists without execute permissions:" +:+ _fname)
  else if fok then
    Ok (_fname, Some (exec_Command "/bin/cat" [_fname]), 6)
  else
  let tmpf :=
    if HasSuffix _fname ".xz" then drop_last 3 _fname
    else if HasSuffix _fname ".gz" then drop_last 3 _fname
    else if HasSuffix _fname ".bz2" then drop_last 4 _fname
    else if HasSuffix _fname ".zip" then drop_last 4 _fname
    else _fname in
  if PathOK w (tmpf +:+ ".xz") then
    let ofname := tmpf +:+ ".xz" in
    Ok (ofname, Some (exec_Command "/usr/bin/xzcat" [ofname]), 7)
  else if PathOK w (tmpf +:+ ".gz") then
    let ofname := tmpf +:+ ".gz" in
    Ok (ofname, Some (exec_Command "/bin/zcat" [ofname]), 8)
  else if PathOK w (tmpf +:+ ".bz2") then
    let ofname := tmpf +:+ ".bz2" in
    Ok (ofname, Some (exec_Command "/usr/bin/bzcat" [ofname]), 9)
  else if PathOK w (tmpf +:+ ".zip") then
    let ofname := tmpf +:+ ".zip" in
    Ok (ofname, Some (exec_Command "/usr/bin/unzip -p" [ofname]), 10)
  else if PathOK w tmpf then
    let ofname := tmpf in
    Ok (ofname, Some (exec_Command "/bin/cat" [ofname]), 11)
  else Ok (ofname, None, 0).

(** The world after the removal comes with the result. *)
Definition PathRemoveOrPanic (w : World) (_fname : string) : Result (bool * World) :=
  match os_Remove w _fname with
  | inr err => Panic err
  | inl w' => Ok (true, w')
  end.

Definition WritableFilename (w : World) (_fname : string)
    : Result (string * Z * World) :=
  let ofname := "/dev/null" in
  let fok := PathOK w _fname in
  if HasSuffix _fname ".xz" && fok then
    '(_, w') ← PathRemoveOrPanic w _fname; Ok (_fname, 1, w')
  else if HasSuffix _fname ".gz" && fok then
    '(_, w') ← PathRemoveOrPanic w _fname; Ok (_fname, 2, w')
  else if HasSuffix _fname ".bz2" && fok then
    '(_, w') ← PathRemoveOrPanic w _fname; Ok (_fname, 3, w')
  else if HasSuffix _fname ".zip" && fok then
    '(_, w') ← PathRemoveOrPanic w _fname; Ok (_fname, 4, w')
  else if fok then
    '(_, w') ← PathRemoveOrPanic w _fname; Ok (_fname, 6, w')
  else
  let tmpf :=
    if HasSuffix _fname ".xz" then drop_last 3 _fname
    else if HasSuffix _fname ".gz" then drop_last 3 _fname
    else if HasSuffix _fname ".bz2" then drop_last 4 _fname
    else if HasSuffix _fname ".zip" then drop_last 4 _fname
    else _fname in
  if PathOK w (tmpf +:+ ".xz") then
    '(_, w') ← PathRemoveOrPanic w (tmpf +:+ ".xz"); Ok (tmpf +:+ ".xz", 7, w')
  else if PathOK w (tmpf +:+ ".gz") then
    '(_, w') ← PathRemoveOrPanic w (tmpf +:+ ".gz"); Ok (tmpf +:+ ".gz", 8, w')
  else if PathOK w (tmpf +:+ ".bz2") then
    '(_, w') ← PathRemoveOrPanic w (tmpf +:+ ".bz2"); Ok (tmpf +:+ ".bz2", 9, w')
  else if PathOK w (tmpf +:+ ".zip") then
    '(_, w') ← PathRemoveOrPanic w (tmpf +:+ ".zip"); Ok (tmpf +:+ ".zip", 10, w')
  else if PathOK w tmpf then
    '(_, w') ← PathRemoveOrPanic w tmpf; Ok (tmpf, 11, w')
  else Ok (ofname, 0, w).

(** ** The vocabulary of the specification: file resolution *)

(** The table of the recognized compression suffixes: the suffix, the
    program of its access method, the status code of a match of the name as
    given and the status code of a match of a variant. *)
Record Suffix := {
  suffix : string; program : string; exact_code : Z; variant_code : Z
}.

Definition compression_suffixes : list Suffix := [
  {| suffix := ".xz"; program := "/usr/bin/xzcat"; exact_code := 1; variant_code := 7 |};
  {| suffix := ".gz"; program := "/bin/zcat"; exact_code := 2; variant_code := 8 |};
  {| suffix := ".bz2"; program := "/usr/bin/bzcat"; exact_code := 3; variant_code := 9 |};
  {| suffix := ".zip"; program := "/usr/bin/unzip -p"; exact_code := 4; variant_code := 10 |}
].

(** A candidate of the search: the physical path, the command of its access
    method and its status code. *)
Record Candidate := { c_path : string; c_cmd : Cmd; c_code : Z }.

Definition suffix_of (name : string) : option Suffix :=
  find (fun s => HasSuffix name (suffix s)) compression_suffixes.

(** The name with its compression suffix stripped. *)
Definition base_name (name : string) : string :=
  match suffix_of name with
  | Some s => drop_last (String.length (suffix s)) name
  | None => name
  end.

(** The name exactly as given, with the access method of its suffix. *)
Definition exact_candidate (name : string) : Candidate :=
  match suffix_of name with
  | Some s =>
      {| c_path := name; c_cmd := exec_Command (program s) [name];
         c_code := exact_code s |}
  | None =>
      {| c_path := name; c_cmd := exec_Command "/bin/cat" [name]; c_code := 6 |}
  end.

(** The variants: the base name with each suffix in the order of the table,
    then the bare base name. *)
Definition variant_candidates (name : string) : list Candidate :=
  let base := base_name name in
  ((fun s =>
      {| c_path := base +:+ suffix s;
         c_cmd := exec_Command (program s) [base +:+ suffix s];
         c_code := variant_code s |}) <$> compression_suffixes) ++
  [{| c_path := base; c_cmd := exec_Command "/bin/cat" [base]; c_code := 11 |}].

(** The first candidate that exists, in the priority order. *)
Definition first_match (w : World) (name : string) : option Candidate :=
  find (fun c => PathOK w (c_path c))
       (exact_candidate name :: variant_candidates name).

(** Read resolution in the words of the specification. *)
Definition resolveReadable (w : World) (name : string)
    : Result (string * option Cmd * Z) :=
  match first_match w name with
  | Some c => Ok (c_path c, Some (c_cmd c), c_code c)
  | None => Ok ("/dev/null", None, 0)
  end.

(** The worlds of the examples. *)
Definition plain_file : File := {| Mode := 420 (* 0644 *); Data := [x61; x0a] |}.
Definition script_file : File := {| Mode := 493 (* 0755 *); Data := [x61; x0a] |}.

Definition world_of (fs : gmap string File) : World :=
  {| files := fs; open_fails := ∅; remove_fails := ∅; pipe_fails := false;
     start := fun _ => StartError "fork/exec: no such file or directory" |}.

Definition empty_world : World := world_of ∅.

Definition foo_world : World :=
  world_of (<["foo" := plain_file]> (<["foo.gz" := plain_file]>
            (<["foo.bz2" := plain_file]> ∅))).

Definition foo_gz_world : World := world_of (<["foo.gz" := plain_file]> ∅).

Definition bash_world : World :=
  world_of (<["job.bash" := plain_file]> (<["run.bash" := script_file]> ∅)).

(** Write resolution in the words of the specification: the match of the
    same search is deleted. *)
Definition resolveWritable (w : World) (name : string)
    : Result (string * Z * World) :=
  match first_match w name with
  | Some c =>
      '(_, w') ← PathRemoveOrPanic w (c_path c);
      Ok (c_path c, c_code c, w')
  | None => Ok ("/dev/null", 0, w)
  end.

(** ** genutil.go: opening and counting lines *)

Definition nil_dereference : string :=
  "runtime error: invalid memory address or nil pointer dereference".

(** What a reader reads from: the bytes the source still delivers before it
    ends, or the nil [*gzip.Reader] left by a failed [gzip.NewReader]. *)
Inductive Source :=
| Stream (data : list byte)
| NilGzipReader.

(** A [bufio.Reader]. *)
Record Reader := { rd : Source; bufsize : Z }.

Definition bufio_NewReaderSize (rd : Source) (size : Z) : Reader :=
  {| rd := rd; bufsize := Z.max size 16 |}.

Definition newline : byte := x0a.
Definition carriage_return : byte := x0d.

(** The two errors a [bufio.Reader] over such a source reports. *)
Inductive bufio_error := io_EOF | bufio_ErrBufferFull.

Definition ends_with (c : byte) (line : list byte) : bool :=
  match last line with
  | Some x => Byte.eqb x c
  | None => false
  end.

Fixpoint IndexByte (b : list byte) (c : byte) : option nat :=
  match b with
  | [] => None
  | x :: b' => if Byte.eqb x c then Some O else S <$> IndexByte b' c
  end.

(** [ReadSlice('\n')] of [bufio.Reader], on the bytes still to come: the
    line with its end, the bytes left, and the error. *)
Definition ReadSlice (size : nat) (data : list byte)
    : list byte * list byte * option bufio_error :=
  match IndexByte (take size data) newline with
  | Some i => (take (S i) data, drop (S i) data, None)
  | None =>
      if decide (size <= length data)%nat
      then (take size data, drop size data, Some bufio_ErrBufferFull)
      else (data, [], Some io_EOF)
  end.

(** [ReadLine] of [bufio.Reader]: line, isPrefix, err and the reader after
    the call. *)
Definition ReadLine (b : Reader)
    : Result (list byte * bool * option bufio_error * Reader) :=
  match rd b with
  | NilGzipReader => Panic nil_dereference
  | Stream data =>
      let '(line, rest, err) := ReadSlice (Z.to_nat (bufsize b)) data in
      let after rest := {| rd := Stream rest; bufsize := bufsize b |} in
      match err with
      | Some bufio_ErrBufferFull =>
          if ends_with carriage_return line
          then Ok (removelast line, true, None, after (carriage_return :: rest))
          else Ok (line, true, None, after rest)
      | _ =>
          if bool_decide (length line = 0)%nat then
            Ok ([], false, err, after rest)
          else if ends_with newline line then
            let drop :=
              if ends_with carriage_return (removelast line)
              then 2%nat else 1%nat in
            Ok (take (length line - drop) line, false, None, after rest)
          else Ok (line, false, None, after rest)
      end
  end.

(** [num++] on an [int64]. *)
Definition wrap_int64 (z : Z) : Z :=
  (z + 2 ^ 63) mod 2 ^ 64 - 2 ^ 63.

Section FileAccess.
(** [gzip.NewReader] followed by the decoding ([None]: the header is
    refused), and [bzip2.NewReader] followed by the decoding. *)
Variable gzip_NewReader : list byte -> option (list byte).
Variable bzip2_NewReader : list byte -> list byte.

Definition gzip_source (fi : list byte) : Source :=
  match gzip_NewReader fi with
  | Some data => Stream data
  | None => NilGzipReader
  end.

(** The messages of [log.Panicf] are abridged to the error and the name. *)
Definition OpenAny (w : World) (_fname : string) : Result (option Reader) :=
  '(ofname, ofcmd, ofcode) ← ReadableFilename w _fname;
  if bool_decide (ofcode ∈ [1; 7; 4; 10; 5]) then
    match ofcmd with
    | None => Panic nil_dereference
    | Some cmd =>
        let err := Cmd_StdoutPipe w cmd in
        let fi := pipe_stream (Cmd_Start w cmd) in
        match err with
        | Some err =>
            Panic ("genutil.OpenAny: err(" +:+ err +:+ ") fname(" +:+ _fname +:+ ")")
        | None => Ok (Some (bufio_NewReaderSize (Stream fi) (20 * 4096)))
        end
    end
  else if bool_decide (ofcode ∈ [2; 8]) then
    match os_Open w ofname with
    | inr err =>
        Panic ("genutil.OpenAny: err(" +:+ err +:+ ") fname(" +:+ _fname +:+ ")")
    | inl fi => Ok (Some (bufio_NewReaderSize (gzip_source fi) (20 * 4096)))
    end
  else if bool_decide (ofcode ∈ [3; 9]) then
    match os_Open w ofname with
    | inr err =>
        Panic ("genutil.OpenAny: err(" +:+ err +:+ ") fname(" +:+ _fname +:+ ")")
    | inl fi =>
        Ok (Some (bufio_NewReaderSize (Stream (bzip2_NewReader fi)) (20 * 4096)))
    end
  else if bool_decide (ofcode ∈ [6; 11]) then
    match os_Open w ofname with
    | inr err =>
        Panic ("genutil.OpenAny: err(" +:+ err +:+ ") fname(" +:+ _fname +:+ ")")
    | inl fi => Ok (Some (bufio_NewReaderSize (Stream fi) (20 * 4096)))
    end
  else Ok None.

Definition OpenAnyIO (w : World) (_fname : string) : Result (option Source) :=
  '(ofname, ofcmd, ofcode) ← ReadableFilename w _fname;
  if bool_decide (ofcode ∈ [1; 7; 4; 10; 5]) then
    match ofcmd with
    | None => Panic nil_dereference
    | Some cmd =>
        let err := Cmd_StdoutPipe w cmd in
        let fi := pipe_stream (Cmd_Start w cmd) in
        match err with
        | Some err =>
            Panic ("genutil.OpenAny: err(" +:+ err +:+ ") fname(" +:+ _fname +:+ ")")
        | None => Ok (Some (Stream fi))
        end
    end
  else if bool_decide (ofcode ∈ [2; 8]) then
    match os_Open w ofname with
    | inr err =>
        Panic ("genutil.OpenAnyIO: err(" +:+ err +:+ ") fname(" +:+ _fname +:+ ")")
    | inl fi => Ok (Some (gzip_source fi))
    end
  else if bool_decide (ofcode ∈ [3; 9]) then
    match os_Open w ofname with
    | inr err =>
        Panic ("genutil.OpenAnyIO: err(" +:+ err +:+ ") fname(" +:+ _fname +:+ ")")
    | inl fi => Ok (Some (Stream (bzip2_NewReader fi)))
    end
  else if bool_decide (ofcode ∈ [6; 11]) then
    match os_Open w ofname with
    | inr err =>
        Panic ("genutil.OpenAnyIO: err(" +:+ err +:+ ") fname(" +:+ _fname +:+ ")")
    | inl fi => Ok (Some (Stream fi))
    end
  else Ok None.

(** The reader and the error that [OpenAnyErr] returns. *)
Definition OpenAnyErr (w : World) (_fname : string)
    : Result (option Reader * option string) :=
  '(ofname, ofcmd, ofcode) ← ReadableFilename w _fname;
  match ofcmd with
  | None => Ok (None, Some "os.exec.Command returned nil pointer")
  | Some cmd =>
      if bool_decide (ofcode ∈ [1; 7; 4; 10; 5]) then
        match Cmd_StdoutPipe w cmd with
        | Some err => Ok (None, Some err)
        | None =>
            match Cmd_Start w cmd with
            | StartError err => Ok (None, Some err)
            | Running fi =>
                Ok (Some (bufio_NewReaderSize (Stream fi) (20 * 4096)), None)
            end
        end
      else if bool_decide (ofcode ∈ [2; 8]) then
        match os_Open w ofname with
        | inr err => Ok (None, Some err)
        | inl fi =>
            match gzip_NewReader fi with
            | None => Ok (None, Some "gzip: invalid header")
            | Some data =>
                Ok (Some (bufio_NewReaderSize (Stream data) (20 * 4096)), None)
            end
        end
      else if bool_decide (ofcode ∈ [3; 9]) then
        match os_Open w ofname with
        | inr err => Ok (None, Some err)
        | inl fi =>
            Ok (Some (bufio_NewReaderSize (Stream (bzip2_NewReader fi)) (20 * 4096)),
                None)
        end
      else if bool_decide (ofcode ∈ [6; 11]) then
        match os_Open w ofname with
        | inr err => Ok (None, Some err)
        | inl fi => Ok (Some (bufio_NewReaderSize (Stream fi) (20 * 4096)), None)
        end
      else Ok (None, Some "OpenAnyErr : unknown ofcode")
  end.

(** The loop of [GetNumLines]; [fuel] bounds the number of calls of
    [ReadLine], and [None] says that the loop has not ended within it. *)
Fixpoint GetNumLines_loop (fuel : nat) (r : option Reader) (num : Z)
    : option (Result Z) :=
  match fuel with
  | O => None
  | S fuel' =>
      match r with
      | None => Some (Panic nil_dereference)
      | Some b =>
          match ReadLine b with
          | Panic msg => Some (Panic msg)
          | Ok (_, _, Some _, _) => Some (Ok num)
          | Ok (_, _, None, b') =>
              GetNumLines_loop fuel' (Some b') (wrap_int64 (num + 1))
          end
      end
  end.

Definition GetNumLines (fuel : nat) (w : World) (_fname : string)
    : option (Result Z) :=
  match OpenAny w _fname with
  | Panic msg => Some (Panic msg)
  | Ok r => GetNumLines_loop fuel r 0
  end.
End FileAccess.

(** ** The vocabulary of the specification: line counting *)

(** The number of records of the stream that end in a newline. *)
Fixpoint newline_terminated_records (data : list byte) : Z :=
  match data with
  | [] => 0
  | c :: rest =>
      (if Byte.eqb c newline then 1 else 0) + newline_terminated_records rest
  end.

(** The stream ends in bytes that no newline follows. *)
Definition unterminated_tail (data : list byte) : bool :=
  match last data with
  | Some c => negb (Byte.eqb c newline)
  | None => false
  end.

(** The lines of the stream: the records that end in a newline, and the
    unterminated tail if there is one. *)
Definition lines (data : list byte) : Z :=
  newline_terminated_records data + (if unterminated_tail data then 1 else 0).

(** Every line fits, with its newline, in a buffer of [size] bytes: any
    [size] bytes in a row contain a newline. *)
Definition short_lines (size : Z) (data : list byte) : Prop :=
  forall k : nat, (Z.of_nat k + size <= Z.of_nat (length data)) ->
    exists i : nat, Z.of_nat i < size /\ data !! (k + i)%nat = Some newline.

(** Decoders for the examples, which read plain files. *)
Definition no_gzip (fi : list byte) : option (list byte) := None.
Definition no_bzip2 (fi : list byte) : list byte := [].

Definition tail_world : World :=
  world_of (<["a.txt" := {| Mode := 420; Data := [x61] |}]> ∅).

Definition lines_world : World :=
  world_of (<["b.txt" := {| Mode := 420; Data := [x61; x0a; x62] |}]> ∅).

Definition xz_world : World := world_of (<["data.xz" := plain_file]> ∅).

(** ** genutil.go: the other functions around the file resolution *)

Definition AnyPathOK (w : World) (_path : string) : Result bool :=
  '(_, _, ofcode) ← ReadableFilename w _path;
  if bool_decide (ofcode = 0) then Ok false else Ok true.

Definition CompressType (_fname : string) : Z :=
  if HasSuffix _fname ".xz" then 1
  else if HasSuffix _fname ".gz" then 2
  else if HasSuffix _fname ".bz2" then 3
  else if HasSuffix _fname ".zip" || HasSuffix _fname ".ZIP" then 4
  else if HasSuffix _fname ".bash" then 5
  else if HasSuffix _fname ".zip" then 4
  else 0.

(** [CompressionBasename] calls itself on a shorter name; [fuel] bounds the
    depth of the calls, and the length of the name is enough of it. *)
Fixpoint CompressionBasename_rec (fuel : nat) (_fname : string) : string :=
  match fuel with
  | O => _fname
  | S fuel' =>
      let nn := String.length _fname in
      if HasSuffix _fname ".xz" then
        CompressionBasename_rec fuel' (String.substring 0 (nn - 3) _fname)
      else if HasSuffix _fname ".gz" then
        CompressionBasename_rec fuel' (String.substring 0 (nn - 3) _fname)
      else if HasSuffix _fname ".bz2" then
        CompressionBasename_rec fuel' (String.substring 0 (nn - 4) _fname)
      else if HasSuffix _fname ".zip" then
        CompressionBasename_rec fuel' (String.substring 0 (nn - 4) _fname)
      else if HasSuffix _fname ".ZIP" then
        CompressionBasename_rec fuel' (String.substring 0 (nn - 4) _fname)
      else _fname
  end.

Definition CompressionBasename (_fname : string) : string :=
  CompressionBasename_rec (String.length _fname) _fname.

(** The loop of [RemoveCompressionVariants] over the extensions. *)
Fixpoint RemoveCompressionVariants_loop (w : World) (fbase : string)
    (_keepbase : bool) (exts : list string) : Result World :=
  match exts with
  | [] => Ok w
  | ext :: exts' =>
      if _keepbase && String.eqb ext "" then
        RemoveCompressionVariants_loop w fbase _keepbase exts'
      else
        let ff := fbase +:+ ext in
        let fok := PathOK w ff in
        if negb fok then RemoveCompressionVariants_loop w fbase _keepbase exts'
        else
          '(_, w') ← PathRemoveOrPanic w ff;
          RemoveCompressionVariants_loop w' fbase _keepbase exts'
  end.

Definition RemoveCompressionVariants (w : World) (_fname : string)
    (_keepbase : bool) : Result World :=
  let fbase := CompressionBasename _fname in
  RemoveCompressionVariants_loop w fbase _keepbase
    [""; ".xz"; ".gz"; ".bz2"; ".zip"; ".ZIP"].

Definition ReadableFilenameCommand (w : World) (_fname : string) : Result string :=
  '(_, ofcmd, _) ← ReadableFilename w _fname;
  match ofcmd with
  | None => Ok ""
  | Some cmd =>
      Ok (foldl (fun '(ostr, space) arg => (ostr +:+ (space +:+ arg), " "))
                ("", "") (Args cmd)).1
  end.

(** ** Library functions on strings and bytes *)

(** [strings.Split]: the pieces of [s] between the occurrences of [sep],
    found from the left and not overlapping.  For the empty separator Go
    gives the UTF-8 sequences of [s]; they are its bytes when [s] is
    ASCII, and no function below passes an empty separator. *)
Fixpoint Split_from (sep : string) (skip : nat) (cur : string) (s : string)
    : list string :=
  match s with
  | EmptyString => [cur]
  | String c s' =>
      match skip with
      | S skip' => Split_from sep skip' cur s'
      | O =>
          if String.prefix sep s
          then cur :: Split_from sep (String.length sep - 1) "" s'
          else Split_from sep 0 (cur +:+ String c "") s'
      end
  end.

Definition strings_Split (s sep : string) : list string :=
  if String.eqb sep ""
  then (fun c => String c "") <$> String.list_ascii_of_string s
  else Split_from sep 0 "" s.

(** [strings.Join]. *)
Fixpoint strings_Join (elems : list string) (sep : string) : string :=
  match elems with
  | [] => ""
  | [e] => e
  | e :: elems' => e +:+ sep +:+ strings_Join elems' sep
  end.

Definition space : byte := x20.
Definition hash : byte := x23.

(** [bytes.TrimLeft] and [bytes.Trim] with the cutset of one space. *)
Fixpoint TrimLeft_space (b : list byte) : list byte :=
  match b with
  | x :: b' => if Byte.eqb x space then TrimLeft_space b' else b
  | [] => []
  end.

Definition Trim_space (b : list byte) : list byte :=
  reverse (TrimLeft_space (reverse (TrimLeft_space b))).

(** ** genutil.go: counting the lines that are no comments *)

Fixpoint IsCommentLine (_line : list byte) (_commenttags : list string) : bool :=
  match _commenttags with
  | [] => false
  | commenttag :: tags =>
      if String.eqb commenttag "Whitespace" then
        if (0 <? length _line)%nat && (length (Trim_space _line) =? 0)%nat
        then true
        else IsCommentLine _line tags
      else if String.eqb commenttag "WhitespaceHash" then
        match TrimLeft_space _line with
        | x :: _ => if Byte.eqb x hash then true else IsCommentLine _line tags
        | [] => IsCommentLine _line tags
        end
      else IsCommentLine _line tags
  end.

(** [ReadSlice('\n')] on a reader: the line, the error and the reader after
    the call. *)
Definition Reader_ReadSlice (b : Reader)
    : Result (list byte * option bufio_error * Reader) :=
  match rd b with
  | NilGzipReader => Panic nil_dereference
  | Stream data =>
      let '(line, rest, err) := ReadSlice (Z.to_nat (bufsize b)) data in
      Ok (line, err, {| rd := Stream rest; bufsize := bufsize b |})
  end.

(** The loop of [GetFileLineCount]; [fuel] bounds the number of calls of
    [ReadSlice]. *)
Fixpoint GetFileLineCount_loop (fuel : nat) (comments : list string)
    (bio : Reader) (count : Z) : option (Result Z) :=
  match fuel with
  | O => None
  | S fuel' =>
      match Reader_ReadSlice bio with
      | Panic msg => Some (Panic msg)
      | Ok (_, Some io_EOF, _) => Some (Ok count)
      | Ok (_, Some bufio_ErrBufferFull, bio') =>
          GetFileLineCount_loop fuel' comments bio' count
      | Ok (line, None, bio') =>
          if bool_decide (length line = 0)%nat
          then Some (Panic "runtime error: slice bounds out of range [:-1]")
          else
            let line := take (length line - 1) line in
            if IsCommentLine line comments
            then GetFileLineCount_loop fuel' comments bio' count
            else GetFileLineCount_loop fuel' comments bio' (wrap_int64 (count + 1))
      end
  end.

Section FileAccessMore.
Variable gzip_NewReader : list byte -> option (list byte).
Variable bzip2_NewReader : list byte -> list byte.

(** The count and the error that [GetFileLineCount] returns. *)
Definition GetFileLineCount (fuel : nat) (w : World) (_fname _comments : string)
    : option (Result (Z * option string)) :=
  let comments := strings_Split _comments "," in
  match OpenAnyErr gzip_NewReader bzip2_NewReader w _fname with
  | Panic msg => Some (Panic msg)
  | Ok (_, Some err) => Some (Ok (0, Some err))
  | Ok (None, None) => Some (Panic nil_dereference)
  | Ok (Some bio, None) =>
      match GetFileLineCount_loop fuel comments bio 0 with
      | None => None
      | Some (Panic msg) => Some (Panic msg)
      | Some (Ok count) => Some (Ok (count, None))
      end
  end.
End FileAccessMore.

(** The paths that [RemoveCompressionVariants] removes. *)
Definition variant_paths (_fname : string) (_keepbase : bool) : list string :=
  let fbase := CompressionBasename _fname in
  (if _keepbase then [] else [fbase]) ++
  ((fun ext => fbase +:+ ext) <$> [".xz"; ".gz"; ".bz2"; ".zip"; ".ZIP"]).

(** The name ends in none of the suffixes that [CompressionBasename]
    strips. *)
Definition no_compression_suffix (name : string) : bool :=
  negb (HasSuffix name ".xz" || HasSuffix name ".gz" || HasSuffix name ".bz2"
        || HasSuffix name ".zip" || HasSuffix name ".ZIP").

(** The records of the stream that end in a newline, without the newline. *)
Fixpoint records_from (cur data : list byte) : list (list byte) :=
  match data with
  | [] => []
  | c :: rest =>
      if Byte.eqb c newline then cur :: records_from [] rest
      else records_from (cur ++ [c]) rest
  end.

Definition records (data : list byte) : list (list byte) :=
  records_from [] data.

(** The number of records that are no comment lines. *)
Definition count_records (comments : list string) (data : list byte) : Z :=
  Z.of_nat (length (filter (fun line => IsCommentLine line comments = false)
                           (records data))).

(** "a", a line of spaces, an indented hash comment, and a tail. *)
Definition comment_world : World :=
  world_of (<["c.txt" := {| Mode := 420;
      Data := [x61; x0a; x20; x20; x0a; x20; x23; x62; x0a; x63] |}]> ∅).

(** ** genutil.go: keys of bool maps and unique keys *)

Section UniqueKeysFunctions.
Variable sort_Sort : forall A, (A -> A -> bool) -> list A -> list A.
Variable range : forall K (EqK : EqDecision K) (CK : Countable K) V,
  gmap K V -> list (K * V).

(** [for kk := range m { keys = append(keys, kk) }]. *)
Definition append_keys (m : gmap string bool) (keys : list string) : list string :=
  foldl (fun keys kk => keys ++ [kk]) keys (range string _ _ bool m).*1.

Definition KeysBoolMap (_aset : gmap string bool) : list string :=
  append_keys _aset [].

(** The map that [UniqueKeys] and [SortedUniqueKeys] fill. *)
Definition mark_all (_strs : list (list string)) : gmap string bool :=
  foldl (fun mp ss => foldl (fun mp str => <[str := true]> mp) mp ss) ∅ _strs.

Definition UniqueKeys (_strs : list (list string)) : list string :=
  let mp := mark_all _strs in
  append_keys mp [].

Definition SortedUniqueKeys (_strs : list (list string)) : list string :=
  let mp := mark_all _strs in
  let strs := append_keys mp [] in
  sort_Sort string String.ltb strs.
End UniqueKeysFunctions.

(** No two keys have values that compare equal. *)
Definition no_ties (m : gmap string float64) : Prop :=
  forall k1 k2 v1 v2, m !! k1 = Some v1 -> m !! k2 = Some v2 ->
    f64_le v1 v2 = true -> f64_le v2 v1 = true -> k1 = k2.

(** The order of the keys by their values. *)
Definition value_le (m : gmap string float64) (k1 k2 : string) : Prop :=
  exists v1 v2, m !! k1 = Some v1 /\ m !! k2 = Some v2 /\ f64_le v1 v2 = true.

(** Another instance of the runtime: the insertion sort of the reversed
    slice, and the iteration in the reverse of the order of [map_to_list]. *)
Definition insertion_sort_reversed A (less : A -> A -> bool) (l : list A)
    : list A :=
  insertion_sort A less (reverse l).

Definition range_reversed K (EqK : EqDecision K) (CK : Countable K) V
    (m : gmap K V) : list (K * V) :=
  reverse (map_to_list m).

(** ** genutil.go: shorthands on numbers, slices and strings *)

(** The values of an [int64]. *)
Definition is_int64 (z : Z) : Prop := - 2 ^ 63 <= z < 2 ^ 63.

Definition AbsInt64 (_ival : Z) : Z :=
  if _ival <? 0 then wrap_int64 (- _ival) else _ival.

Definition MinFloat (_ival1 _ival2 : float64) : float64 :=
  if f64_lt _ival1 _ival2 then _ival1 else _ival2.

Definition MaxFloat (_ival1 _ival2 : float64) : float64 :=
  if f64_gt _ival1 _ival2 then _ival1 else _ival2.

Fixpoint SliceContainsStr (s : list string) (e : string) : bool :=
  match s with
  | [] => false
  | a :: s' => if String.eqb a e then true else SliceContainsStr s' e
  end.

(** The loop of [SliceIndexStr], at index [ii] of the slice. *)
Fixpoint SliceIndexStr_from (ii : Z) (s : list string) (e : string) : Z :=
  match s with
  | [] => -1
  | a :: s' => if String.eqb a e then ii else SliceIndexStr_from (ii + 1) s' e
  end.

Definition SliceIndexStr (s : list string) (e : string) : Z :=
  SliceIndexStr_from 0 s e.

Definition index_out_of_range : string :=
  "runtime error: index out of range".
Definition slice_out_of_range : string :=
  "runtime error: slice bounds out of range".

(** The loop of [IndexNl]; [idx] grows up to [_buflen], which bounds the
    number of rounds. *)
Fixpoint IndexNl_loop (fuel : nat) (_buffer : list byte) (_buflen idx : Z)
    : Result Z :=
  if idx <? _buflen then
    match fuel with
    | O => Ok _buflen
    | S fuel' =>
        if idx <? 0 then Panic index_out_of_range
        else
          match _buffer !! Z.to_nat idx with
          | None => Panic index_out_of_range
          | Some c =>
              if negb (Byte.eqb c newline)
              then IndexNl_loop fuel' _buffer _buflen (idx + 1)
              else Ok (idx + 1)
          end
    end
  else Ok _buflen.

Definition IndexNl (_buffer : list byte) (_buflen _rowBegin : Z) : Result Z :=
  IndexNl_loop (Z.to_nat (_buflen - _rowBegin)) _buffer _buflen _rowBegin.

Definition StrCapped (_str : string) (_cap : Z) : Result string :=
  if Z.of_nat (String.length _str) <=? _cap then Ok _str
  else if _cap <? 0 then Panic slice_out_of_range
  else Ok (String.substring 0 (Z.to_nat _cap) _str).

Definition ChompStr (_str _chompstr : string) : string :=
  if HasSuffix _str _chompstr
  then drop_last (String.length _chompstr) _str
  else _str.

(** ** genutil.go: lists of key=value pairs *)

(** The loop of [GetKV]; a part with fewer than two pieces is passed
    over. *)
Fixpoint GetKV_loop (parts : list string) (_kk _def : string) : string :=
  match parts with
  | [] => _def
  | kvp :: parts' =>
      match strings_Split kvp "=" with
      | k0 :: v1 :: _ =>
          if String.eqb k0 _kk then v1 else GetKV_loop parts' _kk _def
      | _ => GetKV_loop parts' _kk _def
      end
  end.

Definition GetKV (_list _kk _def : string) : string :=
  GetKV_loop (strings_Split _list ";") _kk _def.

(** One round of the loop that fills [kvmap]. *)
Definition kv_insert (kvmap : gmap string string) (kvp : string)
    : gmap string string :=
  match strings_Split kvp "=" with
  | k0 :: v1 :: _ => <[k0 := v1]> kvmap
  | _ => kvmap
  end.

Definition GetMapFromKV (_list : string) : gmap string string :=
  foldl kv_insert ∅ (strings_Split _list ";").

(** [fmt.Sprintf("%s=%s", kk, val)]. *)
Definition kv_pair (kv : string * string) : string :=
  let '(kk, val) := kv in kk +:+ "=" +:+ val.

Section KeyValueLists.
Variable range : forall K (EqK : EqDecision K) (CK : Countable K) V,
  gmap K V -> list (K * V).

Definition GenKVFromMap (_kvmap : gmap string string) : string :=
  strings_Join (kv_pair <$> range string _ _ string _kvmap) ";".

Definition ModifyKV (_list _kk _val : string) : string :=
  let kvmap := foldl kv_insert ∅ (strings_Split _list ";") in
  let kvmap := <[_kk := _val]> kvmap in
  GenKVFromMap kvmap.
End KeyValueLists.

(** The byte [c] occurs in [s]. *)
Fixpoint contains_char (c : ascii) (s : string) : bool :=
  match s with
  | EmptyString => false
  | String x s' => if Ascii.eqb x c then true else contains_char c s'
  end.

(** Neither separator of a list of pairs occurs in [s]. *)
Definition kv_free (s : string) : bool :=
  negb (contains_char ";" s) && negb (contains_char "=" s).

Definition kv_map_free (m : gmap string string) : Prop :=
  map_Forall (fun k v => kv_free k = true /\ kv_free v = true) m.

Definition kv_list_free (l : list (string * string)) : Prop :=
  Forall (fun kv => kv_free kv.1 = true /\ kv_free kv.2 = true) l.

(** ** genutil.go: dates as strings of eight bytes *)

(** The loop over the bytes of two dates of the same length: the first
    place where they differ decides. *)
Fixpoint date_loop (_dt1 _dt2 : string) : bool :=
  match _dt1, _dt2 with
  | String c1 r1, String c2 r2 =>
      if Ascii.ltb c2 c1 then false
      else if Ascii.ltb c1 c2 then true
      else date_loop r1 r2
  | _, _ => true
  end.

(** The answer, and whether the line on bad dates is printed. *)
Definition StryyyymmddLTEQ (_dt1 _dt2 : string) : bool * bool :=
  let len1 := String.length _dt1 in
  let len2 := String.length _dt2 in
  if (len1 <? 8)%nat && (len2 =? 8)%nat then (true, false)
  else if (len1 =? 8)%nat && (len2 <? 8)%nat then (false, false)
  else if (len1 =? 8)%nat && (len2 =? 8)%nat then (date_loop _dt1 _dt2, false)
  else (false, true).

Definition StryyyymmddLT (_dt1 _dt2 : string) : bool * bool :=
  let len1 := String.length _dt1 in
  let len2 := String.length _dt2 in
  if (len1 <? 8)%nat && (len2 =? 8)%nat then (true, false)
  else if (len1 =? 8)%nat && (len2 <? 8)%nat then (false, false)
  else if (len1 =? 8)%nat && (len2 =? 8)%nat then
    if String.eqb _dt1 _dt2 then (false, false)
    else (date_loop _dt1 _dt2, false)
  else (false, true).
(** * Properties *)

(** ** Slices filled by index *)

Lemma store_loop_fill {A} (xs arr : list A) (ii : nat) :
  length arr = (ii + length xs)%nat ->
  store_loop arr ii xs = Ok (take ii arr ++ xs).
Proof.
  revert arr ii. induction xs as [|x xs IH]; intros arr ii Hlen; simpl in *.
  - rewrite app_nil_r, firstn_all2 by lia. reflexivity.
  - destruct (decide (ii < length arr)%nat) as [Hlt|Hge]; [|lia].
    rewrite IH by (rewrite length_insert; lia).
    f_equal.
    rewrite (take_S_r _ _ x) by (apply list_lookup_insert_eq; exact Hlt).
    rewrite take_insert_ge by lia.
    rewrite <- app_assoc. reflexivity.
Qed.

Lemma store_loop_replicate {A} (d : A) (xs : list A) :
  store_loop (replicate (length xs) d) 0 xs = Ok xs.
Proof.
  rewrite store_loop_fill by (rewrite length_replicate; lia).
  reflexivity.
Qed.

(** ** The instance of the runtime *)

Lemma insert_sorted_perm {A} (less : A -> A -> bool) x l :
  insert_sorted less x l ≡ₚ x :: l.
Proof.
  induction l as [|y l IH]; simpl; [reflexivity|].
  destruct (less x y); [reflexivity|].
  rewrite IH. apply Permutation_swap.
Qed.

Lemma insertion_sort_permutes : sort_permutes insertion_sort.
Proof.
  intros A less l. unfold insertion_sort.
  induction l as [|x l IH]; simpl; [reflexivity|].
  rewrite insert_sorted_perm, IH. reflexivity.
Qed.

Lemma range_canonical_visits_all : range_visits_all range_canonical.
Proof. intros K EqK CK V m. reflexivity. Qed.

Lemma Sorted_ordered_by {A} (less : A -> A -> bool) (out : list A) :
  Sorted (fun a b => less b a = false) out <-> ordered_by less out.
Proof.
  split.
  - intros Hs. induction Hs as [|a l Hs IH Hhd]; intros i x y Hx Hy.
    + rewrite lookup_nil in Hx. discriminate.
    + destruct i as [|i]; simpl in *.
      * inversion Hx; subst. destruct Hhd as [|b l Hab]; [discriminate|].
        simpl in Hy. inversion Hy; subst. exact Hab.
      * eapply IH; eassumption.
  - induction out as [|a out IH]; intros Ho; constructor.
    + apply IH. intros i x y Hx Hy. exact (Ho (S i) x y Hx Hy).
    + destruct out as [|b out]; constructor.
      exact (Ho O a b eq_refl eq_refl).
Qed.

Lemma strict_weak_asym {A} (less : A -> A -> bool) l x y :
  strict_weak_on less l -> x ∈ l -> y ∈ l ->
  less x y = true -> less y x = false.
Proof.
  intros Hswo Hx Hy Hxy. destruct (less y x) eqn:Hyx; [|reflexivity].
  rewrite <- (swo_irrefl _ _ Hswo x Hx). symmetry.
  exact (swo_trans _ _ Hswo x y x Hx Hy Hx Hxy Hyx).
Qed.

Lemma insert_sorted_Sorted {A} (less : A -> A -> bool) x l :
  (forall y, y ∈ l -> less x y = true -> less y x = false) ->
  Sorted (fun a b => less b a = false) l ->
  Sorted (fun a b => less b a = false) (insert_sorted less x l).
Proof.
  intros Hasym Hs. induction Hs as [|y l Hs IH Hhd]; simpl.
  - repeat constructor.
  - destruct (less x y) eqn:Hxy.
    + constructor; [constructor; assumption|].
      constructor. apply Hasym; [left|exact Hxy].
    + constructor.
      * apply IH. intros z Hz. apply Hasym. right. exact Hz.
      * destruct Hhd as [|z l Hyz]; simpl; [constructor; exact Hxy|].
        destruct (less x z); constructor; assumption.
Qed.

Lemma insertion_sort_orders : sort_orders insertion_sort.
Proof.
  intros A less l Hswo. apply Sorted_ordered_by. unfold insertion_sort.
  assert (Hsub : forall x, x ∈ l -> x ∈ l) by auto.
  revert Hsub. generalize l at 1 3 as l'.
  induction l' as [|x l' IH]; intros Hsub; simpl; [constructor|].
  apply insert_sorted_Sorted.
  - intros y Hy. apply (strict_weak_asym less l); [exact Hswo| |].
    + apply Hsub. left.
    + apply Hsub. right.
      pose proof (insertion_sort_permutes A less l') as Hp.
      unfold insertion_sort in Hp. rewrite <- Hp. exact Hy.
  - apply IH. intros y Hy. apply Hsub. right. exact Hy.
Qed.

(** ** Orderings *)

(** A total preorder on the elements gives a strict weak ordering. *)
Lemma strict_weak_of_total_preorder {A} (less leb : A -> A -> bool) (l : list A) :
  (forall x y, x ∈ l -> y ∈ l -> less x y = negb (leb y x)) ->
  (forall x y, x ∈ l -> y ∈ l -> leb x y = true \/ leb y x = true) ->
  (forall x y z, x ∈ l -> y ∈ l -> z ∈ l ->
     leb x y = true -> leb y z = true -> leb x z = true) ->
  strict_weak_on less l.
Proof.
  intros Hless Htot Htrans. split.
  - intros x Hx. rewrite Hless by assumption.
    destruct (Htot x x Hx Hx) as [->| ->]; reflexivity.
  - intros x y z Hx Hy Hz. rewrite !Hless by assumption.
    rewrite !negb_true_iff. intros Hyx Hzy.
    destruct (leb z x) eqn:Hzx; [|reflexivity].
    destruct (Htot x y Hx Hy) as [Hxy|Hxy]; [|congruence].
    rewrite <- Hzy. symmetry. exact (Htrans z x y Hz Hx Hy Hzx Hxy).
  - intros x y z Hx Hy Hz. rewrite !Hless by assumption.
    rewrite !negb_true_iff. intros Hzx.
    destruct (leb y x) eqn:Hyx; [|left; reflexivity].
    destruct (leb z y) eqn:Hzy; [|right; reflexivity].
    rewrite (Htrans z y x Hz Hy Hx Hzy Hyx) in Hzx. discriminate.
Qed.

Lemma String_ltb_negb_leb (x y : string) : String.ltb x y = negb (String.leb y x).
Proof.
  unfold String.ltb, String.leb. rewrite (String.compare_antisym x y).
  destruct (String.compare y x); reflexivity.
Qed.

Lemma String_ltb_strict_weak (l : list string) : strict_weak_on String.ltb l.
Proof.
  apply (strict_weak_of_total_preorder _ String.leb).
  - intros x y _ _. apply String_ltb_negb_leb.
  - intros x y _ _. apply String.leb_total.
  - intros x y z _ _ _ Hxy Hyz.
    assert (H : String.le x z); [|exact (Is_true_true_1 _ H)].
    transitivity y; apply Is_true_true_2; assumption.
Qed.

Lemma Z_ltb_strict_weak (l : list Z) : strict_weak_on Z.ltb l.
Proof.
  apply (strict_weak_of_total_preorder _ Z.leb).
  - intros x y _ _. rewrite Z.ltb_antisym. reflexivity.
  - intros x y _ _. rewrite !Z.leb_le. lia.
  - intros x y z _ _ _. rewrite !Z.leb_le. lia.
Qed.

(** ** float64: the comparisons on values that are not NaN *)

Lemma SFcompare_antisym (x y : float64) :
  SFcompare y x = CompOpp <$> SFcompare x y.
Proof.
  destruct x as [sx|sx| |sx mx ex], y as [sy|sy| |sy my ey]; simpl;
    try reflexivity;
    repeat match goal with s : bool |- _ => destruct s end;
    simpl; try reflexivity.
  all: rewrite (Z.compare_antisym ex ey);
    destruct (ex ?= ey)%Z; simpl; try reflexivity.
  all: rewrite !Pos.compare_cont_spec, (Pos.compare_antisym mx my);
    simpl; destruct (mx ?= my)%positive; reflexivity.
Qed.

Lemma SFcompare_not_nan (x y : float64) :
  is_nan x = false -> is_nan y = false -> is_Some (SFcompare x y).
Proof.
  destruct x, y; simpl; intros; try discriminate; eexists; reflexivity.
Qed.

Lemma f64_lt_negb_le (x y : float64) :
  is_nan x = false -> is_nan y = false -> f64_lt x y = negb (f64_le y x).
Proof.
  intros Hx Hy. unfold f64_lt, f64_le, SFltb, SFleb.
  rewrite (SFcompare_antisym x y).
  destruct (SFcompare_not_nan x y Hx Hy) as [c ->]. destruct c; reflexivity.
Qed.

Lemma f64_le_total (x y : float64) :
  is_nan x = false -> is_nan y = false ->
  f64_le x y = true \/ f64_le y x = true.
Proof.
  intros Hx Hy. unfold f64_le, SFleb.
  rewrite (SFcompare_antisym x y).
  destruct (SFcompare_not_nan x y Hx Hy) as [c ->]. destruct c; auto.
Qed.

Lemma f64_le_trans (x y z : float64) :
  f64_le x y = true -> f64_le y z = true -> f64_le x z = true.
Proof.
  unfold f64_le, SFleb.
  destruct x as [sx|sx| |sx mx ex], y as [sy|sy| |sy my ey],
           z as [sz|sz| |sz mz ez]; simpl;
    repeat match goal with s : bool |- _ => destruct s end;
    simpl; try (intros; congruence).
  all: rewrite ?Pos.compare_cont_spec.
  all: destruct (Z.compare_spec ex ey); try (intros; congruence);
    destruct (Z.compare_spec ey ez); try (intros; congruence);
    destruct (Z.compare_spec ex ez); try (intros; congruence); try lia.
  all: simpl; destruct (Pos.compare_spec mx my); try (intros; congruence);
    destruct (Pos.compare_spec my mz); try (intros; congruence);
    destruct (Pos.compare_spec mx mz); simpl; try (intros; congruence); lia.
Qed.

Lemma math_Abs_not_nan (x : float64) : is_nan (math_Abs x) = is_nan x.
Proof. destruct x; reflexivity. Qed.

(** ** Ordered projections *)

Lemma keys_dom {K} `{Countable K} {V} (m : gmap K V) (k : K) :
  k ∈ keys m <-> k ∈ dom m.
Proof.
  unfold keys. rewrite list_elem_of_fmap, elem_of_dom. split.
  - intros [[k' v] [-> Hkv]]. exists v. apply elem_of_map_to_list. exact Hkv.
  - intros [v Hv]. exists (k, v). split; [reflexivity|].
    apply elem_of_map_to_list. exact Hv.
Qed.

Lemma permutation_is_projection {K} `{Countable K} {V} (m : gmap K V) out :
  out ≡ₚ keys m -> is_projection m (Ok out).
Proof.
  intros Hp. exists out. split; [reflexivity|]. split; [exact Hp|]. split.
  - rewrite Hp. unfold keys. rewrite length_fmap. apply length_map_to_list.
  - intros k. rewrite Hp. apply keys_dom.
Qed.

Section OrderedProjectionProperties.
Variable sort_Sort : forall A, (A -> A -> bool) -> list A -> list A.
Variable range : forall K (EqK : EqDecision K) (CK : Countable K) V,
  gmap K V -> list (K * V).
Hypothesis Hperm : sort_permutes sort_Sort.
Hypothesis Hrange : range_visits_all range.

Lemma range_keys {K} `{Countable K} {V} (m : gmap K V) :
  (range K _ _ V m).*1 ≡ₚ keys m.
Proof. unfold keys. rewrite (Hrange K _ _ V m). reflexivity. Qed.

Lemma range_length {K} `{Countable K} {V} (m : gmap K V) :
  length (range K _ _ V m) = size m.
Proof. rewrite (Hrange K _ _ V m). apply length_map_to_list. Qed.

Lemma sorted_string_keys_eq {V} (m : gmap string V) :
  sorted_string_keys sort_Sort range m =
  Ok (sort_Sort string String.ltb (range string _ _ V m).*1).
Proof.
  unfold sorted_string_keys.
  rewrite <- (range_length m), <- (length_fmap fst).
  rewrite store_loop_replicate. reflexivity.
Qed.

Lemma SortedKeys_Int2Int_eq (m : gmap Z Z) :
  SortedKeys_Int2Int sort_Sort range m =
  Ok (sort_Sort Z Z.ltb (range Z _ _ Z m).*1).
Proof.
  unfold SortedKeys_Int2Int.
  rewrite <- (range_length m), <- (length_fmap fst).
  rewrite store_loop_replicate. reflexivity.
Qed.

Lemma sorted_keys_by_val_eq Less (m : gmap string float64) :
  sorted_keys_by_val sort_Sort range Less m =
  Ok (kk_ <$> sort_Sort myelemFloat64 Less (elems range m)).
Proof.
  unfold sorted_keys_by_val. fold (elems range m).
  assert (Hlen : length (elems range m) = size m).
  { unfold elems. rewrite length_fmap. apply range_length. }
  rewrite <- Hlen at 1. rewrite store_loop_replicate. simpl.
  assert (Hlen' : length (kk_ <$> sort_Sort myelemFloat64 Less (elems range m)) = size m).
  { rewrite length_fmap, (Hperm _ Less (elems range m)). exact Hlen. }
  rewrite <- Hlen'. apply store_loop_replicate.
Qed.

Lemma elems_keys (m : gmap string float64) : kk_ <$> elems range m = (range string _ _ float64 m).*1.
Proof.
  unfold elems. rewrite <- list_fmap_compose. reflexivity.
Qed.

Lemma elems_lookup (m : gmap string float64) e :
  e ∈ elems range m -> m !! kk_ e = Some (val_ e).
Proof.
  unfold elems. rewrite list_elem_of_fmap. intros [[k v] [-> Hkv]]. simpl.
  rewrite (Hrange string _ _ float64 m) in Hkv.
  apply elem_of_map_to_list. exact Hkv.
Qed.

Lemma sorted_string_keys_projection {V} (m : gmap string V) :
  is_projection m (sorted_string_keys sort_Sort range m).
Proof.
  rewrite sorted_string_keys_eq. apply permutation_is_projection.
  rewrite (Hperm _ _ _). apply range_keys.
Qed.

Lemma sorted_keys_by_val_projection Less (m : gmap string float64) :
  is_projection m (sorted_keys_by_val sort_Sort range Less m).
Proof.
  rewrite sorted_keys_by_val_eq. apply permutation_is_projection.
  rewrite (Hperm _ _ _), elems_keys. apply range_keys.
Qed.

(** C4: for every mapping and every ordering rule, the output of the
    [SortedKeys_*] and [SortedKeysByVal_*] functions is a permutation of the
    keys of the mapping: it has as many elements as the mapping has keys,
    and its elements are the keys. *)
Theorem sorted_keys_is_permutation :
  (forall m, is_projection m (SortedKeys_String2Int sort_Sort range m)) /\
  (forall m, is_projection m (SortedKeys_String2Int64 sort_Sort range m)) /\
  (forall m, is_projection m (SortedKeys_String2Float64 sort_Sort range m)) /\
  (forall m, is_projection m (SortedKeys_String2Bool sort_Sort range m)) /\
  (forall m, is_projection m (SortedKeys_String2String sort_Sort range m)) /\
  (forall m, is_projection m (SortedKeys_Int2Int sort_Sort range m)) /\
  (forall m, is_projection m
     (SortedKeysByVal_String2Float64_Ascending sort_Sort range m)) /\
  (forall m, is_projection m
     (SortedKeysByVal_String2Float64_AbsAscending sort_Sort range m)) /\
  (forall m, is_projection m
     (SortedKeysByVal_String2Float64_Descending sort_Sort range m)) /\
  (forall m, is_projection m
     (SortedKeysByVal_String2Float64_AbsDescending sort_Sort range m)).
Proof.
  repeat split; intros m;
    try apply sorted_string_keys_projection;
    try apply sorted_keys_by_val_projection.
  rewrite SortedKeys_Int2Int_eq. apply permutation_is_projection.
  rewrite (Hperm _ _ _). apply range_keys.
Qed.

Hypothesis Horders : sort_orders sort_Sort.

Lemma Sorted_weaken {A} (R R' : relation A) (l : list A) :
  (forall a b, R a b -> R' a b) -> Sorted R l -> Sorted R' l.
Proof.
  intros Himp Hs. induction Hs as [|a l Hs IH Hhd]; constructor; [exact IH|].
  destruct Hhd; constructor. apply Himp. assumption.
Qed.

Lemma sort_Strings_Sorted (l : list string) :
  Sorted String.le (sort_Sort string String.ltb l).
Proof.
  apply (Sorted_weaken (fun a b => String.ltb b a = false)).
  - intros a b Hba. rewrite String_ltb_negb_leb, negb_false_iff in Hba.
    apply Is_true_true_2. exact Hba.
  - apply Sorted_ordered_by, Horders, String_ltb_strict_weak.
Qed.

Lemma sort_Ints_Sorted (l : list Z) : Sorted Z.le (sort_Sort Z Z.ltb l).
Proof.
  apply (Sorted_weaken (fun a b => Z.ltb b a = false)).
  - intros a b Hba. apply Z.ltb_ge. exact Hba.
  - apply Sorted_ordered_by, Horders, Z_ltb_strict_weak.
Qed.

Lemma sorted_string_keys_sorted {V} (m : gmap string V) :
  is_sorted_projection String.le m (sorted_string_keys sort_Sort range m).
Proof.
  rewrite sorted_string_keys_eq. eexists. split; [reflexivity|].
  assert (Hp : sort_Sort string String.ltb (range string _ _ V m).*1 ≡ₚ keys m).
  { rewrite (Hperm _ _ _). apply range_keys. }
  split; [exact Hp|]. split; [apply sort_Strings_Sorted|].
  intros l Hl Hs. apply (Sorted_unique String.le); [exact Hs| |].
  - apply sort_Strings_Sorted.
  - rewrite Hl, Hp. reflexivity.
Qed.

Lemma SortedKeys_Int2Int_sorted (m : gmap Z Z) :
  is_sorted_projection Z.le m (SortedKeys_Int2Int sort_Sort range m).
Proof.
  rewrite SortedKeys_Int2Int_eq. eexists. split; [reflexivity|].
  assert (Hp : sort_Sort Z Z.ltb (range Z _ _ Z m).*1 ≡ₚ keys m).
  { rewrite (Hperm _ _ _). apply range_keys. }
  split; [exact Hp|]. split; [apply sort_Ints_Sorted|].
  intros l Hl Hs. apply (Sorted_unique Z.le); [exact Hs| |].
  - apply sort_Ints_Sorted.
  - rewrite Hl, Hp. reflexivity.
Qed.

Lemma is_sorted_projection_empty {K} `{Countable K} {V} (le : relation K)
    (r : Result (list K)) :
  is_sorted_projection le (∅ : gmap K V) r -> r = Ok [].
Proof.
  intros (out & -> & Hp & _). f_equal.
  unfold keys in Hp. rewrite map_to_list_empty in Hp.
  apply Permutation_nil_r. exact Hp.
Qed.

(** C6: the [SortedKeys_*] functions return the sorted permutation of the
    keys of the mapping, which is the only one: in the lexicographic order
    for text keys and in the numeric order for integer keys.  The mapping
    b:1, a:2, c:3 gives a, b, c, and an empty mapping gives an empty
    sequence. *)
Theorem sorted_keys_unique_sorted_permutation :
  (forall m, is_sorted_projection String.le m
     (SortedKeys_String2Int sort_Sort range m)) /\
  (forall m, is_sorted_projection String.le m
     (SortedKeys_String2Int64 sort_Sort range m)) /\
  (forall m, is_sorted_projection String.le m
     (SortedKeys_String2Float64 sort_Sort range m)) /\
  (forall m, is_sorted_projection String.le m
     (SortedKeys_String2Bool sort_Sort range m)) /\
  (forall m, is_sorted_projection String.le m
     (SortedKeys_String2String sort_Sort range m)) /\
  (forall m, is_sorted_projection Z.le m
     (SortedKeys_Int2Int sort_Sort range m)) /\
  SortedKeys_String2Int sort_Sort range bac_map = Ok ["a"; "b"; "c"] /\
  SortedKeys_String2Int sort_Sort range ∅ = Ok [] /\
  SortedKeys_Int2Int sort_Sort range ∅ = Ok [].
Proof.
  repeat split; try (intros m; apply sorted_string_keys_sorted);
    try (intros m; apply SortedKeys_Int2Int_sorted).
  - destruct (sorted_string_keys_sorted bac_map) as (out & Heq & _ & _ & Huniq).
    unfold SortedKeys_String2Int. rewrite Heq. f_equal. symmetry.
    apply Huniq.
    + assert (Hk : keys bac_map = ["c"; "a"; "b"]) by (vm_compute; reflexivity).
      rewrite Hk. symmetry. apply (Permutation_cons_append ["a"; "b"] "c").
    + repeat constructor.
  - apply (is_sorted_projection_empty (V := Z) String.le).
    apply sorted_string_keys_sorted.
  - apply (is_sorted_projection_empty (V := Z) Z.le).
    apply SortedKeys_Int2Int_sorted.
Qed.

Lemma elems_not_nan (m : gmap string float64) e :
  no_nan m -> e ∈ elems range m -> is_nan (val_ e) = false.
Proof. intros Hm He. exact (Hm _ _ (elems_lookup m e He)). Qed.

(** Sorting by value with a [Less] that is the strict part of a total
    preorder [R] of the values puts the values in the order [R]. *)
Lemma sorted_keys_by_val_ordered Less (R : float64 -> float64 -> bool)
    (m : gmap string float64) :
  no_nan m ->
  (forall a b, is_nan (val_ a) = false -> is_nan (val_ b) = false ->
     Less a b = negb (R (val_ b) (val_ a))) ->
  (forall x y, is_nan x = false -> is_nan y = false ->
     R x y = true \/ R y x = true) ->
  (forall x y z, R x y = true -> R y z = true -> R x z = true) ->
  ordered_values R m (sorted_keys_by_val sort_Sort range Less m).
Proof.
  intros Hm Hless Htot Htrans. rewrite sorted_keys_by_val_eq.
  eexists. split; [reflexivity|].
  assert (Hswo : strict_weak_on Less (elems range m)).
  { apply (strict_weak_of_total_preorder _ (fun a b => R (val_ a) (val_ b))).
    - intros x y Hx Hy. apply Hless; apply (elems_not_nan m); assumption.
    - intros x y Hx Hy. apply Htot; apply (elems_not_nan m); assumption.
    - intros x y z _ _ _. apply Htrans. }
  pose proof (Horders _ Less (elems range m) Hswo) as Hord.
  intros i k1 k2 v1 v2 Hk1 Hk2 Hv1 Hv2.
  apply list_lookup_fmap_Some in Hk1 as (e1 & -> & He1).
  apply list_lookup_fmap_Some in Hk2 as (e2 & -> & He2).
  assert (Hin : forall j e, sort_Sort myelemFloat64 Less (elems range m) !! j = Some e ->
                            e ∈ elems range m).
  { intros j e Hj. rewrite <- (Hperm _ Less (elems range m)).
    eapply list_elem_of_lookup_2. exact Hj. }
  pose proof (Hin _ _ He1) as Hin1. pose proof (Hin _ _ He2) as Hin2.
  rewrite (elems_lookup m e1 Hin1) in Hv1. inversion Hv1; subst v1.
  rewrite (elems_lookup m e2 Hin2) in Hv2. inversion Hv2; subst v2.
  pose proof (Hord i e1 e2 He1 He2) as Hlt.
  rewrite Hless in Hlt by (apply (elems_not_nan m); assumption).
  apply negb_false_iff in Hlt. exact Hlt.
Qed.

(** C3, amended: for every mapping none of whose values is a NaN, the values
    of adjacent keys of the output are in the order of the rule: ascending
    under [SortedKeysByVal_String2Float64_Ascending], ascending in absolute
    value under [AbsAscending], descending under [Descending], descending
    in absolute value under [AbsDescending]. *)
Theorem sorted_keys_by_val_adjacent (m : gmap string float64) :
  no_nan m ->
  ordered_values f64_le m
    (SortedKeysByVal_String2Float64_Ascending sort_Sort range m) /\
  ordered_values abs_le m
    (SortedKeysByVal_String2Float64_AbsAscending sort_Sort range m) /\
  ordered_values f64_ge m
    (SortedKeysByVal_String2Float64_Descending sort_Sort range m) /\
  ordered_values abs_ge m
    (SortedKeysByVal_String2Float64_AbsDescending sort_Sort range m).
Proof.
  intros Hm. repeat split; apply sorted_keys_by_val_ordered; try exact Hm.
  - intros a b Ha Hb. apply f64_lt_negb_le; assumption.
  - apply f64_le_total.
  - apply f64_le_trans.
  - intros a b Ha Hb. apply f64_lt_negb_le; rewrite math_Abs_not_nan; assumption.
  - intros x y Hx Hy. apply f64_le_total; rewrite math_Abs_not_nan; assumption.
  - intros x y z. apply f64_le_trans.
  - intros a b Ha Hb. apply (f64_lt_negb_le (val_ b) (val_ a)); assumption.
  - intros x y Hx Hy. unfold f64_ge. destruct (f64_le_total x y Hx Hy); auto.
  - intros x y z Hxy Hyz. exact (f64_le_trans z y x Hyz Hxy).
  - intros a b Ha Hb.
    apply (f64_lt_negb_le (math_Abs (val_ b)) (math_Abs (val_ a)));
      rewrite math_Abs_not_nan; assumption.
  - intros x y Hx Hy. unfold abs_ge, f64_ge.
    destruct (f64_le_total (math_Abs x) (math_Abs y)); auto;
      rewrite math_Abs_not_nan; assumption.
  - intros x y z Hxy Hyz.
    exact (f64_le_trans (math_Abs z) (math_Abs y) (math_Abs x) Hyz Hxy).
Qed.

(** A NaN among the values of two or more keys breaks the order whatever
    [sort.Sort] does: a NaN is in no order with its neighbour. *)
Lemma nan_map_never_ascending out :
  SortedKeysByVal_String2Float64_Ascending sort_Sort range nan_map = Ok out ->
  ~ adjacent_values f64_le nan_map out.
Proof.
  intros Hout Hadj.
  destruct (sorted_keys_by_val_projection Less_Ascending nan_map)
    as (out' & Hout' & Hp & _).
  unfold SortedKeysByVal_String2Float64_Ascending in Hout.
  rewrite Hout in Hout'. inversion Hout'; subst out'.
  assert (Hk : keys nan_map = ["y"; "x"]) by (vm_compute; reflexivity).
  rewrite Hk in Hp.
  assert (Hcases : out = ["y"; "x"] \/ out = ["x"; "y"]).
  { symmetry in Hp. apply Permutation_length_2_inv in Hp. destruct Hp; auto. }
  destruct Hcases as [-> | ->].
  - specialize (Hadj O "y" "x" f64_one S754_nan eq_refl eq_refl eq_refl eq_refl).
    discriminate.
  - specialize (Hadj O "x" "y" S754_nan f64_one eq_refl eq_refl eq_refl eq_refl).
    discriminate.
Qed.

End OrderedProjectionProperties.

(** ** File resolution *)

Lemma HasSuffix_last (s suf : string) :
  HasSuffix s suf = true -> (0 < String.length suf)%nat ->
  String.get (String.length s - 1) s =
  String.get (String.length suf - 1) suf.
Proof.
  unfold HasSuffix. intros H Hpos.
  apply andb_true_iff in H as [Hlen Heq].
  apply bool_decide_eq_true in Hlen. apply String.eqb_eq in Heq.
  rewrite <- Heq at 2.
  rewrite String.substring_correct1 by lia.
  f_equal. lia.
Qed.

Lemma bash_suffix_excludes (name suf : string) :
  HasSuffix name ".bash" = true ->
  (0 < String.length suf)%nat ->
  String.get (String.length suf - 1) suf <> Some "h"%char ->
  HasSuffix name suf = false.
Proof.
  intros Hbash Hpos Hne. destruct (HasSuffix name suf) eqn:Hsuf; [|reflexivity].
  exfalso. apply Hne.
  rewrite <- (HasSuffix_last name suf Hsuf Hpos).
  rewrite (HasSuffix_last name ".bash" Hbash); [reflexivity|simpl; lia].
Qed.

Lemma bash_is_not_compressed (name : string) :
  HasSuffix name ".bash" = true ->
  HasSuffix name ".xz" = false /\ HasSuffix name ".gz" = false /\
  HasSuffix name ".bz2" = false /\ HasSuffix name ".zip" = false.
Proof.
  intros Hbash.
  repeat split; apply (bash_suffix_excludes name _ Hbash);
    simpl; try lia; discriminate.
Qed.

Lemma PathOK_executable (w : World) (name : string) :
  PathOK w name = false -> FileExecutable w name = false.
Proof.
  unfold PathOK, FileExecutable. destruct (os_Stat w name); [discriminate|reflexivity].
Qed.

Lemma ReadableFilename_bash (w : World) (name : string) :
  HasSuffix name ".bash" = true ->
  ReadableFilename w name =
  if FileExecutable w name
  then Ok ("/dev/null", Some (exec_Command name []), 5)
  else Panic ("bash file exists without execute permissions:" +:+ name).
Proof.
  intros Hbash.
  destruct (bash_is_not_compressed name Hbash) as (Hxz & Hgz & Hbz2 & Hzip).
  unfold ReadableFilename. rewrite Hxz, Hgz, Hbz2, Hzip, Hbash. reflexivity.
Qed.

(** C9: for a name ending in [.bash] that is executable, [ReadableFilename]
    returns the command of the script and the status code 5, and leaves
    the physical path at [/dev/null]; for a name ending in [.bash] that is
    not executable, and so for one that does not exist, it panics and does
    not search the variants. *)
Theorem bash_resolution (w : World) (name : string) :
  HasSuffix name ".bash" = true ->
  (if FileExecutable w name
   then ReadableFilename w name =
        Ok ("/dev/null", Some (exec_Command name []), 5)
   else ReadableFilename w name =
        Panic ("bash file exists without execute permissions:" +:+ name)) /\
  (if PathOK w name then True
   else ReadableFilename w name =
        Panic ("bash file exists without execute permissions:" +:+ name)).
Proof.
  intros Hbash. pose proof (ReadableFilename_bash w name Hbash) as Hrf.
  split.
  - rewrite Hrf. destruct (FileExecutable w name); reflexivity.
  - destruct (PathOK w name) eqn:Hok; [exact I|].
    rewrite Hrf, (PathOK_executable w name Hok). reflexivity.
Qed.

(** On a name that does not end in [.bash], the code is the priority search
    of the specification. *)
Lemma ReadableFilename_resolveReadable (w : World) (name : string) :
  HasSuffix name ".bash" = false ->
  ReadableFilename w name = resolveReadable w name.
Proof.
  intros Hbash.
  unfold ReadableFilename, resolveReadable, first_match, exact_candidate,
    variant_candidates, base_name, suffix_of.
  revert Hbash. generalize (HasSuffix name) as hs, (PathOK w) as ok.
  intros hs ok Hbash. rewrite Hbash. simpl.
  destruct (hs ".xz"), (hs ".gz"), (hs ".bz2"), (hs ".zip"); simpl;
    destruct (ok name); simpl;
    repeat match goal with
    | |- context [ok ?p] => destruct (ok p); simpl
    end; reflexivity.
Qed.

(** C1, amended: for every name that does not end in [.bash],
    [ReadableFilename] returns the first candidate that exists, with its
    access method, in the priority order: the name exactly as given, then
    the base name with [.xz], [.gz], [.bz2], [.zip], then the bare base
    name.  A name ending in [.bash] that is executable resolves to the
    execution of the script, and one that exists and is not executable
    panics.  With foo, foo.gz and foo.bz2 present, foo resolves to the plain
    file. *)
Theorem read_resolution_priority (w : World) (name : string) :
  (if HasSuffix name ".bash" then
     if FileExecutable w name then
       exists ofname,
         ReadableFilename w name = Ok (ofname, Some (exec_Command name []), 5)
     else if PathOK w name then
       exists msg, ReadableFilename w name = Panic msg
     else True
   else ReadableFilename w name = resolveReadable w name) /\
  ReadableFilename foo_world "foo" =
    Ok ("foo", Some (exec_Command "/bin/cat" ["foo"]), 6).
Proof.
  split; [|vm_compute; reflexivity].
  destruct (HasSuffix name ".bash") eqn:Hbash.
  - rewrite (ReadableFilename_bash w name Hbash).
    destruct (FileExecutable w name); [eexists; reflexivity|].
    destruct (PathOK w name); [eexists; reflexivity|exact I].
  - apply ReadableFilename_resolveReadable. exact Hbash.
Qed.

(** C1 as stated fails: job.bash exists, and the result is not the name as
    given with an access method, but a panic. *)
Lemma read_resolution_bash_counterexample :
  ~ (PathOK bash_world "job.bash" = true ->
     exists cmd code,
       ReadableFilename bash_world "job.bash" = Ok ("job.bash", cmd, code)).
Proof.
  intros H. destruct (H eq_refl) as (cmd & code & Heq).
  vm_compute in Heq. discriminate.
Qed.

(** Without a match, the resolution of a name that does not end in [.bash]
    is the not-found result. *)
Lemma ReadableFilename_not_found (w : World) (name : string) :
  HasSuffix name ".bash" = false -> first_match w name = None ->
  ReadableFilename w name = Ok ("/dev/null", None, 0).
Proof.
  intros Hbash Hnone. rewrite (ReadableFilename_resolveReadable w name Hbash).
  unfold resolveReadable. rewrite Hnone. reflexivity.
Qed.

(** C2: nonexistent.bash has no candidate under any suffix, and its
    resolution is not the not-found result but a panic. *)
Theorem missing_bash_panics :
  first_match empty_world "nonexistent.bash" = None /\
  ReadableFilename empty_world "nonexistent.bash" =
    Panic "bash file exists without execute permissions:nonexistent.bash".
Proof. split; vm_compute; reflexivity. Qed.

(** ** Write resolution *)

Lemma WritableFilename_resolveWritable (w : World) (name : string) :
  WritableFilename w name = resolveWritable w name.
Proof.
  unfold WritableFilename, resolveWritable, first_match, exact_candidate,
    variant_candidates, base_name, suffix_of.
  generalize (HasSuffix name) as hs, (PathOK w) as ok,
    (PathRemoveOrPanic w) as rm.
  intros hs ok rm. simpl.
  destruct (hs ".xz"), (hs ".gz"), (hs ".bz2"), (hs ".zip"); simpl;
    destruct (ok name); simpl;
    repeat match goal with
    | |- context [ok ?p] => destruct (ok p); simpl
    end; reflexivity.
Qed.

Lemma PathRemoveOrPanic_found (w : World) (path : string) :
  PathOK w path = true ->
  if decide (path ∈ remove_fails w)
  then exists msg, PathRemoveOrPanic w path = Panic msg
  else exists w', PathRemoveOrPanic w path = Ok (true, w') /\
                  files w' = delete path (files w).
Proof.
  unfold PathOK, PathRemoveOrPanic, os_Remove, os_Stat.
  destruct (files w !! path); [intros _|discriminate].
  destruct (decide (path ∈ remove_fails w)); eexists; [reflexivity|].
  split; reflexivity.
Qed.

(** C5: [WritableFilename] searches the candidates in the priority order of
    the read resolution, deletes the first one that exists and no other
    file, and returns its path and status code; it panics when the deletion
    fails.  With foo.gz alone, the resolution of foo deletes foo.gz. *)
Theorem write_resolution_deletes_first_match (w : World) (name : string) :
  match first_match w name with
  | None => WritableFilename w name = Ok ("/dev/null", 0, w)
  | Some c =>
      if decide (c_path c ∈ remove_fails w)
      then exists msg, WritableFilename w name = Panic msg
      else exists w', WritableFilename w name = Ok (c_path c, c_code c, w') /\
                      files w' = delete (c_path c) (files w)
  end /\
  WritableFilename foo_gz_world "foo" = Ok ("foo.gz", 8, empty_world).
Proof.
  split; [|vm_compute; reflexivity].
  rewrite WritableFilename_resolveWritable. unfold resolveWritable.
  destruct (first_match w name) as [c|] eqn:Hfind; [|reflexivity].
  apply find_some in Hfind as [_ Hok].
  pose proof (PathRemoveOrPanic_found w (c_path c) Hok) as Hrm.
  destruct (decide (c_path c ∈ remove_fails w)).
  - destruct Hrm as [msg ->]. exists msg. reflexivity.
  - destruct Hrm as (w' & -> & Hfiles). exists w'. split; [reflexivity|exact Hfiles].
Qed.

(** ** Reading lines *)

Lemma byte_eqb_refl (c : byte) : Byte.eqb c c = true.
Proof. apply Byte.byte_dec_lb. reflexivity. Qed.

Lemma IndexByte_Some (l : list byte) (c : byte) (i : nat) :
  IndexByte l c = Some i ->
  exists pre rest, l = pre ++ c :: rest /\ length pre = i /\
                   IndexByte pre c = None.
Proof.
  revert i. induction l as [|x l IH]; intros i; simpl; [discriminate|].
  destruct (Byte.eqb x c) eqn:Hx.
  - intros [= <-]. apply Byte.byte_dec_bl in Hx. subst x.
    exists [], l. repeat split.
  - destruct (IndexByte l c) as [j|]; [|discriminate]. simpl. intros [= <-].
    destruct (IH j eq_refl) as (pre & rest & -> & Hlen & Hnone).
    exists (x :: pre), rest. simpl. rewrite Hx, Hnone, Hlen. repeat split.
Qed.

Lemma IndexByte_None (l : list byte) (c : byte) (i : nat) :
  IndexByte l c = None -> l !! i <> Some c.
Proof.
  revert i. induction l as [|x l IH]; intros i; simpl.
  - intros _. rewrite lookup_nil. discriminate.
  - destruct (Byte.eqb x c) eqn:Hx; [discriminate|].
    destruct (IndexByte l c) eqn:Hl; [discriminate|]. intros _.
    destruct i as [|i]; simpl.
    + intros [= ->]. rewrite byte_eqb_refl in Hx. discriminate.
    + apply IH. reflexivity.
Qed.

Lemma IndexByte_app_None (pre rest : list byte) (c : byte) :
  IndexByte pre c = None ->
  IndexByte (pre ++ c :: rest) c = Some (length pre).
Proof.
  induction pre as [|x pre IH]; simpl.
  - intros _. rewrite byte_eqb_refl. reflexivity.
  - destruct (Byte.eqb x c); [discriminate|].
    destruct (IndexByte pre c); [discriminate|]. intros _.
    rewrite IH by reflexivity. reflexivity.
Qed.

Lemma IndexByte_take (n : nat) (l : list byte) (c : byte) (i : nat) :
  IndexByte (take n l) c = Some i ->
  exists pre rest, l = pre ++ c :: rest /\ length pre = i /\
                   IndexByte pre c = None /\ (i < n)%nat.
Proof.
  intros Hi. destruct (IndexByte_Some _ _ _ Hi) as (pre & rest' & Heq & Hlen & Hnone).
  assert (Hlt : (i < n)%nat).
  { assert (Hl : (length (take n l) <= n)%nat) by (rewrite length_take; lia).
    rewrite Heq, length_app in Hl. simpl in Hl. lia. }
  exists pre, (rest' ++ drop n l). repeat split; try assumption.
  rewrite <- (take_drop n l) at 1. rewrite Heq, <- app_assoc. reflexivity.
Qed.

Lemma no_newline_records (l : list byte) :
  IndexByte l newline = None -> newline_terminated_records l = 0.
Proof.
  induction l as [|x l IH]; simpl; [reflexivity|].
  destruct (Byte.eqb x newline); [discriminate|].
  destruct (IndexByte l newline); [discriminate|]. intros _.
  rewrite IH by reflexivity. reflexivity.
Qed.

Lemma no_newline_ends_with (l : list byte) :
  IndexByte l newline = None -> ends_with newline l = false.
Proof.
  intros Hnone. unfold ends_with. destruct (last l) as [c|] eqn:Hlast; [|reflexivity].
  destruct (Byte.eqb c newline) eqn:Hc; [|reflexivity].
  apply Byte.byte_dec_bl in Hc. subst c.
  rewrite last_lookup in Hlast. exfalso.
  exact (IndexByte_None _ _ _ Hnone Hlast).
Qed.

Lemma lines_no_newline (l : list byte) :
  IndexByte l newline = None -> l <> [] -> lines l = 1.
Proof.
  intros Hnone Hne. unfold lines. rewrite (no_newline_records l Hnone).
  pose proof (no_newline_ends_with l Hnone) as Hends.
  unfold ends_with in Hends. unfold unterminated_tail.
  destruct (last l) as [c|] eqn:Hlast.
  - rewrite Hends. reflexivity.
  - apply last_None in Hlast. contradiction.
Qed.

Lemma lines_cons_line (pre rest : list byte) :
  IndexByte pre newline = None ->
  lines (pre ++ newline :: rest) = 1 + lines rest.
Proof.
  intros Hnone. unfold lines.
  assert (Hrec : newline_terminated_records (pre ++ newline :: rest) =
                 1 + newline_terminated_records rest).
  { clear -Hnone. induction pre as [|x pre IH]; simpl in *.
    - reflexivity.
    - destruct (Byte.eqb x newline); [discriminate|].
      destruct (IndexByte pre newline); [discriminate|].
      rewrite IH by reflexivity. reflexivity. }
  assert (Htail : unterminated_tail (pre ++ newline :: rest) =
                  unterminated_tail rest).
  { unfold unterminated_tail.
    destruct rest as [|y rest].
    - rewrite last_snoc. reflexivity.
    - rewrite (last_app_cons pre), (last_cons_cons newline). reflexivity. }
  rewrite Hrec, Htail. lia.
Qed.

Lemma short_lines_drop_line (size : Z) (pre rest : list byte) :
  short_lines size (pre ++ newline :: rest) -> short_lines size rest.
Proof.
  intros Hshort k Hk.
  destruct (Hshort (length pre + 1 + k)%nat) as (i & Hi & Hlook).
  { rewrite length_app. simpl. lia. }
  exists i. split; [exact Hi|].
  rewrite lookup_app_r in Hlook by lia.
  replace (length pre + 1 + k + i - length pre)%nat with (S (k + i)) in Hlook by lia.
  exact Hlook.
Qed.

Lemma wrap_int64_succ (n : Z) :
  wrap_int64 (wrap_int64 n + 1) = wrap_int64 (n + 1).
Proof.
  unfold wrap_int64. f_equal.
  replace ((n + 2 ^ 63) mod 2 ^ 64 - 2 ^ 63 + 1 + 2 ^ 63)
    with ((n + 2 ^ 63) mod 2 ^ 64 + 1) by lia.
  rewrite Z.add_mod_idemp_l by lia. f_equal. lia.
Qed.

Lemma short_lines_size (size : Z) (data : list byte) :
  short_lines size data -> 0 < size.
Proof.
  intros Hshort. destruct (Z_lt_le_dec 0 size) as [Hpos|Hneg]; [exact Hpos|].
  destruct (Hshort O) as (i & Hi & _); simpl; lia.
Qed.

(** One call of [ReadLine] on a stream of short lines: the end of the
    stream, or one line less. *)
Lemma ReadLine_short_lines (size : Z) (data : list byte) :
  short_lines size data ->
  match data with
  | [] =>
      ReadLine {| rd := Stream []; bufsize := size |} =
      Ok ([], false, Some io_EOF, {| rd := Stream []; bufsize := size |})
  | _ =>
      exists line rest,
        ReadLine {| rd := Stream data; bufsize := size |} =
        Ok (line, false, None, {| rd := Stream rest; bufsize := size |}) /\
        lines data = 1 + lines rest /\ short_lines size rest /\
        (length rest < length data)%nat
  end.
Proof.
  intros Hshort. pose proof (short_lines_size size data Hshort) as Hsize.
  destruct data as [|x l].
  - unfold ReadLine, ReadSlice. simpl.
    rewrite take_nil. simpl.
    destruct (decide (Z.to_nat size <= 0)%nat); [lia|reflexivity].
  - assert (Hne : x :: l <> []) by discriminate.
    revert Hshort Hne. generalize (x :: l) as data. clear x l.
    intros data Hshort Hne.
    unfold ReadLine, ReadSlice. simpl rd. simpl bufsize.
    destruct (IndexByte (take (Z.to_nat size) data) newline) as [i|] eqn:Hidx.
    + destruct (IndexByte_take _ _ _ _ Hidx)
        as (pre & rest & -> & Hlen & Hnone & Hlt).
      subst i.
      assert (Hdrop : drop (S (length pre)) (pre ++ newline :: rest) = rest).
      { rewrite drop_app_ge by lia.
        replace (S (length pre) - length pre)%nat with 1%nat by lia.
        reflexivity. }
      assert (Htake :
        length (take (S (length pre)) (pre ++ newline :: rest)) <> O).
      { rewrite length_take, length_app. cbn [length]. lia. }
      rewrite Hidx, Hdrop.
      exists (let line := take (S (length pre)) (pre ++ newline :: rest) in
              if ends_with newline line
              then take (length line -
                         (if ends_with carriage_return (removelast line)
                          then 2 else 1)%nat) line
              else line), rest.
      split.
      * rewrite bool_decide_eq_false_2 by exact Htake.
        cbv zeta. destruct (ends_with newline _); reflexivity.
      * split; [apply lines_cons_line; exact Hnone|].
        split; [exact (short_lines_drop_line size pre rest Hshort)|].
        rewrite length_app. simpl. lia.
    + destruct (decide (Z.to_nat size <= length data)%nat) as [Hfull|Hend].
      * exfalso. destruct (Hshort O) as (i & Hi & Hlook); [simpl; lia|].
        simpl in Hlook. apply (IndexByte_None _ _ i Hidx).
        rewrite lookup_take_lt by lia. exact Hlook.
      * rewrite Hidx. destruct (decide (Z.to_nat size <= length data)%nat); [lia|].
        rewrite take_ge in Hidx by lia.
        exists data, []. split.
        -- rewrite (no_newline_ends_with _ Hidx).
           rewrite bool_decide_eq_false_2; [reflexivity|].
           destruct data; [contradiction|discriminate].
        -- split; [rewrite (lines_no_newline _ Hidx Hne); reflexivity|].
           split; [|destruct data; [contradiction|simpl; lia]].
           intros k Hk. simpl in Hk. lia.
Qed.

Lemma GetNumLines_loop_counts (size : Z) (fuel : nat) :
  forall (data : list byte) (num : Z),
    short_lines size data -> (length data < fuel)%nat ->
    GetNumLines_loop fuel (Some {| rd := Stream data; bufsize := size |})
                     (wrap_int64 num) =
    Some (Ok (wrap_int64 (num + lines data))).
Proof.
  induction fuel as [|fuel IH]; intros data num Hshort Hfuel; [lia|].
  pose proof (ReadLine_short_lines size data Hshort) as Hstep.
  simpl. destruct data as [|x l].
  - rewrite Hstep. rewrite Z.add_0_r. reflexivity.
  - destruct Hstep as (line & rest & -> & Hlines & Hshort' & Hlen).
    rewrite wrap_int64_succ, IH by (assumption || lia).
    rewrite Hlines. do 3 f_equal. lia.
Qed.

Section FileAccessProperties.
Variable gzip_NewReader : list byte -> option (list byte).
Variable bzip2_NewReader : list byte -> list byte.

(** C8, amended: for every name for which [OpenAny] gives a reader of a
    decoded stream whose lines fit in the buffer of the reader,
    [GetNumLines] reads the stream to its end and returns, as an int64, the
    number of its lines: the records that end in a newline, and one more
    for an unterminated tail. *)
Theorem GetNumLines_counts_lines (w : World) (name : string) (r : Reader)
    (data : list byte) (fuel : nat) :
  OpenAny gzip_NewReader bzip2_NewReader w name = Ok (Some r) ->
  rd r = Stream data ->
  short_lines (bufsize r) data ->
  (length data < fuel)%nat ->
  GetNumLines gzip_NewReader bzip2_NewReader fuel w name =
  Some (Ok (wrap_int64 (lines data))).
Proof.
  intros Hopen Hrd Hshort Hfuel. unfold GetNumLines. rewrite Hopen.
  destruct r as [src size]. simpl in *. subst src.
  exact (GetNumLines_loop_counts size fuel data 0 Hshort Hfuel).
Qed.

(** C10: when the resolution of the name has the status code 0, [OpenAny]
    returns a nil reader and does not panic, and [GetNumLines] panics on
    the nil pointer at its first [ReadLine] and returns no count. *)
Theorem GetNumLines_not_found_panics (w : World) (name ofname : string)
    (ofcmd : option Cmd) (fuel : nat) :
  ReadableFilename w name = Ok (ofname, ofcmd, 0) ->
  OpenAny gzip_NewReader bzip2_NewReader w name = Ok None /\
  GetNumLines gzip_NewReader bzip2_NewReader (S fuel) w name =
    Some (Panic nil_dereference).
Proof.
  intros Hres.
  assert (Hopen : OpenAny gzip_NewReader bzip2_NewReader w name = Ok None).
  { unfold OpenAny. rewrite Hres. reflexivity. }
  split; [exact Hopen|].
  unfold GetNumLines. rewrite Hopen. reflexivity.
Qed.

(** When the command of a resolved name does not start, [OpenAnyErr] returns
    the error, and [OpenAny] returns a reader of the closed pipe. *)
Lemma OpenAny_start_error (w : World) (name ofname : string) (cmd : Cmd)
    (ofcode : Z) (err : string) :
  ReadableFilename w name = Ok (ofname, Some cmd, ofcode) ->
  ofcode ∈ [1; 7; 4; 10; 5] ->
  pipe_fails w = false ->
  start w cmd = StartError err ->
  OpenAny gzip_NewReader bzip2_NewReader w name =
    Ok (Some (bufio_NewReaderSize (Stream []) (20 * 4096))) /\
  OpenAnyErr gzip_NewReader bzip2_NewReader w name = Ok (None, Some err).
Proof.
  intros Hres Hcode Hpipe Hstart. unfold OpenAny, OpenAnyErr.
  rewrite Hres. simpl.
  rewrite (bool_decide_eq_true_2 _ Hcode).
  unfold Cmd_StdoutPipe, Cmd_Start. rewrite Hpipe, Hstart.
  split; reflexivity.
Qed.

(** C7: data.xz exists and xzcat does not start.  [OpenAnyErr] returns the
    error of the start; [OpenAny] and [OpenAnyIO] do not panic and return a
    reader of the pipe, from which nothing can be read. *)
Theorem OpenAny_ignores_start_failure :
  ReadableFilename xz_world "data.xz" =
    Ok ("data.xz", Some (exec_Command "/usr/bin/xzcat" ["data.xz"]), 1) /\
  Cmd_Start xz_world (exec_Command "/usr/bin/xzcat" ["data.xz"]) =
    StartError "fork/exec: no such file or directory" /\
  OpenAnyErr gzip_NewReader bzip2_NewReader xz_world "data.xz" =
    Ok (None, Some "fork/exec: no such file or directory") /\
  OpenAny gzip_NewReader bzip2_NewReader xz_world "data.xz" =
    Ok (Some {| rd := Stream []; bufsize := 81920 |}) /\
  OpenAnyIO gzip_NewReader bzip2_NewReader xz_world "data.xz" =
    Ok (Some (Stream [])).
Proof. repeat split. Qed.

End FileAccessProperties.

(** ** The examples of the specification, on the instance of the runtime *)

Example example_values_are_float64 :
  Forall (fun x => is_float64 x = true)
    [f64_one; f64_two; f64_three; f64_minus_four; f64_minus_five; S754_nan].
Proof. repeat constructor. Qed.

Example xyz_ascending :
  SortedKeysByVal_String2Float64_Ascending insertion_sort range_canonical xyz_map
  = Ok ["y"; "z"; "x"].
Proof. vm_compute. reflexivity. Qed.

Example pqr_abs_descending :
  SortedKeysByVal_String2Float64_AbsDescending insertion_sort range_canonical pqr_map
  = Ok ["p"; "r"; "q"].
Proof. vm_compute. reflexivity. Qed.

Example foo_gz_fallback :
  ReadableFilename foo_gz_world "foo" =
  Ok ("foo.gz", Some (exec_Command "/bin/zcat" ["foo.gz"]), 8).
Proof. vm_compute. reflexivity. Qed.

Lemma xyz_map_no_nan : no_nan xyz_map.
Proof.
  apply map_Forall_to_list. vm_compute. repeat constructor.
Qed.

(** ** The theorems at concrete inputs *)

Lemma sorted_keys_is_permutation_witness :
  sort_permutes insertion_sort /\ range_visits_all range_canonical /\
  is_projection bac_map
    (SortedKeys_String2Int insertion_sort range_canonical bac_map).
Proof.
  split; [exact insertion_sort_permutes|].
  split; [exact range_canonical_visits_all|].
  exact (proj1 (sorted_keys_is_permutation insertion_sort range_canonical
                  insertion_sort_permutes range_canonical_visits_all) bac_map).
Defined.

Lemma sorted_keys_unique_sorted_permutation_witness :
  sort_permutes insertion_sort /\ range_visits_all range_canonical /\
  sort_orders insertion_sort /\
  is_sorted_projection String.le bac_map
    (SortedKeys_String2Int insertion_sort range_canonical bac_map).
Proof.
  split; [exact insertion_sort_permutes|].
  split; [exact range_canonical_visits_all|].
  split; [exact insertion_sort_orders|].
  exact (proj1 (sorted_keys_unique_sorted_permutation insertion_sort
                  range_canonical insertion_sort_permutes
                  range_canonical_visits_all insertion_sort_orders) bac_map).
Defined.

Lemma sorted_keys_by_val_adjacent_witness :
  no_nan xyz_map /\
  ordered_values f64_le xyz_map
    (SortedKeysByVal_String2Float64_Ascending insertion_sort range_canonical
       xyz_map).
Proof.
  split; [exact xyz_map_no_nan|].
  exact (proj1 (sorted_keys_by_val_adjacent insertion_sort range_canonical
                  insertion_sort_permutes range_canonical_visits_all
                  insertion_sort_orders xyz_map xyz_map_no_nan)).
Defined.

(** C3 as stated fails: x has the value NaN, and the values of the adjacent
    keys of the output are not in ascending order. *)
Lemma sorted_keys_by_val_nan_counterexample :
  ~ ordered_values f64_le nan_map
      (SortedKeysByVal_String2Float64_Ascending insertion_sort range_canonical
         nan_map).
Proof.
  intros (out & Hout & Hadj).
  exact (nan_map_never_ascending insertion_sort range_canonical
           insertion_sort_permutes range_canonical_visits_all out Hout Hadj).
Qed.

Lemma bash_resolution_witness :
  HasSuffix "run.bash" ".bash" = true /\
  ReadableFilename bash_world "run.bash" =
    Ok ("/dev/null", Some (exec_Command "run.bash" []), 5).
Proof.
  split; [reflexivity|].
  exact (proj1 (bash_resolution bash_world "run.bash" eq_refl)).
Defined.

Lemma GetNumLines_counts_lines_witness :
  OpenAny no_gzip no_bzip2 lines_world "b.txt" =
    Ok (Some {| rd := Stream [x61; x0a; x62]; bufsize := 81920 |}) /\
  GetNumLines no_gzip no_bzip2 4 lines_world "b.txt" = Some (Ok 2).
Proof.
  split; [vm_compute; reflexivity|].
  apply (GetNumLines_counts_lines no_gzip no_bzip2 lines_world "b.txt"
           {| rd := Stream [x61; x0a; x62]; bufsize := 81920 |}
           [x61; x0a; x62] 4).
  - vm_compute. reflexivity.
  - reflexivity.
  - intros k Hk. simpl in Hk. lia.
  - simpl. lia.
Defined.

(** C8 as stated fails: the stream of a.txt is the byte a, with no record
    that ends in a newline, and the count is not 0. *)
Lemma GetNumLines_tail_counterexample :
  ~ (exists fuel,
       GetNumLines no_gzip no_bzip2 fuel tail_world "a.txt" =
       Some (Ok (newline_terminated_records [x61]))).
Proof.
  intros [fuel Hf]. destruct fuel as [|[|fuel]]; vm_compute in Hf; discriminate.
Qed.

Lemma GetNumLines_not_found_panics_witness :
  ReadableFilename empty_world "nonexistent" = Ok ("/dev/null", None, 0) /\
  OpenAny no_gzip no_bzip2 empty_world "nonexistent" = Ok None /\
  GetNumLines no_gzip no_bzip2 1 empty_world "nonexistent" =
    Some (Panic nil_dereference).
Proof.
  split; [vm_compute; reflexivity|].
  apply (GetNumLines_not_found_panics no_gzip no_bzip2 empty_world
           "nonexistent" "/dev/null" None 0).
  vm_compute. reflexivity.
Defined.

(** * Further properties *)

(** ** Strings *)

Lemma string_length_append (s t : string) :
  String.length (s +:+ t) = (String.length s + String.length t)%nat.
Proof.
  induction s as [|c s IH]; [reflexivity|].
  exact (f_equal S IH).
Qed.

Lemma string_append_nil_r (s : string) : s +:+ "" = s.
Proof.
  induction s as [|c s IH]; [reflexivity|].
  exact (f_equal (String c) IH).
Qed.

Lemma string_append_assoc (s t u : string) : (s +:+ t) +:+ u = s +:+ (t +:+ u).
Proof.
  induction s as [|c s IH]; [reflexivity|].
  exact (f_equal (String c) IH).
Qed.

Lemma substring_0_all (s : string) : String.substring 0 (String.length s) s = s.
Proof.
  induction s as [|c s IH]; [reflexivity|].
  exact (f_equal (String c) IH).
Qed.

Lemma substring_0_append (s t : string) :
  String.substring 0 (String.length s) (s +:+ t) = s.
Proof.
  induction s as [|c s IH]; [destruct t; reflexivity|].
  exact (f_equal (String c) IH).
Qed.

Lemma substring_skip_append (s t : string) (n : nat) :
  String.substring (String.length s) n (s +:+ t) = String.substring 0 n t.
Proof. induction s as [|c s IH]; [reflexivity|exact IH]. Qed.

Lemma substring_split (n : nat) (s : string) :
  (n <= String.length s)%nat ->
  s = String.substring 0 n s +:+ String.substring n (String.length s - n) s.
Proof.
  revert n. induction s as [|c s IH]; intros n Hn.
  - destruct n; [reflexivity|simpl in Hn; lia].
  - destruct n as [|n].
    + exact (f_equal (String c) (eq_sym (substring_0_all s))).
    + exact (f_equal (String c) (IH n ltac:(simpl in Hn; lia))).
Qed.

Lemma substring_0_length (n : nat) (s : string) :
  (n <= String.length s)%nat -> String.length (String.substring 0 n s) = n.
Proof.
  revert n. induction s as [|c s IH]; intros n Hn.
  - destruct n; [reflexivity|simpl in Hn; lia].
  - destruct n as [|n]; [reflexivity|].
    exact (f_equal S (IH n ltac:(simpl in Hn; lia))).
Qed.

Lemma HasSuffix_length (s suf : string) :
  HasSuffix s suf = true -> (String.length suf <= String.length s)%nat.
Proof.
  unfold HasSuffix. intros H. apply andb_true_iff in H as [H _].
  apply bool_decide_eq_true in H. exact H.
Qed.

(** A name with a suffix is the rest of the name followed by the suffix. *)
Lemma HasSuffix_drop_last (s suf : string) :
  HasSuffix s suf = true -> s = drop_last (String.length suf) s +:+ suf.
Proof.
  intros H. pose proof (HasSuffix_length s suf H) as Hlen.
  unfold HasSuffix in H. apply andb_true_iff in H as [_ H].
  apply String.eqb_eq in H. unfold drop_last.
  rewrite (substring_split (String.length s - String.length suf) s) at 1 by lia.
  f_equal. rewrite <- H at 3. f_equal. lia.
Qed.

Lemma HasSuffix_append (s suf : string) : HasSuffix (s +:+ suf) suf = true.
Proof.
  unfold HasSuffix. rewrite string_length_append.
  apply andb_true_iff. split; [apply bool_decide_eq_true; lia|].
  apply String.eqb_eq.
  replace (String.length s + String.length suf - String.length suf)%nat
    with (String.length s) by lia.
  rewrite substring_skip_append. apply substring_0_all.
Qed.

Lemma drop_last_append (s suf : string) :
  drop_last (String.length suf) (s +:+ suf) = s.
Proof.
  unfold drop_last. rewrite string_length_append.
  replace (String.length s + String.length suf - String.length suf)%nat
    with (String.length s) by lia.
  apply substring_0_append.
Qed.

(** ** CompressionBasename *)

Lemma CompressionBasename_rec_no_suffix (fuel : nat) (s : string) :
  (String.length s <= fuel)%nat ->
  no_compression_suffix (CompressionBasename_rec fuel s) = true.
Proof.
  revert s. induction fuel as [|fuel IH]; intros s Hlen.
  - destruct s; [reflexivity|simpl in Hlen; lia].
  - simpl.
    assert (Hrec : forall suf n, HasSuffix s suf = true ->
              String.length suf = n -> (0 < n)%nat ->
              no_compression_suffix
                (CompressionBasename_rec fuel
                   (String.substring 0 (String.length s - n) s)) = true).
    { intros suf n Hsuf Hn Hpos. apply IH.
      pose proof (HasSuffix_length s suf Hsuf).
      rewrite substring_0_length by lia. lia. }
    destruct (HasSuffix s ".xz") eqn:Hxz; [exact (Hrec _ 3%nat Hxz eq_refl ltac:(lia))|].
    destruct (HasSuffix s ".gz") eqn:Hgz; [exact (Hrec _ 3%nat Hgz eq_refl ltac:(lia))|].
    destruct (HasSuffix s ".bz2") eqn:Hbz2; [exact (Hrec _ 4%nat Hbz2 eq_refl ltac:(lia))|].
    destruct (HasSuffix s ".zip") eqn:Hzip; [exact (Hrec _ 4%nat Hzip eq_refl ltac:(lia))|].
    destruct (HasSuffix s ".ZIP") eqn:HZIP; [exact (Hrec _ 4%nat HZIP eq_refl ltac:(lia))|].
    unfold no_compression_suffix. rewrite Hxz, Hgz, Hbz2, Hzip, HZIP. reflexivity.
Qed.

Lemma CompressionBasename_rec_prefix (fuel : nat) (s : string) :
  exists t, s = CompressionBasename_rec fuel s +:+ t.
Proof.
  revert s. induction fuel as [|fuel IH]; intros s.
  - exists "". symmetry. apply string_append_nil_r.
  - simpl.
    assert (Hrec : forall suf n, HasSuffix s suf = true ->
              String.length suf = n ->
              exists t, s = CompressionBasename_rec fuel
                              (String.substring 0 (String.length s - n) s) +:+ t).
    { intros suf n Hsuf Hn.
      destruct (IH (String.substring 0 (String.length s - n) s)) as [t Ht].
      exists (t +:+ suf). rewrite <- string_append_assoc, <- Ht.
      subst n. exact (HasSuffix_drop_last s suf Hsuf). }
    destruct (HasSuffix s ".xz") eqn:Hxz; [exact (Hrec _ 3%nat Hxz eq_refl)|].
    destruct (HasSuffix s ".gz") eqn:Hgz; [exact (Hrec _ 3%nat Hgz eq_refl)|].
    destruct (HasSuffix s ".bz2") eqn:Hbz2; [exact (Hrec _ 4%nat Hbz2 eq_refl)|].
    destruct (HasSuffix s ".zip") eqn:Hzip; [exact (Hrec _ 4%nat Hzip eq_refl)|].
    destruct (HasSuffix s ".ZIP") eqn:HZIP; [exact (Hrec _ 4%nat HZIP eq_refl)|].
    exists "". symmetry. apply string_append_nil_r.
Qed.

Lemma CompressionBasename_rec_fixed (fuel : nat) (s : string) :
  no_compression_suffix s = true -> CompressionBasename_rec fuel s = s.
Proof.
  unfold no_compression_suffix. rewrite negb_true_iff, !orb_false_iff.
  intros ((((Hxz & Hgz) & Hbz2) & Hzip) & HZIP).
  destruct fuel; simpl; [reflexivity|].
  rewrite Hxz, Hgz, Hbz2, Hzip, HZIP. reflexivity.
Qed.

(** X1: [CompressionBasename] strips every compression suffix: its result
    ends in none of [.xz], [.gz], [.bz2], [.zip], [.ZIP], it is a prefix of
    the name, a name without such a suffix is returned as it is, and
    stripping twice is stripping once. *)
Theorem CompressionBasename_strips_all (name : string) :
  no_compression_suffix (CompressionBasename name) = true /\
  (exists stripped, name = CompressionBasename name +:+ stripped) /\
  (if no_compression_suffix name
   then CompressionBasename name = name
   else (String.length (CompressionBasename name) < String.length name)%nat) /\
  CompressionBasename (CompressionBasename name) = CompressionBasename name.
Proof.
  assert (Hno : no_compression_suffix (CompressionBasename name) = true).
  { apply CompressionBasename_rec_no_suffix. lia. }
  split; [exact Hno|]. split; [apply CompressionBasename_rec_prefix|]. split.
  - destruct (no_compression_suffix name) eqn:Hname.
    + apply CompressionBasename_rec_fixed. exact Hname.
    + destruct (CompressionBasename_rec_prefix (String.length name) name) as [t Ht].
      fold (CompressionBasename name) in Ht.
      destruct t as [|c t].
      * rewrite string_append_nil_r in Ht. rewrite <- Ht in Hno. congruence.
      * rewrite Ht at 2. rewrite string_length_append. simpl. lia.
  - apply CompressionBasename_rec_fixed. exact Hno.
Qed.

(** ** RemoveCompressionVariants *)

Lemma PathRemoveOrPanic_Ok (w w' : World) (path : string) (b : bool) :
  PathRemoveOrPanic w path = Ok (b, w') ->
  files w' = delete path (files w) /\ remove_fails w' = remove_fails w.
Proof.
  unfold PathRemoveOrPanic, os_Remove.
  destruct (files w !! path); [|discriminate].
  destruct (decide (path ∈ remove_fails w)); [discriminate|].
  intros [= <- <-]. split; reflexivity.
Qed.

Lemma PathRemoveOrPanic_removable (w : World) (path : string) :
  PathOK w path = true -> path ∉ remove_fails w ->
  exists w', PathRemoveOrPanic w path = Ok (true, w').
Proof.
  unfold PathOK, PathRemoveOrPanic, os_Remove, os_Stat.
  destruct (files w !! path); [intros _ Hnot|discriminate].
  destruct (decide (path ∈ remove_fails w)); [contradiction|].
  eexists. reflexivity.
Qed.

(** The paths that the loop visits. *)
Lemma RemoveCompressionVariants_loop_files (exts : list string) :
  forall (w w' : World) (fbase : string) (keep : bool),
    RemoveCompressionVariants_loop w fbase keep exts = Ok w' ->
    remove_fails w' = remove_fails w /\
    forall p, files w' !! p =
      if bool_decide (p ∈ (fun ext => fbase +:+ ext) <$>
                          filter (fun ext => ~ (keep = true /\ ext = "")) exts)
      then None else files w !! p.
Proof.
  induction exts as [|ext exts IH]; intros w w' fbase keep Hloop.
  - simpl in Hloop. inversion Hloop; subst. split; [reflexivity|].
    intros p. rewrite bool_decide_eq_false_2; [reflexivity|]. apply not_elem_of_nil.
  - simpl in Hloop.
    destruct (keep && String.eqb ext "") eqn:Hkeep.
    + apply andb_true_iff in Hkeep as [-> Hext]. apply String.eqb_eq in Hext.
      rewrite filter_cons_False by (intros Hn; apply Hn; auto).
      exact (IH w w' fbase true Hloop).
    + assert (Hfilter : ~ (keep = true /\ ext = "")).
      { intros [-> ->]. discriminate. }
      rewrite filter_cons_True by exact Hfilter.
      rewrite fmap_cons.
      destruct (PathOK w (fbase +:+ ext)) eqn:Hok; simpl in Hloop.
      * destruct (PathRemoveOrPanic w (fbase +:+ ext)) as [[b w1]|msg] eqn:Hrm;
          [|discriminate].
        simpl in Hloop.
        destruct (PathRemoveOrPanic_Ok _ _ _ _ Hrm) as [Hfiles Hfails].
        destruct (IH w1 w' fbase keep Hloop) as [Hfails' Hlook].
        split; [congruence|]. intros p. rewrite Hlook, Hfiles.
        destruct (decide (p = fbase +:+ ext)) as [->|Hne].
        -- rewrite (bool_decide_eq_true_2 (_ ∈ _ :: _)) by left.
           rewrite lookup_delete_eq. destruct (bool_decide _); reflexivity.
        -- rewrite lookup_delete_ne by congruence.
           apply (f_equal (fun b : bool => if b then None else files w !! p)).
           apply bool_decide_ext. rewrite elem_of_cons. tauto.
      * destruct (IH w w' fbase keep Hloop) as [Hfails' Hlook].
        split; [exact Hfails'|]. intros p. rewrite Hlook.
        destruct (decide (p = fbase +:+ ext)) as [->|Hne].
        -- rewrite (bool_decide_eq_true_2 (_ ∈ _ :: _)) by left.
           unfold PathOK, os_Stat in Hok.
           destruct (files w !! (fbase +:+ ext)); [discriminate|].
           destruct (bool_decide _); reflexivity.
        -- apply (f_equal (fun b : bool => if b then None else files w !! p)).
           apply bool_decide_ext. rewrite elem_of_cons. tauto.
Qed.

Lemma RemoveCompressionVariants_loop_succeeds (exts : list string) :
  forall (w : World) (fbase : string) (keep : bool),
    (forall ext, ext ∈ exts -> ~ (keep = true /\ ext = "") ->
                 fbase +:+ ext ∉ remove_fails w) ->
    exists w', RemoveCompressionVariants_loop w fbase keep exts = Ok w'.
Proof.
  induction exts as [|ext exts IH]; intros w fbase keep Hfails; simpl.
  - eexists. reflexivity.
  - assert (Hrest : forall e, e ∈ exts -> ~ (keep = true /\ e = "") ->
                              fbase +:+ e ∉ remove_fails w).
    { intros e He. apply Hfails. right. exact He. }
    destruct (keep && String.eqb ext "") eqn:Hkeep; [apply IH; exact Hrest|].
    destruct (PathOK w (fbase +:+ ext)) eqn:Hok; simpl; [|apply IH; exact Hrest].
    destruct (PathRemoveOrPanic_removable w (fbase +:+ ext) Hok) as [w1 Hrm].
    { apply Hfails; [left|]. intros [-> ->]. discriminate. }
    rewrite Hrm. simpl.
    destruct (PathRemoveOrPanic_Ok _ _ _ _ Hrm) as [_ Hsame].
    apply IH. intros e He Hk. rewrite Hsame. apply Hrest; assumption.
Qed.

Lemma variant_paths_loop (name : string) (keep : bool) (p : string) :
  p ∈ (fun ext => CompressionBasename name +:+ ext) <$>
        filter (fun ext => ~ (keep = true /\ ext = ""))
               [""; ".xz"; ".gz"; ".bz2"; ".zip"; ".ZIP"]
  <-> p ∈ variant_paths name keep.
Proof.
  unfold variant_paths. destruct keep.
  - rewrite filter_cons_False by (intros Hn; apply Hn; auto).
    rewrite !filter_cons_True by (intros [_ ?]; discriminate).
    rewrite filter_nil. reflexivity.
  - rewrite !filter_cons_True by (intros [? _]; discriminate).
    rewrite filter_nil, fmap_cons, string_append_nil_r. reflexivity.
Qed.

(** X2: when [RemoveCompressionVariants] returns, the base name (unless it
    is kept) and its variants with [.xz], [.gz], [.bz2], [.zip], [.ZIP] are
    gone, and every other file is as it was; it returns whenever none of
    these paths refuses its removal. *)
Theorem RemoveCompressionVariants_removes_only_variants (w : World)
    (name : string) (keep : bool) :
  match RemoveCompressionVariants w name keep with
  | Ok w' =>
      forall p, files w' !! p =
        if bool_decide (p ∈ variant_paths name keep) then None
        else files w !! p
  | Panic _ => exists p, p ∈ variant_paths name keep /\ p ∈ remove_fails w
  end.
Proof.
  destruct (RemoveCompressionVariants w name keep) as [w'|msg] eqn:Hres.
  - unfold RemoveCompressionVariants in Hres.
    destruct (RemoveCompressionVariants_loop_files _ _ _ _ _ Hres) as [_ Hlook].
    intros p. rewrite Hlook.
    apply (f_equal (fun b : bool => if b then None else files w !! p)).
    apply bool_decide_ext, variant_paths_loop.
  - destruct (decide (Exists (fun p => p ∈ remove_fails w)
                             (variant_paths name keep))) as [Hex|Hnone].
    + apply Exists_exists in Hex as (p & Hp & Hfail). exists p. split; assumption.
    + exfalso. rewrite <- Forall_Exists_neg, Forall_forall in Hnone.
      destruct (RemoveCompressionVariants_loop_succeeds
                  [""; ".xz"; ".gz"; ".bz2"; ".zip"; ".ZIP"] w
                  (CompressionBasename name) keep) as [w' Hok].
      * intros ext Hext Hk. apply Hnone. apply variant_paths_loop.
        apply list_elem_of_fmap_2, list_elem_of_filter. split; assumption.
      * unfold RemoveCompressionVariants in Hres. congruence.
Qed.

(** ** The candidates of the resolution *)

(** Every candidate has a status code other than 0 and 5, and the command
    of a program on its path. *)
Lemma candidate_shape (name : string) (c : Candidate) :
  c ∈ exact_candidate name :: variant_candidates name ->
  c_code c ∈ [1; 2; 3; 4; 6; 7; 8; 9; 10; 11] /\
  exists prog, c_cmd c = exec_Command prog [c_path c].
Proof.
  revert c. apply Forall_forall.
  unfold exact_candidate, variant_candidates, base_name, suffix_of.
  generalize (HasSuffix name) as hs. intros hs. simpl.
  destruct (hs ".xz"), (hs ".gz"), (hs ".bz2"), (hs ".zip"); simpl;
    repeat (apply Forall_cons_2;
            [simpl; split; [apply (bool_decide_unpack _); vm_compute; exact I
                           |eexists; reflexivity]|]);
    apply Forall_nil_2.
Qed.

Lemma candidate_code_nonzero (z : Z) :
  z ∈ [1; 2; 3; 4; 6; 7; 8; 9; 10; 11] -> z <> 0.
Proof.
  intros H ->.
  repeat (apply elem_of_cons in H as [H|H]; [discriminate|]).
  apply elem_of_nil in H. exact H.
Qed.

Lemma first_match_Some (w : World) (name : string) (c : Candidate) :
  first_match w name = Some c ->
  c ∈ exact_candidate name :: variant_candidates name /\
  PathOK w (c_path c) = true.
Proof.
  unfold first_match. intros H. apply find_some in H as [Hin Hok].
  split; [apply list_elem_of_In; exact Hin|exact Hok].
Qed.

Lemma first_match_None (w : World) (name : string) :
  first_match w name = None ->
  existsb (fun c => PathOK w (c_path c))
          (exact_candidate name :: variant_candidates name) = false.
Proof.
  unfold first_match. intros H.
  destruct (existsb _ _) eqn:Hex; [|reflexivity].
  apply existsb_exists in Hex as (c & Hin & Hok).
  rewrite (find_none _ _ H c Hin) in Hok. discriminate.
Qed.

(** X3: whatever [ReadableFilename] returns, it is one of three results:
    not found (code 0, no command, [/dev/null]); a script (code 5, the
    command of the script, [/dev/null], and the script is executable); or
    a file that exists, with the command of a program on that file and a
    code among 1-4 and 6-11. *)
Theorem ReadableFilename_result_shape (w : World) (name ofname : string)
    (ofcmd : option Cmd) (ofcode : Z) :
  ReadableFilename w name = Ok (ofname, ofcmd, ofcode) ->
  (ofcode = 0 /\ ofcmd = None /\ ofname = "/dev/null") \/
  (ofcode = 5 /\ ofcmd = Some (exec_Command name []) /\
   ofname = "/dev/null" /\ FileExecutable w name = true) \/
  (ofcode ∈ [1; 2; 3; 4; 6; 7; 8; 9; 10; 11] /\ PathOK w ofname = true /\
   exists prog, ofcmd = Some (exec_Command prog [ofname])).
Proof.
  destruct (HasSuffix name ".bash") eqn:Hbash.
  - rewrite (ReadableFilename_bash w name Hbash).
    destruct (FileExecutable w name); [|discriminate].
    intros [= <- <- <-]. right. left. repeat split.
  - rewrite (ReadableFilename_resolveReadable w name Hbash).
    unfold resolveReadable.
    destruct (first_match w name) as [c|] eqn:Hfind.
    + intros [= <- <- <-]. right. right.
      destruct (first_match_Some w name c Hfind) as [Hin Hok].
      destruct (candidate_shape name c Hin) as [Hcode [prog Hcmd]].
      split; [exact Hcode|]. split; [exact Hok|].
      exists prog. rewrite Hcmd. reflexivity.
    + intros [= <- <- <-]. left. repeat split.
Qed.

Lemma AnyPathOK_not_bash (w : World) (name : string) :
  HasSuffix name ".bash" = false ->
  AnyPathOK w name =
  Ok (existsb (fun c => PathOK w (c_path c))
              (exact_candidate name :: variant_candidates name)).
Proof.
  intros Hbash. unfold AnyPathOK.
  rewrite (ReadableFilename_resolveReadable w name Hbash).
  unfold resolveReadable.
  destruct (first_match w name) as [c|] eqn:Hfind.
  - destruct (first_match_Some w name c Hfind) as [Hin Hok].
    destruct (candidate_shape name c Hin) as [Hcode _].
    assert (Hex : existsb (fun c => PathOK w (c_path c))
              (exact_candidate name :: variant_candidates name) = true).
    { apply existsb_exists. exists c.
      split; [apply list_elem_of_In; exact Hin|exact Hok]. }
    rewrite Hex. simpl.
    rewrite bool_decide_eq_false_2 by (apply candidate_code_nonzero; exact Hcode).
    reflexivity.
  - rewrite (first_match_None w name Hfind). reflexivity.
Qed.

(** X4: on a name that does not end in [.bash], [AnyPathOK] tells whether
    one of the candidates exists: the name as given, the base name with
    [.xz], [.gz], [.bz2] or [.zip], or the bare base name.  On a name
    ending in [.bash] it never answers false: it is true for an executable
    script and panics otherwise. *)
Theorem AnyPathOK_candidates (w : World) (name : string) :
  if HasSuffix name ".bash" then
    AnyPathOK w name =
    if FileExecutable w name then Ok true
    else Panic ("bash file exists without execute permissions:" +:+ name)
  else
    AnyPathOK w name =
    Ok (existsb (fun c => PathOK w (c_path c))
                (exact_candidate name :: variant_candidates name)).
Proof.
  destruct (HasSuffix name ".bash") eqn:Hbash.
  - unfold AnyPathOK. rewrite (ReadableFilename_bash w name Hbash).
    destruct (FileExecutable w name); reflexivity.
  - apply AnyPathOK_not_bash. exact Hbash.
Qed.

(** X5: for a file that exists (and is executable, if it is a script)
    and whose name does not end in [.ZIP], the status code of
    [ReadableFilename] is the code of [CompressType], with 6 in the place
    of 0. *)
Theorem CompressType_is_exact_code (w : World) (name : string) :
  PathOK w name = true ->
  HasSuffix name ".ZIP" = false ->
  (HasSuffix name ".bash" = true -> FileExecutable w name = true) ->
  exists ofname ofcmd,
    ReadableFilename w name =
    Ok (ofname, ofcmd, if CompressType name =? 0 then 6 else CompressType name).
Proof.
  intros Hok HZIP Hexec. destruct (HasSuffix name ".bash") eqn:Hbash.
  - rewrite (ReadableFilename_bash w name Hbash), (Hexec eq_refl).
    destruct (bash_is_not_compressed name Hbash) as (Hxz & Hgz & Hbz2 & Hzip).
    unfold CompressType. rewrite Hxz, Hgz, Hbz2, Hzip, HZIP, Hbash.
    eexists. eexists. reflexivity.
  - unfold ReadableFilename, CompressType. rewrite Hok, HZIP, Hbash.
    destruct (HasSuffix name ".xz"), (HasSuffix name ".gz"),
      (HasSuffix name ".bz2"), (HasSuffix name ".zip"); simpl;
      eexists; eexists; reflexivity.
Qed.

(** X6: [ReadableFilenameCommand] gives the empty string when nothing
    matches, the program and the path of the first match separated by a
    space otherwise, and the name of an executable script. *)
Theorem ReadableFilenameCommand_text (w : World) (name : string) :
  if HasSuffix name ".bash" then
    FileExecutable w name = true -> ReadableFilenameCommand w name = Ok name
  else
    ReadableFilenameCommand w name =
    match first_match w name with
    | Some c => Ok (Path (c_cmd c) +:+ " " +:+ c_path c)
    | None => Ok ""
    end.
Proof.
  unfold ReadableFilenameCommand. destruct (HasSuffix name ".bash") eqn:Hbash.
  - intros Hexec. rewrite (ReadableFilename_bash w name Hbash), Hexec.
    reflexivity.
  - rewrite (ReadableFilename_resolveReadable w name Hbash).
    unfold resolveReadable.
    destruct (first_match w name) as [c|] eqn:Hfind; [|reflexivity].
    destruct (first_match_Some w name c Hfind) as [Hin _].
    destruct (candidate_shape name c Hin) as [_ [prog Hcmd]].
    simpl. rewrite Hcmd. reflexivity.
Qed.

(** ** After the removal of the variants *)

Lemma base_name_eq (name : string) :
  base_name name =
  if HasSuffix name ".xz" then drop_last 3 name
  else if HasSuffix name ".gz" then drop_last 3 name
  else if HasSuffix name ".bz2" then drop_last 4 name
  else if HasSuffix name ".zip" then drop_last 4 name
  else name.
Proof.
  unfold base_name, suffix_of. simpl.
  destruct (HasSuffix name ".xz"), (HasSuffix name ".gz"),
    (HasSuffix name ".bz2"), (HasSuffix name ".zip"); reflexivity.
Qed.

Lemma CompressionBasename_rec_S (fuel : nat) (s : string) :
  CompressionBasename_rec (S fuel) s =
  if HasSuffix s ".xz" then CompressionBasename_rec fuel (drop_last 3 s)
  else if HasSuffix s ".gz" then CompressionBasename_rec fuel (drop_last 3 s)
  else if HasSuffix s ".bz2" then CompressionBasename_rec fuel (drop_last 4 s)
  else if HasSuffix s ".zip" then CompressionBasename_rec fuel (drop_last 4 s)
  else if HasSuffix s ".ZIP" then CompressionBasename_rec fuel (drop_last 4 s)
  else s.
Proof. reflexivity. Qed.

(** With at most one compression suffix on the name, the base name of the
    resolution is the one of [CompressionBasename]. *)
Lemma CompressionBasename_base_name (name : string) :
  HasSuffix name ".ZIP" = false ->
  no_compression_suffix (base_name name) = true ->
  CompressionBasename name = base_name name.
Proof.
  intros HZIP Hbase. rewrite base_name_eq in *.
  unfold CompressionBasename.
  assert (Hstep : forall suf, HasSuffix name suf = true ->
            (0 < String.length suf)%nat ->
            exists n, String.length name = S n).
  { intros suf Hsuf Hpos. pose proof (HasSuffix_length name suf Hsuf).
    destruct (String.length name); [lia|]. eexists. reflexivity. }
  destruct (HasSuffix name ".xz") eqn:Hxz.
  { destruct (Hstep _ Hxz ltac:(simpl; lia)) as [n Hn].
    rewrite Hn, CompressionBasename_rec_S, Hxz.
    apply CompressionBasename_rec_fixed. exact Hbase. }
  destruct (HasSuffix name ".gz") eqn:Hgz.
  { destruct (Hstep _ Hgz ltac:(simpl; lia)) as [n Hn].
    rewrite Hn, CompressionBasename_rec_S, Hxz, Hgz.
    apply CompressionBasename_rec_fixed. exact Hbase. }
  destruct (HasSuffix name ".bz2") eqn:Hbz2.
  { destruct (Hstep _ Hbz2 ltac:(simpl; lia)) as [n Hn].
    rewrite Hn, CompressionBasename_rec_S, Hxz, Hgz, Hbz2.
    apply CompressionBasename_rec_fixed. exact Hbase. }
  destruct (HasSuffix name ".zip") eqn:Hzip.
  { destruct (Hstep _ Hzip ltac:(simpl; lia)) as [n Hn].
    rewrite Hn, CompressionBasename_rec_S, Hxz, Hgz, Hbz2, Hzip.
    apply CompressionBasename_rec_fixed. exact Hbase. }
  apply CompressionBasename_rec_fixed. exact Hbase.
Qed.

(** The candidates of the resolution are among the paths removed. *)
Lemma candidates_are_variant_paths (name : string) (c : Candidate) :
  HasSuffix name ".ZIP" = false ->
  no_compression_suffix (base_name name) = true ->
  c ∈ exact_candidate name :: variant_candidates name ->
  c_path c ∈ variant_paths name false.
Proof.
  intros HZIP Hbase. revert c. apply Forall_forall.
  unfold variant_paths. rewrite (CompressionBasename_base_name name HZIP Hbase).
  clear Hbase HZIP.
  assert (Hexact : c_path (exact_candidate name) ∈
            [base_name name] ++
            ((fun ext => base_name name +:+ ext) <$>
               [".xz"; ".gz"; ".bz2"; ".zip"; ".ZIP"])).
  { assert (Hpath : c_path (exact_candidate name) = name).
    { unfold exact_candidate. destruct (suffix_of name); reflexivity. }
    rewrite Hpath, base_name_eq. simpl.
    destruct (HasSuffix name ".xz") eqn:Hxz.
    { rewrite (HasSuffix_drop_last name ".xz" Hxz) at 1.
      right. left. }
    destruct (HasSuffix name ".gz") eqn:Hgz.
    { rewrite (HasSuffix_drop_last name ".gz" Hgz) at 1.
      right. right. left. }
    destruct (HasSuffix name ".bz2") eqn:Hbz2.
    { rewrite (HasSuffix_drop_last name ".bz2" Hbz2) at 1.
      right. right. right. left. }
    destruct (HasSuffix name ".zip") eqn:Hzip.
    { rewrite (HasSuffix_drop_last name ".zip" Hzip) at 1.
      right. right. right. right. left. }
    left. }
  apply Forall_cons_2; [exact Hexact|].
  unfold variant_candidates. simpl.
  repeat (apply Forall_cons_2;
          [apply list_elem_of_In; simpl; auto 10|]).
  apply Forall_nil_2.
Qed.

(** X7: after [RemoveCompressionVariants] has removed the variants of a
    name with at most one compression suffix (and that ends neither in
    [.ZIP] nor in [.bash]), the name resolves to nothing: [AnyPathOK] is
    false. *)
Theorem RemoveCompressionVariants_then_AnyPathOK (w w' : World) (name : string) :
  HasSuffix name ".bash" = false ->
  HasSuffix name ".ZIP" = false ->
  no_compression_suffix (base_name name) = true ->
  RemoveCompressionVariants w name false = Ok w' ->
  AnyPathOK w' name = Ok false.
Proof.
  intros Hbash HZIP Hbase Hrm.
  rewrite (AnyPathOK_not_bash w' name Hbash). f_equal.
  destruct (existsb _ _) eqn:Hex; [|reflexivity].
  apply existsb_exists in Hex as (c & Hin & Hok).
  apply list_elem_of_In in Hin.
  pose proof (candidates_are_variant_paths name c HZIP Hbase Hin) as Hpath.
  unfold RemoveCompressionVariants in Hrm.
  destruct (RemoveCompressionVariants_loop_files _ _ _ _ _ Hrm) as [_ Hlook].
  specialize (Hlook (c_path c)).
  rewrite bool_decide_eq_true_2 in Hlook
    by (apply variant_paths_loop; exact Hpath).
  unfold PathOK, os_Stat in Hok. rewrite Hlook in Hok. discriminate.
Qed.

(** ** OpenAnyErr and the count of the lines that are no comments *)

Lemma wrap_int64_add (a b : Z) :
  wrap_int64 (wrap_int64 a + b) = wrap_int64 (a + b).
Proof.
  unfold wrap_int64. f_equal.
  replace ((a + 2 ^ 63) mod 2 ^ 64 - 2 ^ 63 + b + 2 ^ 63)
    with ((a + 2 ^ 63) mod 2 ^ 64 + b) by lia.
  rewrite Z.add_mod_idemp_l by lia. f_equal. lia.
Qed.

Lemma records_app (a b : list byte) :
  newline_terminated_records (a ++ b) =
  newline_terminated_records a + newline_terminated_records b.
Proof.
  induction a as [|x a IH]; simpl; [reflexivity|]. rewrite IH. lia.
Qed.

Lemma records_from_line (cur pre rest : list byte) :
  IndexByte pre newline = None ->
  records_from cur (pre ++ newline :: rest) = (cur ++ pre) :: records rest.
Proof.
  revert cur. induction pre as [|x pre IH]; intros cur Hnone; simpl in *.
  - rewrite app_nil_r. reflexivity.
  - destruct (Byte.eqb x newline); [discriminate|].
    destruct (IndexByte pre newline); [discriminate|].
    rewrite IH by reflexivity. rewrite <- app_assoc. reflexivity.
Qed.

Section FileAccessMoreProperties.
Variable gzip_NewReader : list byte -> option (list byte).
Variable bzip2_NewReader : list byte -> list byte.

(** What [OpenAnyErr] returns: a reader of a stream and no error, or no
    reader and an error; and [OpenAny] returns the same reader. *)
Lemma OpenAnyErr_cases (w : World) (name : string) (r : option Reader)
    (e : option string) :
  OpenAnyErr gzip_NewReader bzip2_NewReader w name = Ok (r, e) ->
  match r, e with
  | Some b, None =>
      bufsize b = 81920 /\ (exists data, rd b = Stream data) /\
      OpenAny gzip_NewReader bzip2_NewReader w name = Ok (Some b)
  | None, Some _ => True
  | _, _ => False
  end.
Proof.
  unfold OpenAnyErr, OpenAny.
  destruct (ReadableFilename w name) as [[[ofname ofcmd] ofcode]|msg];
    simpl; [|discriminate].
  destruct ofcmd as [cmd|]; [|intros [= <- <-]; exact I].
  unfold gzip_source, Cmd_StdoutPipe, Cmd_Start.
  destruct (bool_decide (ofcode ∈ [1; 7; 4; 10; 5])).
  { destruct (pipe_fails w); [intros [= <- <-]; exact I|].
    destruct (start w cmd); intros [= <- <-]; simpl; [|exact I].
    split; [reflexivity|split; [eexists; reflexivity|reflexivity]]. }
  destruct (bool_decide (ofcode ∈ [2; 8])).
  { destruct (os_Open w ofname) as [fi|err]; [|intros [= <- <-]; exact I].
    destruct (gzip_NewReader fi); intros [= <- <-]; simpl; [|exact I].
    split; [reflexivity|split; [eexists; reflexivity|reflexivity]]. }
  destruct (bool_decide (ofcode ∈ [3; 9])).
  { destruct (os_Open w ofname) as [fi|err]; intros [= <- <-]; simpl; [|exact I].
    split; [reflexivity|split; [eexists; reflexivity|reflexivity]]. }
  destruct (bool_decide (ofcode ∈ [6; 11])).
  { destruct (os_Open w ofname) as [fi|err]; intros [= <- <-]; simpl; [|exact I].
    split; [reflexivity|split; [eexists; reflexivity|reflexivity]]. }
  intros [= <- <-]. exact I.
Qed.

(** X8: [OpenAnyErr] returns either a reader and no error, or an error and
    no reader, never both and never neither; its reader is never the nil
    gzip reader, and [OpenAny] on the same name returns the same reader. *)
Theorem OpenAnyErr_reader_or_error (w : World) (name : string)
    (r : option Reader) (e : option string) :
  OpenAnyErr gzip_NewReader bzip2_NewReader w name = Ok (r, e) ->
  (is_Some r <-> e = None) /\
  (forall b, r = Some b ->
     (exists data, rd b = Stream data) /\
     OpenAny gzip_NewReader bzip2_NewReader w name = Ok (Some b)).
Proof.
  intros Hopen. pose proof (OpenAnyErr_cases w name r e Hopen) as Hcases.
  destruct r as [b|], e as [err|]; try contradiction.
  - destruct Hcases as (_ & Hdata & Hany). split.
    + split; [reflexivity|intros _; eexists; reflexivity].
    + intros b' [= <-]. split; assumption.
  - split.
    + split; [intros [? [=]]|discriminate].
    + intros b [=].
Qed.

(** The loop on a stream, when no line counts as a comment. *)
Lemma GetFileLineCount_loop_no_comment (comments : list string) (size : Z)
    (fuel : nat) :
  0 < size ->
  (forall line, IsCommentLine line comments = false) ->
  forall (data : list byte) (count : Z),
    (length data < fuel)%nat ->
    GetFileLineCount_loop fuel comments
      {| rd := Stream data; bufsize := size |} (wrap_int64 count) =
    Some (Ok (wrap_int64 (count + newline_terminated_records data))).
Proof.
  intros Hsize Hnocomment.
  induction fuel as [|fuel IH]; intros data count Hfuel; [lia|].
  simpl. unfold Reader_ReadSlice, ReadSlice. simpl.
  destruct (IndexByte (take (Z.to_nat size) data) newline) as [i|] eqn:Hidx.
  - destruct (IndexByte_take _ _ _ _ Hidx)
      as (pre & rest & -> & Hlen & Hnone & Hlt).
    subst i.
    assert (Hdrop : drop (S (length pre)) (pre ++ newline :: rest) = rest).
    { rewrite drop_app_ge by lia.
      replace (S (length pre) - length pre)%nat with 1%nat by lia.
      reflexivity. }
    assert (Htake :
      length (take (S (length pre)) (pre ++ newline :: rest)) <> O).
    { rewrite length_take, length_app. cbn [length]. lia. }
    rewrite Hdrop, (bool_decide_eq_false_2 _ Htake), Hnocomment.
    rewrite wrap_int64_succ, IH by (rewrite length_app in Hfuel; simpl in Hfuel; lia).
    rewrite records_app. simpl. rewrite ?byte_eqb_refl.
    rewrite (no_newline_records pre Hnone). do 3 f_equal. lia.
  - destruct (decide (Z.to_nat size <= length data)%nat) as [Hfull|Hend].
    + rewrite <- (take_drop (Z.to_nat size) data) at 2.
      rewrite records_app, (no_newline_records _ Hidx).
      apply IH. rewrite length_drop. lia.
    + rewrite take_ge in Hidx by lia.
      rewrite (no_newline_records _ Hidx), Z.add_0_r. reflexivity.
Qed.

(** The loop on a stream of short lines. *)
Lemma GetFileLineCount_loop_short_lines (comments : list string) (size : Z)
    (fuel : nat) :
  forall (data : list byte) (count : Z),
    short_lines size data ->
    (length data < fuel)%nat ->
    GetFileLineCount_loop fuel comments
      {| rd := Stream data; bufsize := size |} (wrap_int64 count) =
    Some (Ok (wrap_int64 (count + count_records comments data))).
Proof.
  induction fuel as [|fuel IH]; intros data count Hshort Hfuel; [lia|].
  pose proof (short_lines_size size data Hshort) as Hsize.
  simpl. unfold Reader_ReadSlice, ReadSlice. simpl.
  destruct (IndexByte (take (Z.to_nat size) data) newline) as [i|] eqn:Hidx.
  - destruct (IndexByte_take _ _ _ _ Hidx)
      as (pre & rest & -> & Hlen & Hnone & Hlt).
    subst i.
    assert (Hdrop : drop (S (length pre)) (pre ++ newline :: rest) = rest).
    { rewrite drop_app_ge by lia.
      replace (S (length pre) - length pre)%nat with 1%nat by lia.
      reflexivity. }
    assert (Hline : take (S (length pre)) (pre ++ newline :: rest) =
                    pre ++ [newline]).
    { rewrite take_app_ge by lia.
      replace (S (length pre) - length pre)%nat with 1%nat by lia.
      reflexivity. }
    rewrite Hdrop, Hline.
    rewrite bool_decide_eq_false_2 by (rewrite length_app; simpl; lia).
    replace (take (length (pre ++ [newline]) - 1) (pre ++ [newline])) with pre
      by (rewrite length_app; simpl;
          replace (length pre + 1 - 1)%nat with (length pre) by lia;
          rewrite take_app_length; reflexivity).
    pose proof (short_lines_drop_line size pre rest Hshort) as Hshort'.
    assert (Hlen' : (length rest < fuel)%nat)
      by (rewrite length_app in Hfuel; simpl in Hfuel; lia).
    unfold count_records at 1. unfold records.
    rewrite (records_from_line [] pre rest Hnone). simpl.
    destruct (IsCommentLine pre comments) eqn:Hc.
    + rewrite filter_cons_False by (rewrite Hc; discriminate).
      apply IH; assumption.
    + rewrite filter_cons_True by exact Hc.
      rewrite wrap_int64_succ, IH by assumption.
      unfold count_records. simpl length. do 3 f_equal. lia.
  - destruct (decide (Z.to_nat size <= length data)%nat) as [Hfull|Hend].
    + exfalso. destruct (Hshort O) as (i & Hi & Hlook); [simpl; lia|].
      simpl in Hlook. apply (IndexByte_None _ _ i Hidx).
      rewrite lookup_take_lt by lia. exact Hlook.
    + rewrite take_ge in Hidx by lia.
      assert (Hrec : records data = []).
      { unfold records. generalize (@nil byte) as cur. clear -Hidx.
        induction data as [|x data IH]; intros cur; simpl in *; [reflexivity|].
        destruct (Byte.eqb x newline); [discriminate|].
        destruct (IndexByte data newline); [discriminate|].
        apply IH. reflexivity. }
      unfold count_records. rewrite Hrec. simpl. rewrite Z.add_0_r. reflexivity.
Qed.

Lemma IsCommentLine_no_tag (line : list byte) (tags : list string) :
  (forall tag, tag ∈ tags -> tag <> "Whitespace" /\ tag <> "WhitespaceHash") ->
  IsCommentLine line tags = false.
Proof.
  induction tags as [|tag tags IH]; intros Htags; simpl; [reflexivity|].
  destruct (Htags tag ltac:(left)) as [Hw Hh].
  apply String.eqb_neq in Hw, Hh. rewrite Hw, Hh.
  apply IH. intros t Ht. apply Htags. right. exact Ht.
Qed.

(** X9: with no comment tag among the comma-separated [_comments],
    [GetFileLineCount] returns, as an int64 and with no error, the number
    of records of the stream that end in a newline, whatever the length of
    the lines: an unterminated tail is not counted. *)
Theorem GetFileLineCount_counts_newlines (w : World) (name comments : string)
    (r : Reader) (data : list byte) (fuel : nat) :
  OpenAnyErr gzip_NewReader bzip2_NewReader w name = Ok (Some r, None) ->
  rd r = Stream data ->
  (forall tag, tag ∈ strings_Split comments "," ->
     tag <> "Whitespace" /\ tag <> "WhitespaceHash") ->
  (length data < fuel)%nat ->
  GetFileLineCount gzip_NewReader bzip2_NewReader fuel w name comments =
  Some (Ok (wrap_int64 (newline_terminated_records data), None)).
Proof.
  intros Hopen Hrd Htags Hfuel.
  destruct (OpenAnyErr_cases w name _ _ Hopen) as (Hsize & _ & _).
  unfold GetFileLineCount. rewrite Hopen.
  destruct r as [src size]. simpl in *. subst src size.
  change 0 with (wrap_int64 0) at 1.
  rewrite (GetFileLineCount_loop_no_comment _ 81920 fuel ltac:(lia)
             (fun line => IsCommentLine_no_tag line _ Htags) data 0 Hfuel).
  reflexivity.
Qed.

(** X10: on a stream whose lines fit in the buffer, [GetFileLineCount]
    returns the number of the newline-terminated records that are no
    comment lines under the tags of [_comments]. *)
Theorem GetFileLineCount_skips_comments (w : World) (name comments : string)
    (r : Reader) (data : list byte) (fuel : nat) :
  OpenAnyErr gzip_NewReader bzip2_NewReader w name = Ok (Some r, None) ->
  rd r = Stream data ->
  short_lines (bufsize r) data ->
  (length data < fuel)%nat ->
  GetFileLineCount gzip_NewReader bzip2_NewReader fuel w name comments =
  Some (Ok (wrap_int64 (count_records (strings_Split comments ",") data), None)).
Proof.
  intros Hopen Hrd Hshort Hfuel.
  unfold GetFileLineCount. rewrite Hopen.
  destruct r as [src size]. simpl in *. subst src.
  change 0 with (wrap_int64 0) at 1.
  rewrite (GetFileLineCount_loop_short_lines _ size fuel data 0 Hshort Hfuel).
  reflexivity.
Qed.

(** X11: on a name that resolves to nothing, [GetFileLineCount] returns
    the count 0 with the error of [OpenAnyErr] and does not panic, where
    [GetNumLines] panics on the nil reader. *)
Theorem GetFileLineCount_not_found (w : World) (name comments ofname : string)
    (fuel : nat) :
  ReadableFilename w name = Ok (ofname, None, 0) ->
  GetFileLineCount gzip_NewReader bzip2_NewReader fuel w name comments =
    Some (Ok (0, Some "os.exec.Command returned nil pointer")) /\
  GetNumLines gzip_NewReader bzip2_NewReader (S fuel) w name =
    Some (Panic nil_dereference).
Proof.
  intros Hres. split.
  - unfold GetFileLineCount, OpenAnyErr. rewrite Hres. reflexivity.
  - unfold GetNumLines, OpenAny. rewrite Hres. reflexivity.
Qed.

(** X12: on a stream whose lines fit in the buffer, the two counts differ by
    the unterminated tail: [GetNumLines] is the count of
    [GetFileLineCount] without comment tags, plus one when the stream does
    not end in a newline. *)
Theorem GetNumLines_vs_GetFileLineCount (w : World) (name : string)
    (r : Reader) (data : list byte) (fuel : nat) :
  OpenAnyErr gzip_NewReader bzip2_NewReader w name = Ok (Some r, None) ->
  rd r = Stream data ->
  short_lines (bufsize r) data ->
  (length data < fuel)%nat ->
  exists n,
    GetFileLineCount gzip_NewReader bzip2_NewReader fuel w name "" =
      Some (Ok (n, None)) /\
    GetNumLines gzip_NewReader bzip2_NewReader fuel w name =
      Some (Ok (wrap_int64 (n + if unterminated_tail data then 1 else 0))).
Proof.
  intros Hopen Hrd Hshort Hfuel.
  destruct (OpenAnyErr_cases w name _ _ Hopen) as (Hsize & _ & Hany).
  exists (wrap_int64 (newline_terminated_records data)). split.
  - unfold GetFileLineCount. rewrite Hopen.
    destruct r as [src size]. simpl in *. subst src size.
    change 0 with (wrap_int64 0) at 1.
    rewrite (GetFileLineCount_loop_no_comment _ 81920 fuel ltac:(lia)
               (fun line => IsCommentLine_no_tag line (strings_Split "" ",")
                  ltac:(intros tag Htag; apply list_elem_of_In in Htag;
                        simpl in Htag; destruct Htag as [<-|[]];
                        split; discriminate))
               data 0 Hfuel).
    reflexivity.
  - unfold GetNumLines. rewrite Hany.
    destruct r as [src size]. simpl in *. subst src.
    change 0 with (wrap_int64 0) at 1.
    rewrite (GetNumLines_loop_counts size fuel data 0 Hshort Hfuel).
    rewrite wrap_int64_add. reflexivity.
Qed.

End FileAccessMoreProperties.

(** ** Unique keys *)

Lemma foldl_snoc_app {A} (xs acc : list A) :
  foldl (fun keys kk => keys ++ [kk]) acc xs = acc ++ xs.
Proof.
  revert acc. induction xs as [|x xs IH]; intros acc; simpl.
  - rewrite app_nil_r. reflexivity.
  - rewrite IH, <- app_assoc. reflexivity.
Qed.

Lemma mark_keys_dom (ss : list string) (mp : gmap string bool) (k : string) :
  k ∈ dom (foldl (fun mp str => <[str := true]> mp) mp ss) <->
  k ∈ dom mp \/ k ∈ ss.
Proof.
  revert mp. induction ss as [|s ss IH]; intros mp; simpl.
  - rewrite elem_of_nil. tauto.
  - rewrite IH, dom_insert, elem_of_union, elem_of_singleton, elem_of_cons.
    tauto.
Qed.

Lemma mark_all_dom_from (strs : list (list string)) (mp : gmap string bool)
    (k : string) :
  k ∈ dom (foldl (fun mp ss => foldl (fun mp str => <[str := true]> mp) mp ss)
                 mp strs) <->
  k ∈ dom mp \/ exists ss, ss ∈ strs /\ k ∈ ss.
Proof.
  revert mp. induction strs as [|ss strs IH]; intros mp; simpl.
  - split; [auto|]. intros [H|(ss & Hss & _)]; [exact H|].
    apply elem_of_nil in Hss. contradiction.
  - rewrite IH, mark_keys_dom. split.
    + intros [[H|H]|(ss' & Hss' & Hk)]; [left; exact H| |].
      * right. exists ss. split; [left|exact H].
      * right. exists ss'. split; [right; exact Hss'|exact Hk].
    + intros [H|(ss' & Hss' & Hk)]; [left; left; exact H|].
      apply elem_of_cons in Hss' as [->|Hss'].
      * left. right. exact Hk.
      * right. exists ss'. split; assumption.
Qed.

Lemma mark_all_dom (strs : list (list string)) (k : string) :
  k ∈ dom (mark_all strs) <-> exists ss, ss ∈ strs /\ k ∈ ss.
Proof.
  unfold mark_all. rewrite mark_all_dom_from, dom_empty, elem_of_empty. tauto.
Qed.

Lemma elem_of_concat {A} (k : A) (strs : list (list A)) :
  k ∈ concat strs <-> exists ss, ss ∈ strs /\ k ∈ ss.
Proof.
  rewrite list_elem_of_In, in_concat. split.
  - intros (ss & Hss & Hk). exists ss. rewrite !list_elem_of_In. tauto.
  - intros (ss & Hss & Hk). exists ss. rewrite <- !list_elem_of_In. tauto.
Qed.

Section UniqueKeysProperties.
Variable sort_Sort : forall A, (A -> A -> bool) -> list A -> list A.
Variable range : forall K (EqK : EqDecision K) (CK : Countable K) V,
  gmap K V -> list (K * V).
Hypothesis Hperm : sort_permutes sort_Sort.
Hypothesis Hrange : range_visits_all range.

Lemma append_keys_perm (m : gmap string bool) :
  append_keys range m [] ≡ₚ keys m.
Proof.
  unfold append_keys. rewrite foldl_snoc_app. simpl.
  exact (range_keys range Hrange m).
Qed.

Lemma keys_NoDup {V} (m : gmap string V) : NoDup (keys m).
Proof. apply NoDup_fst_map_to_list. Qed.

(** X13: [KeysBoolMap] returns the keys of the map, each once, in the order
    of the iteration; [UniqueKeys] returns, each once, the strings that
    occur in one of its arguments. *)
Theorem UniqueKeys_no_duplicates (m : gmap string bool)
    (strs : list (list string)) :
  (KeysBoolMap range m ≡ₚ keys m /\ NoDup (KeysBoolMap range m)) /\
  NoDup (UniqueKeys range strs) /\
  (forall k, k ∈ UniqueKeys range strs <-> exists ss, ss ∈ strs /\ k ∈ ss).
Proof.
  unfold KeysBoolMap, UniqueKeys. split; [split|split].
  - apply append_keys_perm.
  - rewrite append_keys_perm. apply keys_NoDup.
  - rewrite append_keys_perm. apply keys_NoDup.
  - intros k. rewrite append_keys_perm, keys_dom. apply mark_all_dom.
Qed.

Hypothesis Horders : sort_orders sort_Sort.

Lemma SortedUniqueKeys_sorted_keys (strs : list (list string)) :
  SortedUniqueKeys sort_Sort range strs ≡ₚ keys (mark_all strs) /\
  Sorted String.le (SortedUniqueKeys sort_Sort range strs).
Proof.
  unfold SortedUniqueKeys. split.
  - rewrite (Hperm _ _ _). apply append_keys_perm.
  - apply sort_Strings_Sorted; assumption.
Qed.

(** X14: [SortedUniqueKeys] returns, in ascending order and each once, the
    strings that occur in one of its arguments. *)
Theorem SortedUniqueKeys_sorted_set (strs : list (list string)) :
  Sorted String.le (SortedUniqueKeys sort_Sort range strs) /\
  NoDup (SortedUniqueKeys sort_Sort range strs) /\
  (forall k, k ∈ SortedUniqueKeys sort_Sort range strs <->
             exists ss, ss ∈ strs /\ k ∈ ss).
Proof.
  destruct (SortedUniqueKeys_sorted_keys strs) as [Hp Hs].
  split; [exact Hs|]. split.
  - rewrite Hp. apply keys_NoDup.
  - intros k. rewrite Hp, keys_dom. apply mark_all_dom.
Qed.

(** Two lists of strings with the same elements give the same sorted unique
    keys. *)
Lemma SortedUniqueKeys_ext (xs ys : list (list string)) :
  (forall k, (exists ss, ss ∈ xs /\ k ∈ ss) <-> (exists ss, ss ∈ ys /\ k ∈ ss)) ->
  SortedUniqueKeys sort_Sort range xs = SortedUniqueKeys sort_Sort range ys.
Proof.
  intros Hsame.
  destruct (SortedUniqueKeys_sorted_keys xs) as [Hpx Hsx].
  destruct (SortedUniqueKeys_sorted_keys ys) as [Hpy Hsy].
  apply (Sorted_unique String.le); [exact Hsx|exact Hsy|].
  rewrite Hpx, Hpy. apply NoDup_Permutation; try apply keys_NoDup.
  intros k. rewrite !keys_dom, !mark_all_dom. apply Hsame.
Qed.

(** X15: [SortedUniqueKeys] depends on the set of the strings only: sorting
    its own output again, or the concatenation of the arguments, changes
    nothing; and on the keys of a bool map it is [SortedKeys_String2Bool]. *)
Theorem SortedUniqueKeys_idempotent (strs : list (list string))
    (m : gmap string bool) :
  SortedUniqueKeys sort_Sort range [SortedUniqueKeys sort_Sort range strs] =
    SortedUniqueKeys sort_Sort range strs /\
  SortedUniqueKeys sort_Sort range [concat strs] =
    SortedUniqueKeys sort_Sort range strs /\
  SortedKeys_String2Bool sort_Sort range m =
    Ok (SortedUniqueKeys sort_Sort range [KeysBoolMap range m]).
Proof.
  split; [|split].
  - destruct (SortedUniqueKeys_sorted_keys strs) as [Hp Hs].
    destruct (SortedUniqueKeys_sorted_keys
                [SortedUniqueKeys sort_Sort range strs]) as [Hp' Hs'].
    apply (Sorted_unique String.le); [exact Hs'|exact Hs|].
    rewrite Hp'. apply NoDup_Permutation; [apply keys_NoDup| |].
    + rewrite Hp. apply keys_NoDup.
    + intros k. rewrite keys_dom, mark_all_dom. split.
      * intros (ss & Hss & Hk). apply list_elem_of_singleton in Hss. subst ss.
        exact Hk.
      * intros Hk. eexists. split; [apply list_elem_of_singleton; reflexivity|exact Hk].
  - apply SortedUniqueKeys_ext. intros k. split.
    + intros (ss & Hss & Hk). apply list_elem_of_singleton in Hss. subst ss.
      apply elem_of_concat in Hk. exact Hk.
    + intros Hk. exists (concat strs). split; [apply list_elem_of_singleton; reflexivity|].
      apply elem_of_concat. exact Hk.
  - unfold SortedKeys_String2Bool.
    rewrite (sorted_string_keys_eq sort_Sort range Hrange m). f_equal.
    destruct (SortedUniqueKeys_sorted_keys [KeysBoolMap range m]) as [Hp' Hs'].
    apply (Sorted_unique String.le); [|exact Hs'|].
    + apply sort_Strings_Sorted; assumption.
    + rewrite Hp', (Hperm _ _ _), (range_keys range Hrange m).
      apply NoDup_Permutation; try apply keys_NoDup.
      intros k. rewrite (keys_dom (mark_all _)), mark_all_dom. split.
      * intros Hk. exists (KeysBoolMap range m).
        split; [apply list_elem_of_singleton; reflexivity|].
        unfold KeysBoolMap. rewrite append_keys_perm. exact Hk.
      * intros (ss & Hss & Hk). apply list_elem_of_singleton in Hss. subst ss.
        unfold KeysBoolMap in Hk. rewrite append_keys_perm in Hk. exact Hk.
Qed.

End UniqueKeysProperties.

(** ** Sorting by value without ties *)

Lemma value_le_trans (m : gmap string float64) :
  Transitive (value_le m).
Proof.
  intros k1 k2 k3 (v1 & v2 & H1 & H2 & H12) (v2' & v3 & H2' & H3 & H23).
  rewrite H2 in H2'. inversion H2'; subst v2'.
  exists v1, v3. repeat split; try assumption.
  exact (f64_le_trans v1 v2 v3 H12 H23).
Qed.

Lemma keys_lookup (m : gmap string float64) (out : list string) (k : string) :
  out ≡ₚ keys m -> k ∈ out -> is_Some (m !! k).
Proof.
  intros Hp Hk. rewrite Hp in Hk. apply keys_dom, elem_of_dom in Hk. exact Hk.
Qed.

Lemma adjacent_values_Sorted (R : float64 -> float64 -> bool)
    (m : gmap string float64) (out : list string) :
  (forall k, k ∈ out -> is_Some (m !! k)) ->
  adjacent_values R m out ->
  Sorted (fun k1 k2 => exists v1 v2,
            m !! k1 = Some v1 /\ m !! k2 = Some v2 /\ R v1 v2 = true) out.
Proof.
  induction out as [|a out IH]; intros Hval Hadj; constructor.
  - apply IH.
    + intros k Hk. apply Hval. right. exact Hk.
    + intros i k1 k2 v1 v2 H1 H2. exact (Hadj (S i) k1 k2 v1 v2 H1 H2).
  - destruct out as [|b out]; constructor.
    destruct (Hval a ltac:(left)) as [va Ha].
    destruct (Hval b ltac:(right; left)) as [vb Hb].
    exists va, vb. repeat split; try assumption.
    exact (Hadj O a b va vb eq_refl eq_refl Ha Hb).
Qed.

(** Without ties there is one ascending order of the keys. *)
Lemma ascending_unique (m : gmap string float64) (out1 out2 : list string) :
  no_ties m -> out1 ≡ₚ keys m -> out2 ≡ₚ keys m ->
  Sorted (value_le m) out1 -> Sorted (value_le m) out2 -> out1 = out2.
Proof.
  intros Hties Hp1 Hp2 Hs1 Hs2.
  apply (@Sorted_unique_strong _ (value_le m) (value_le_trans m));
    try assumption.
  - intros k1 k2 _ _ (v1 & v2 & H1 & H2 & H12) (v2' & v1' & H2' & H1' & H21).
    rewrite H1 in H1'. inversion H1'; subst v1'.
    rewrite H2 in H2'. inversion H2'; subst v2'.
    exact (Hties k1 k2 v1 v2 H1 H2 H12 H21).
  - rewrite Hp1, Hp2. reflexivity.
Qed.

Lemma ordered_values_ascending (m : gmap string float64) (out : list string) :
  out ≡ₚ keys m -> adjacent_values f64_le m out -> Sorted (value_le m) out.
Proof.
  intros Hp Hadj. apply (adjacent_values_Sorted f64_le); [|exact Hadj].
  intros k Hk. exact (keys_lookup m out k Hp Hk).
Qed.

Lemma ordered_values_descending (m : gmap string float64) (out : list string) :
  out ≡ₚ keys m -> adjacent_values f64_ge m out ->
  Sorted (value_le m) (reverse out).
Proof.
  intros Hp Hadj.
  assert (Hs : Sorted (flip (value_le m)) out).
  { eapply Sorted_weaken; [|apply (adjacent_values_Sorted f64_ge m out);
                             [intros k Hk; exact (keys_lookup m out k Hp Hk)
                             |exact Hadj]].
    intros k1 k2 (v1 & v2 & H1 & H2 & H12). exists v2, v1.
    repeat split; assumption. }
  apply Sorted_reverse in Hs. exact Hs.
Qed.

Section SortByValueWithoutTies.
Variable sort_Sort : forall A, (A -> A -> bool) -> list A -> list A.
Variable range : forall K (EqK : EqDecision K) (CK : Countable K) V,
  gmap K V -> list (K * V).
Hypothesis Hperm : sort_permutes sort_Sort.
Hypothesis Hrange : range_visits_all range.
Hypothesis Horders : sort_orders sort_Sort.

(** The ascending and the descending outputs, as sorted permutations. *)
Lemma by_val_ascending_sorted (m : gmap string float64) :
  no_nan m ->
  exists out,
    SortedKeysByVal_String2Float64_Ascending sort_Sort range m = Ok out /\
    out ≡ₚ keys m /\ Sorted (value_le m) out.
Proof.
  intros Hnan.
  destruct (sorted_keys_by_val_projection sort_Sort range Hperm Hrange
              Less_Ascending m) as (out & Hout & Hp & _).
  destruct (sorted_keys_by_val_ordered sort_Sort range Hperm Hrange Horders
              Less_Ascending f64_le m Hnan) as (out' & Hout' & Hadj).
  - intros a b Ha Hb. apply f64_lt_negb_le; assumption.
  - apply f64_le_total.
  - apply f64_le_trans.
  - unfold SortedKeysByVal_String2Float64_Ascending.
    rewrite Hout in Hout'. inversion Hout'; subst out'.
    exists out. split; [exact Hout|]. split; [exact Hp|].
    apply ordered_values_ascending; assumption.
Qed.

Lemma by_val_descending_sorted (m : gmap string float64) :
  no_nan m ->
  exists out,
    SortedKeysByVal_String2Float64_Descending sort_Sort range m = Ok out /\
    out ≡ₚ keys m /\ Sorted (value_le m) (reverse out).
Proof.
  intros Hnan.
  destruct (sorted_keys_by_val_projection sort_Sort range Hperm Hrange
              Less_Descending m) as (out & Hout & Hp & _).
  destruct (sorted_keys_by_val_ordered sort_Sort range Hperm Hrange Horders
              Less_Descending f64_ge m Hnan) as (out' & Hout' & Hadj).
  - intros a b Ha Hb. apply (f64_lt_negb_le (val_ b) (val_ a)); assumption.
  - intros x y Hx Hy. unfold f64_ge. destruct (f64_le_total x y Hx Hy); auto.
  - intros x y z Hxy Hyz. exact (f64_le_trans z y x Hyz Hxy).
  - unfold SortedKeysByVal_String2Float64_Descending.
    rewrite Hout in Hout'. inversion Hout'; subst out'.
    exists out. split; [exact Hout|]. split; [exact Hp|].
    apply ordered_values_descending; assumption.
Qed.

(** X16: for a mapping without NaN and without two values that compare
    equal, the descending output is the ascending output reversed. *)
Theorem descending_is_reversed_ascending (m : gmap string float64) :
  no_nan m -> no_ties m ->
  exists out,
    SortedKeysByVal_String2Float64_Ascending sort_Sort range m = Ok out /\
    SortedKeysByVal_String2Float64_Descending sort_Sort range m =
      Ok (reverse out).
Proof.
  intros Hnan Hties.
  destruct (by_val_ascending_sorted m Hnan) as (asc & Hasc & Hpa & Hsa).
  destruct (by_val_descending_sorted m Hnan) as (desc & Hdesc & Hpd & Hsd).
  exists asc. split; [exact Hasc|]. rewrite Hdesc. f_equal.
  rewrite <- (reverse_involutive desc). f_equal.
  apply (ascending_unique m); try assumption.
  rewrite reverse_Permutation. exact Hpd.
Qed.

End SortByValueWithoutTies.

Lemma insertion_sort_reversed_permutes : sort_permutes insertion_sort_reversed.
Proof.
  intros A less l. unfold insertion_sort_reversed.
  rewrite (insertion_sort_permutes A less (reverse l)).
  apply reverse_Permutation.
Qed.

Lemma insertion_sort_reversed_orders : sort_orders insertion_sort_reversed.
Proof.
  intros A less l Hswo. unfold insertion_sort_reversed.
  apply insertion_sort_orders.
  destruct Hswo as [Hirr Htrans Hsplit]. split.
  - intros x Hx. apply Hirr. apply elem_of_reverse. exact Hx.
  - intros x y z Hx Hy Hz. apply Htrans; apply elem_of_reverse; assumption.
  - intros x y z Hx Hy Hz. apply Hsplit; apply elem_of_reverse; assumption.
Qed.

Lemma range_reversed_visits_all : range_visits_all range_reversed.
Proof. intros K EqK CK V m. apply reverse_Permutation. Qed.

(** X17: for a mapping without NaN and without two values that compare
    equal, the outputs sorted by value do not depend on how [sort.Sort]
    breaks ties nor on the order in which [range] visits the map. *)
Theorem sorted_by_value_is_determined
    (sort1 sort2 : forall A, (A -> A -> bool) -> list A -> list A)
    (range1 range2 : forall K (EqK : EqDecision K) (CK : Countable K) V,
       gmap K V -> list (K * V))
    (m : gmap string float64) :
  sort_permutes sort1 -> sort_orders sort1 -> range_visits_all range1 ->
  sort_permutes sort2 -> sort_orders sort2 -> range_visits_all range2 ->
  no_nan m -> no_ties m ->
  SortedKeysByVal_String2Float64_Ascending sort1 range1 m =
    SortedKeysByVal_String2Float64_Ascending sort2 range2 m /\
  SortedKeysByVal_String2Float64_Descending sort1 range1 m =
    SortedKeysByVal_String2Float64_Descending sort2 range2 m.
Proof.
  intros Hp1 Ho1 Hr1 Hp2 Ho2 Hr2 Hnan Hties. split.
  - destruct (by_val_ascending_sorted sort1 range1 Hp1 Hr1 Ho1 m Hnan)
      as (o1 & -> & Hpa1 & Hs1).
    destruct (by_val_ascending_sorted sort2 range2 Hp2 Hr2 Ho2 m Hnan)
      as (o2 & -> & Hpa2 & Hs2).
    f_equal. apply (ascending_unique m); assumption.
  - destruct (by_val_descending_sorted sort1 range1 Hp1 Hr1 Ho1 m Hnan)
      as (o1 & -> & Hpa1 & Hs1).
    destruct (by_val_descending_sorted sort2 range2 Hp2 Hr2 Ho2 m Hnan)
      as (o2 & -> & Hpa2 & Hs2).
    f_equal. rewrite <- (reverse_involutive o1), <- (reverse_involutive o2).
    f_equal. apply (ascending_unique m); try assumption.
    + rewrite reverse_Permutation. exact Hpa1.
    + rewrite reverse_Permutation. exact Hpa2.
Qed.

(** ** Shorthands on numbers, slices and strings *)

(** X18: on an [int64], [AbsInt64] is the absolute value, except at the
    least [int64], which it returns unchanged and negative. *)
Theorem AbsInt64_minimum (v : Z) :
  is_int64 v ->
  is_int64 (AbsInt64 v) /\
  (v <> - 2 ^ 63 -> AbsInt64 v = Z.abs v) /\
  (v = - 2 ^ 63 -> AbsInt64 v = v) /\
  (AbsInt64 v < 0 <-> v = - 2 ^ 63).
Proof.
  unfold is_int64, AbsInt64, wrap_int64. intros Hv.
  destruct (Z.ltb_spec v 0) as [Hneg|Hpos].
  - destruct (Z.eq_dec v (- 2 ^ 63)) as [->|Hne].
    + repeat split; try reflexivity; try lia; intros; exfalso; lia.
    + assert (Hmod : (- v + 2 ^ 63) mod 2 ^ 64 = - v + 2 ^ 63)
        by (apply Z.mod_small; lia).
      rewrite Hmod. repeat split; try lia.
  - repeat split; try lia.
Qed.

(** X19: [MinFloat] and [MaxFloat] return their second argument as soon
    as one argument is NaN, so a NaN in the first place is dropped and a
    NaN in the second place is returned; without NaN the result is one
    of the arguments and bounds both. *)
Theorem MinFloat_MaxFloat_nan (a b : float64) :
  (is_nan a = true \/ is_nan b = true ->
     MinFloat a b = b /\ MaxFloat a b = b) /\
  (is_nan a = false -> is_nan b = false ->
     (MinFloat a b = a \/ MinFloat a b = b) /\
     f64_le (MinFloat a b) a = true /\ f64_le (MinFloat a b) b = true /\
     (MaxFloat a b = a \/ MaxFloat a b = b) /\
     f64_le a (MaxFloat a b) = true /\ f64_le b (MaxFloat a b) = true).
Proof.
  split.
  - intros Hnan. unfold MinFloat, MaxFloat, f64_lt, f64_gt, SFltb.
    destruct Hnan as [Ha|Hb].
    + destruct a; try discriminate. destruct b; split; reflexivity.
    + destruct b; try discriminate. destruct a; split; reflexivity.
  - intros Ha Hb. unfold MinFloat, MaxFloat.
    change (f64_gt a b) with (f64_lt b a).
    rewrite (f64_lt_negb_le a b Ha Hb), (f64_lt_negb_le b a Hb Ha).
    assert (Hrefl : forall x, is_nan x = false -> f64_le x x = true).
    { intros x Hx. destruct (f64_le_total x x Hx Hx); assumption. }
    pose proof (Hrefl a Ha) as Haa. pose proof (Hrefl b Hb) as Hbb.
    destruct (f64_le_total a b Ha Hb) as [Hab|Hba].
    + rewrite Hab. simpl. destruct (f64_le b a) eqn:Hba; simpl; auto 10.
    + rewrite Hba. simpl. destruct (f64_le a b) eqn:Hab; simpl; auto 10.
Qed.

Lemma SliceIndexStr_from_spec (ii : Z) (s : list string) (e : string) :
  (SliceIndexStr_from ii s e = -1 /\ 0 <= ii -> e ∉ s) /\
  (e ∉ s -> SliceIndexStr_from ii s e = -1) /\
  (e ∈ s ->
     exists i : nat,
       SliceIndexStr_from ii s e = ii + Z.of_nat i /\
       s !! i = Some e /\ e ∉ take i s).
Proof.
  revert ii. induction s as [|a s IH]; intros ii; simpl.
  - repeat split.
    + intros _. apply not_elem_of_nil.
    + intros H. apply elem_of_nil in H. destruct H.
  - destruct (String.eqb_spec a e) as [->|Hne].
    + repeat split.
      * intros [H1 H2]. lia.
      * intros H. exfalso. apply H. left.
      * intros _. exists O. simpl. split; [lia|]. split; [reflexivity|].
        apply not_elem_of_nil.
    + destruct (IH (ii + 1)) as (IH1 & IH2 & IH3). repeat split.
      * intros [H1 H2]. apply not_elem_of_cons. split; [congruence|].
        apply IH1. split; [exact H1|lia].
      * intros H. apply not_elem_of_cons in H as [_ H]. apply IH2, H.
      * intros H. apply elem_of_cons in H as [H|H]; [congruence|].
        destruct (IH3 H) as (i & Hi & Hl & Hn). exists (S i). simpl.
        split; [lia|]. split; [exact Hl|].
        apply not_elem_of_cons. split; [congruence|exact Hn].
Qed.

Lemma SliceContainsStr_elem_of (s : list string) (e : string) :
  SliceContainsStr s e = true <-> e ∈ s.
Proof.
  induction s as [|a s IH]; simpl.
  - split; [discriminate|]. intros H. apply elem_of_nil in H. destruct H.
  - destruct (String.eqb_spec a e) as [->|Hne].
    + split; [intros _; left|reflexivity].
    + rewrite IH. split; [intros H; right; exact H|].
      intros H. apply elem_of_cons in H as [H|H]; [congruence|exact H].
Qed.

(** X20: [SliceIndexStr] returns the index of the first occurrence of
    the string, and -1 exactly when [SliceContainsStr] says that the
    slice does not contain it. *)
Theorem SliceIndexStr_first_occurrence (s : list string) (e : string) :
  (SliceContainsStr s e = false <-> SliceIndexStr s e = -1) /\
  (SliceContainsStr s e = true ->
     exists i : nat,
       SliceIndexStr s e = Z.of_nat i /\ s !! i = Some e /\
       forall j : nat, (j < i)%nat -> s !! j <> Some e).
Proof.
  unfold SliceIndexStr.
  destruct (SliceIndexStr_from_spec 0 s e) as (H1 & H2 & H3). split.
  - split.
    + intros Hc. apply H2. intros Hin.
      apply SliceContainsStr_elem_of in Hin. congruence.
    + intros Hi. destruct (SliceContainsStr s e) eqn:Hc; [|reflexivity].
      apply SliceContainsStr_elem_of in Hc.
      exfalso. apply H1; [split; [exact Hi|lia]|exact Hc].
  - intros Hc. apply SliceContainsStr_elem_of in Hc.
    destruct (H3 Hc) as (i & Hi & Hl & Hn). exists i.
    split; [lia|]. split; [exact Hl|].
    intros j Hj Hlj. apply Hn. apply list_elem_of_lookup. exists j.
    rewrite lookup_take_lt by exact Hj. exact Hlj.
Qed.

Lemma IndexNl_loop_spec (fuel : nat) (_buffer : list byte) (_buflen idx : Z) :
  0 <= idx -> _buflen <= Z.of_nat (length _buffer) ->
  (Z.to_nat (_buflen - idx) <= fuel)%nat ->
  exists r,
    IndexNl_loop fuel _buffer _buflen idx = Ok r /\
    (forall j : nat, idx <= Z.of_nat j < r - 1 ->
       _buffer !! j <> Some newline) /\
    ((idx < r <= _buflen /\ _buffer !! Z.to_nat (r - 1) = Some newline) \/
     (r = _buflen /\
      forall j : nat, idx <= Z.of_nat j < _buflen ->
        _buffer !! j <> Some newline)).
Proof.
  revert idx. induction fuel as [|fuel IH]; intros idx Hidx Hlen Hfuel.
  - simpl. destruct (Z.ltb_spec idx _buflen) as [Hlt|Hge]; [lia|].
    exists _buflen. split; [destruct (idx <? _buflen); reflexivity|].
    split; [intros j Hj; lia|]. right. split; [reflexivity|]. intros j Hj. lia.
  - simpl. destruct (Z.ltb_spec idx _buflen) as [Hlt|Hge].
    + destruct (Z.ltb_spec idx 0) as [Hneg|_]; [lia|].
      destruct (lookup_lt_is_Some_2 _buffer (Z.to_nat idx) ltac:(lia))
        as [c Hc].
      rewrite Hc. destruct (Byte.eqb c newline) eqn:Hnl; simpl.
      * apply Byte.byte_dec_bl in Hnl. subst c. exists (idx + 1).
        split; [reflexivity|]. split; [intros j Hj; lia|]. left.
        split; [lia|]. replace (idx + 1 - 1) with idx by lia. exact Hc.
      * assert (Hne : c <> newline).
        { intros ->. rewrite byte_eqb_refl in Hnl. discriminate. }
        destruct (IH (idx + 1) ltac:(lia) Hlen ltac:(lia))
          as (r & Hr & Hbefore & Hcases).
        assert (Hhere : forall j : nat,
                  Z.of_nat j = idx -> _buffer !! j <> Some newline).
        { intros j Hj. replace j with (Z.to_nat idx) by lia.
          rewrite Hc. congruence. }
        exists r. split; [exact Hr|]. split.
        -- intros j Hj. destruct (Z.eq_dec (Z.of_nat j) idx) as [He|He];
             [exact (Hhere j He)|apply Hbefore; lia].
        -- destruct Hcases as [[Hrange Hat]|[-> Hnone]].
           ++ left. split; [lia|exact Hat].
           ++ right. split; [reflexivity|]. intros j Hj.
              destruct (Z.eq_dec (Z.of_nat j) idx) as [He|He];
                [exact (Hhere j He)|apply Hnone; lia].
    + exists _buflen. split; [reflexivity|].
      split; [intros j Hj; lia|]. right. split; [reflexivity|].
      intros j Hj. lia.
Qed.

(** X21: within the buffer, [IndexNl] returns the index after the first
    newline at or after [_rowBegin] and before [_buflen], or [_buflen]
    if there is none; it does not panic. *)
Theorem IndexNl_after_first_newline
    (_buffer : list byte) (_buflen _rowBegin : Z) :
  0 <= _rowBegin -> _buflen <= Z.of_nat (length _buffer) ->
  exists r,
    IndexNl _buffer _buflen _rowBegin = Ok r /\
    (forall j : nat, _rowBegin <= Z.of_nat j < r - 1 ->
       _buffer !! j <> Some newline) /\
    ((_rowBegin < r <= _buflen /\
      _buffer !! Z.to_nat (r - 1) = Some newline) \/
     (r = _buflen /\
      forall j : nat, _rowBegin <= Z.of_nat j < _buflen ->
        _buffer !! j <> Some newline)).
Proof.
  intros Hrow Hlen. unfold IndexNl.
  apply IndexNl_loop_spec; [exact Hrow|exact Hlen|lia].
Qed.

(** X22: with a cap that is not negative [StrCapped] returns the prefix
    of the string of the length of the cap, or the string if it is
    shorter; with a negative cap it panics on every string, the empty
    one too. *)
Theorem StrCapped_prefix_or_panic (_str : string) (_cap : Z) :
  (0 <= _cap ->
     exists out rest,
       StrCapped _str _cap = Ok out /\ _str = out +:+ rest /\
       Z.of_nat (String.length out) =
         Z.min (Z.of_nat (String.length _str)) _cap) /\
  (_cap < 0 -> StrCapped _str _cap = Panic slice_out_of_range).
Proof.
  unfold StrCapped. split; intros Hcap.
  - destruct (Z.leb_spec (Z.of_nat (String.length _str)) _cap) as [Hle|Hgt].
    + exists _str, "". split; [reflexivity|].
      split; [symmetry; apply string_append_nil_r|lia].
    + destruct (Z.ltb_spec _cap 0) as [Hneg|_]; [lia|].
      exists (String.substring 0 (Z.to_nat _cap) _str),
             (String.substring (Z.to_nat _cap)
                (String.length _str - Z.to_nat _cap) _str).
      split; [reflexivity|].
      split; [apply substring_split; lia|].
      rewrite substring_0_length by lia. lia.
  - destruct (Z.leb_spec (Z.of_nat (String.length _str)) _cap) as [Hle|Hgt];
      [lia|].
    destruct (Z.ltb_spec _cap 0) as [_|Hpos]; [reflexivity|lia].
Qed.

(** X23: [ChompStr] undoes the appending of the suffix, and appending
    the suffix to its result gives the string back when the string
    ends in the suffix; any other string is returned as it is. *)
Theorem ChompStr_round_trip (_str _chompstr : string) :
  ChompStr (_str +:+ _chompstr) _chompstr = _str /\
  (HasSuffix _str _chompstr = true ->
     ChompStr _str _chompstr +:+ _chompstr = _str) /\
  (HasSuffix _str _chompstr = false -> ChompStr _str _chompstr = _str).
Proof.
  unfold ChompStr. split; [|split].
  - rewrite HasSuffix_append. apply drop_last_append.
  - intros H. rewrite H. symmetry. apply HasSuffix_drop_last. exact H.
  - intros H. rewrite H. reflexivity.
Qed.

(** ** Lists of key=value pairs *)

Lemma contains_char_app (c : ascii) (s t : string) :
  contains_char c (s +:+ t) = contains_char c s || contains_char c t.
Proof.
  induction s as [|x s IH]; [reflexivity|].
  change (contains_char c (String x s +:+ t))
    with (if Ascii.eqb x c then true else contains_char c (s +:+ t)).
  simpl. destruct (Ascii.eqb x c); [reflexivity|exact IH].
Qed.

Lemma Split_from_sep (c : ascii) (cur s : string) :
  Split_from (String c "") 0 cur (String c s) =
  cur :: Split_from (String c "") 0 "" s.
Proof.
  simpl. destruct (ascii_dec c c) as [_|Hne]; [|congruence].
  destruct s; reflexivity.
Qed.

Lemma Split_from_other (c x : ascii) (cur s : string) :
  Ascii.eqb x c = false ->
  Split_from (String c "") 0 cur (String x s) =
  Split_from (String c "") 0 (cur +:+ String x "") s.
Proof.
  intros Hx. simpl. destruct (ascii_dec c x) as [->|Hne]; [|reflexivity].
  rewrite Ascii.eqb_refl in Hx. discriminate.
Qed.

(** A string without the separator is one piece. *)
Lemma Split_from_free (c : ascii) (cur a : string) :
  contains_char c a = false ->
  Split_from (String c "") 0 cur a = [cur +:+ a].
Proof.
  revert cur. induction a as [|x a IH]; intros cur Ha.
  - rewrite string_append_nil_r. reflexivity.
  - simpl in Ha. destruct (Ascii.eqb x c) eqn:Hx; [discriminate|].
    rewrite (Split_from_other c x cur a Hx), (IH _ Ha).
    rewrite string_append_assoc. reflexivity.
Qed.

(** The first piece ends at the first separator. *)
Lemma Split_from_app (c : ascii) (cur a rest : string) :
  contains_char c a = false ->
  Split_from (String c "") 0 cur (a +:+ String c rest) =
  (cur +:+ a) :: Split_from (String c "") 0 "" rest.
Proof.
  revert cur. induction a as [|x a IH]; intros cur Ha.
  - rewrite string_append_nil_r. apply Split_from_sep.
  - simpl in Ha. destruct (Ascii.eqb x c) eqn:Hx; [discriminate|].
    change (String x a +:+ String c rest)
      with (String x (a +:+ String c rest)).
    rewrite (Split_from_other c x cur _ Hx), (IH _ Ha).
    rewrite string_append_assoc. reflexivity.
Qed.

(** Splitting undoes joining, for pieces without the separator. *)
Lemma Split_from_Join (c : ascii) (parts : list string) :
  parts <> [] ->
  Forall (fun p => contains_char c p = false) parts ->
  Split_from (String c "") 0 "" (strings_Join parts (String c "")) = parts.
Proof.
  induction parts as [|e parts IH]; intros Hne Hfree; [congruence|].
  apply Forall_cons_1 in Hfree as [He Hfree].
  destruct parts as [|e' parts].
  - exact (Split_from_free c "" e He).
  - change (strings_Join (e :: e' :: parts) (String c ""))
      with (e +:+ String c (strings_Join (e' :: parts) (String c ""))).
    rewrite (Split_from_app c "" e _ He).
    rewrite (IH ltac:(discriminate) Hfree). reflexivity.
Qed.

(** A byte that occurs neither in [cur] nor in [s], or that is the
    separator, occurs in no piece. *)
Lemma Split_from_pieces (c d : ascii) (cur s : string) :
  contains_char d cur = false ->
  d = c \/ contains_char d s = false ->
  Forall (fun p => contains_char d p = false)
         (Split_from (String c "") 0 cur s).
Proof.
  revert cur. induction s as [|x s IH]; intros cur Hcur Hs.
  - apply Forall_cons_2; [exact Hcur|apply Forall_nil_2].
  - destruct (Ascii.eqb x c) eqn:Hx.
    + apply Ascii.eqb_eq in Hx. subst x. rewrite Split_from_sep.
      apply Forall_cons_2; [exact Hcur|]. apply IH; [reflexivity|].
      destruct Hs as [->|Hs]; [left; reflexivity|right].
      simpl in Hs. destruct (Ascii.eqb c d); [discriminate|exact Hs].
    + rewrite (Split_from_other c x cur s Hx). apply IH.
      * rewrite contains_char_app, Hcur. simpl.
        destruct Hs as [->|Hs]; [rewrite Hx; reflexivity|].
        simpl in Hs. destruct (Ascii.eqb x d); [discriminate|reflexivity].
      * destruct Hs as [->|Hs]; [left; reflexivity|right].
        simpl in Hs. destruct (Ascii.eqb x d); [discriminate|exact Hs].
Qed.

Lemma kv_free_iff (s : string) :
  kv_free s = true <->
  contains_char ";" s = false /\ contains_char "=" s = false.
Proof.
  unfold kv_free. rewrite andb_true_iff, !negb_true_iff. reflexivity.
Qed.

(** A pair written as key=value splits into the key and the value. *)
Lemma Split_pair (k v : string) :
  kv_free k = true -> kv_free v = true ->
  strings_Split (k +:+ "=" +:+ v) "=" = [k; v].
Proof.
  intros Hk Hv. apply kv_free_iff in Hk as [_ Hk]. apply kv_free_iff in Hv as [_ Hv].
  change (strings_Split (k +:+ "=" +:+ v) "=")
    with (Split_from "=" 0 "" (k +:+ String "=" v)).
  rewrite (Split_from_app "=" "" k v Hk), (Split_from_free "=" "" v Hv).
  reflexivity.
Qed.

Lemma pair_no_semicolon (k v : string) :
  kv_free k = true -> kv_free v = true ->
  contains_char ";" (k +:+ "=" +:+ v) = false.
Proof.
  intros Hk Hv. apply kv_free_iff in Hk as [Hk _]. apply kv_free_iff in Hv as [Hv _].
  rewrite !contains_char_app, Hk, Hv. reflexivity.
Qed.

(** The parts of the text of a list of pairs are the pairs. *)
Lemma Split_Join_pairs (l : list (string * string)) :
  l <> [] -> kv_list_free l ->
  strings_Split (strings_Join (kv_pair <$> l) ";") ";" = kv_pair <$> l.
Proof.
  intros Hne Hfree.
  change (strings_Split (strings_Join (kv_pair <$> l) ";") ";")
    with (Split_from ";" 0 "" (strings_Join (kv_pair <$> l) ";")).
  apply Split_from_Join.
  - destruct l; [congruence|discriminate].
  - apply Forall_fmap. eapply Forall_impl; [exact Hfree|].
    intros [k v] [Hk Hv]. exact (pair_no_semicolon k v Hk Hv).
Qed.

Lemma kv_insert_pair (acc : gmap string string) (k v : string) :
  kv_free k = true -> kv_free v = true ->
  kv_insert acc (kv_pair (k, v)) = <[k := v]> acc.
Proof.
  intros Hk Hv. unfold kv_insert, kv_pair.
  rewrite (Split_pair k v Hk Hv). reflexivity.
Qed.

Lemma foldl_kv_insert_pairs (l : list (string * string))
    (acc : gmap string string) :
  kv_list_free l ->
  foldl kv_insert acc (kv_pair <$> l) =
  foldl (fun m kv => <[kv.1 := kv.2]> m) acc l.
Proof.
  revert acc. induction l as [|[k v] l IH]; intros acc Hfree; [reflexivity|].
  apply Forall_cons_1 in Hfree as [[Hk Hv] Hfree]. simpl in Hk, Hv.
  rewrite fmap_cons. cbn [foldl]. rewrite (kv_insert_pair acc k v Hk Hv).
  apply IH, Hfree.
Qed.

Lemma foldl_insert_list_to_map (l : list (string * string))
    (acc : gmap string string) :
  NoDup l.*1 ->
  foldl (fun m kv => <[kv.1 := kv.2]> m) acc l = list_to_map l ∪ acc.
Proof.
  revert acc. induction l as [|[k v] l IH]; intros acc Hnd.
  - simpl. rewrite (left_id_L ∅ (∪)). reflexivity.
  - rewrite fmap_cons in Hnd. apply NoDup_cons in Hnd as [Hk Hnd].
    cbn [foldl list_to_map foldr fst snd]. rewrite (IH _ Hnd).
    rewrite <- insert_union_r, insert_union_l; [reflexivity|].
    apply not_elem_of_list_to_map_1. exact Hk.
Qed.

Lemma GetKV_loop_pairs (l : list (string * string)) (k def : string) :
  kv_list_free l ->
  GetKV_loop (kv_pair <$> l) k def =
  default def ((list_to_map l : gmap string string) !! k).
Proof.
  induction l as [|[k0 v0] l IH]; intros Hfree; [reflexivity|].
  apply Forall_cons_1 in Hfree as [[Hk Hv] Hfree]. simpl in Hk, Hv.
  rewrite fmap_cons. cbn [GetKV_loop].
  change (kv_pair (k0, v0)) with (k0 +:+ "=" +:+ v0).
  rewrite (Split_pair k0 v0 Hk Hv). cbn [list_to_map foldr fst snd].
  destruct (String.eqb_spec k0 k) as [->|Hne].
  - rewrite lookup_insert_eq. reflexivity.
  - rewrite lookup_insert_ne by exact Hne. apply IH, Hfree.
Qed.

(** The map that the loop of [GetMapFromKV] builds has keys and values
    without separators. *)
Lemma foldl_kv_insert_free (parts : list string) (acc : gmap string string) :
  kv_map_free acc ->
  Forall (fun p => contains_char ";" p = false) parts ->
  kv_map_free (foldl kv_insert acc parts).
Proof.
  revert acc. induction parts as [|kvp parts IH]; intros acc Hacc Hparts;
    [exact Hacc|].
  apply Forall_cons_1 in Hparts as [Hp Hparts]. cbn [foldl].
  apply IH; [|exact Hparts]. unfold kv_insert.
  pose proof (Split_from_pieces "=" "=" "" kvp eq_refl (or_introl eq_refl))
    as Heq.
  pose proof (Split_from_pieces "=" ";" "" kvp eq_refl (or_intror Hp))
    as Hsemi.
  change (Split_from "=" 0 "" kvp) with (strings_Split kvp "=") in Heq, Hsemi.
  destruct (strings_Split kvp "=") as [|k0 [|v1 rest]]; try exact Hacc.
  apply Forall_cons_1 in Heq as [Hk0 Heq].
  apply Forall_cons_1 in Heq as [Hv1 _].
  apply Forall_cons_1 in Hsemi as [Hk0' Hsemi].
  apply Forall_cons_1 in Hsemi as [Hv1' _].
  apply map_Forall_insert_2; [|exact Hacc].
  split; apply kv_free_iff; split; assumption.
Qed.

Section KeyValueListsProperties.
Variable range : forall K (EqK : EqDecision K) (CK : Countable K) V,
  gmap K V -> list (K * V).
Hypothesis Hrange : range_visits_all range.

Lemma GenKVFromMap_eq (m : gmap string string) :
  GenKVFromMap range m =
  strings_Join (kv_pair <$> range string _ _ string m) ";".
Proof. reflexivity. Qed.

Lemma range_kv_list_free (m : gmap string string) :
  kv_map_free m -> kv_list_free (range string _ _ string m).
Proof.
  intros Hfree. apply Forall_forall. intros [k v] Hkv.
  rewrite (Hrange string _ _ string m) in Hkv.
  apply elem_of_map_to_list in Hkv. exact (Hfree k v Hkv).
Qed.

Lemma range_list_to_map (m : gmap string string) :
  list_to_map (range string _ _ string m) = m.
Proof.
  rewrite <- (list_to_map_to_list m) at 2.
  apply list_to_map_proper; [|apply Hrange].
  rewrite (Hrange string _ _ string m). apply NoDup_fst_map_to_list.
Qed.

Lemma range_nil (m : gmap string string) :
  range string _ _ string m = [] -> m = ∅.
Proof.
  intros Hnil. apply map_to_list_empty_iff. apply Permutation_nil_r.
  rewrite <- Hnil. symmetry. apply Hrange.
Qed.

Lemma GetKV_GenKVFromMap (m : gmap string string) (k def : string) :
  kv_map_free m ->
  GetKV (GenKVFromMap range m) k def = default def (m !! k).
Proof.
  intros Hfree. rewrite GenKVFromMap_eq. unfold GetKV.
  destruct (range string _ _ string m) as [|kv l] eqn:Hl.
  - rewrite (range_nil m Hl). reflexivity.
  - rewrite <- Hl. rewrite Split_Join_pairs.
    + rewrite GetKV_loop_pairs by (apply range_kv_list_free, Hfree).
      rewrite range_list_to_map. reflexivity.
    + rewrite Hl. discriminate.
    + apply range_kv_list_free, Hfree.
Qed.

(** X24: reading back the text of a map gives the map, when no key and
    no value holds a semicolon or an equals sign; the order in which the
    pairs were written does not matter. *)
Theorem GetMapFromKV_GenKVFromMap (m : gmap string string) :
  kv_map_free m -> GetMapFromKV (GenKVFromMap range m) = m.
Proof.
  intros Hfree. rewrite GenKVFromMap_eq. unfold GetMapFromKV.
  destruct (range string _ _ string m) as [|kv l] eqn:Hl.
  - rewrite (range_nil m Hl). reflexivity.
  - rewrite <- Hl. rewrite Split_Join_pairs.
    + rewrite foldl_kv_insert_pairs by (apply range_kv_list_free, Hfree).
      rewrite foldl_insert_list_to_map.
      * rewrite (right_id_L ∅ (∪)). apply range_list_to_map.
      * rewrite (Hrange string _ _ string m). apply NoDup_fst_map_to_list.
    + rewrite Hl. discriminate.
    + apply range_kv_list_free, Hfree.
Qed.

(** X25: after [ModifyKV] has set a key to a value, [GetKV] finds for
    every key what the map of the list holds with that key set, and
    for the key itself the new value; the key and the value hold no
    semicolon and no equals sign, the list is any string. *)
Theorem GetKV_ModifyKV (_list _kk _val : string) :
  kv_free _kk = true -> kv_free _val = true ->
  (forall k def,
     GetKV (ModifyKV range _list _kk _val) k def =
     default def (<[_kk := _val]> (GetMapFromKV _list) !! k)) /\
  (forall def, GetKV (ModifyKV range _list _kk _val) _kk def = _val).
Proof.
  intros Hkk Hval.
  assert (Hfree : kv_map_free (<[_kk := _val]> (GetMapFromKV _list))).
  { apply map_Forall_insert_2; [split; assumption|].
    apply foldl_kv_insert_free; [apply map_Forall_empty|].
    exact (Split_from_pieces ";" ";" "" _list eq_refl (or_introl eq_refl)). }
  assert (Hall : forall k def,
            GetKV (ModifyKV range _list _kk _val) k def =
            default def (<[_kk := _val]> (GetMapFromKV _list) !! k)).
  { intros k def. exact (GetKV_GenKVFromMap _ k def Hfree). }
  split; [exact Hall|].
  intros def. rewrite Hall, lookup_insert_eq. reflexivity.
Qed.

End KeyValueListsProperties.

(** ** Dates *)

Lemma Ascii_ltb_irrefl (c : ascii) : Ascii.ltb c c = false.
Proof.
  unfold Ascii.ltb. pose proof (Ascii.compare_antisym c c) as H.
  destruct (Ascii.compare c c); try reflexivity; discriminate.
Qed.

Lemma date_loop_refl (a : string) : date_loop a a = true.
Proof.
  induction a as [|c a IH]; [reflexivity|].
  simpl. rewrite Ascii_ltb_irrefl. exact IH.
Qed.

Lemma date_loop_flip (a b : string) :
  String.length a = String.length b -> a <> b ->
  date_loop a b = negb (date_loop b a).
Proof.
  revert b. induction a as [|c1 a IH]; intros [|c2 b] Hlen Hne;
    try discriminate; [congruence|].
  simpl. unfold Ascii.ltb. rewrite (Ascii.compare_antisym c2 c1).
  destruct (Ascii.compare c1 c2) eqn:Hc; simpl; try reflexivity.
  apply Ascii.compare_eq_iff in Hc. subst c2.
  apply IH; [simpl in Hlen; congruence|]. intros ->. apply Hne. reflexivity.
Qed.

(** X26: on two dates of eight bytes each, [StryyyymmddLT] is the
    negation of [StryyyymmddLTEQ] with the dates exchanged, a date is
    at most itself, and nothing is printed; two dates that are both
    shorter are bad dates, for which both functions print and answer
    false, also when the two are the same. *)
Theorem Stryyyymmdd_orders (_dt1 _dt2 : string) :
  (String.length _dt1 = 8%nat -> String.length _dt2 = 8%nat ->
     StryyyymmddLT _dt1 _dt2 = (negb (StryyyymmddLTEQ _dt2 _dt1).1, false) /\
     StryyyymmddLTEQ _dt1 _dt2 =
       ((StryyyymmddLT _dt1 _dt2).1 || String.eqb _dt1 _dt2, false) /\
     StryyyymmddLTEQ _dt1 _dt1 = (true, false)) /\
  ((String.length _dt1 < 8)%nat -> (String.length _dt2 < 8)%nat ->
     StryyyymmddLTEQ _dt1 _dt2 = (false, true) /\
     StryyyymmddLT _dt1 _dt2 = (false, true)).
Proof.
  unfold StryyyymmddLT, StryyyymmddLTEQ. split.
  - intros H1 H2. rewrite H1, H2. simpl.
    destruct (String.eqb_spec _dt1 _dt2) as [->|Hne].
    + rewrite date_loop_refl. repeat split; reflexivity.
    + rewrite (date_loop_flip _dt1 _dt2) by congruence.
      rewrite date_loop_refl, orb_false_r. repeat split; reflexivity.
  - intros H1 H2.
    destruct (Nat.ltb_spec (String.length _dt1) 8) as [_|Hge]; [|lia].
    destruct (Nat.ltb_spec (String.length _dt2) 8) as [_|Hge]; [|lia].
    destruct (Nat.eqb_spec (String.length _dt1) 8) as [He|_]; [lia|].
    destruct (Nat.eqb_spec (String.length _dt2) 8) as [He|_]; [lia|].
    split; reflexivity.
Qed.

(** ** The reader of [OpenAny] and the source of [OpenAnyIO] *)

Section OpenAnyIOProperties.
Variable gzip_NewReader : list byte -> option (list byte).
Variable bzip2_NewReader : list byte -> list byte.

(** X27: [OpenAny] and [OpenAnyIO] panic on the same names, and where
    they return, the reader of [OpenAny] is a reader of 81920 bytes on
    the source that [OpenAnyIO] returns; it is nil when the source is. *)
Theorem OpenAny_wraps_OpenAnyIO (w : World) (name : string) :
  match OpenAnyIO gzip_NewReader bzip2_NewReader w name with
  | Ok s =>
      OpenAny gzip_NewReader bzip2_NewReader w name =
      Ok ((fun rd => bufio_NewReaderSize rd 81920) <$> s)
  | Panic _ =>
      exists msg, OpenAny gzip_NewReader bzip2_NewReader w name = Panic msg
  end.
Proof.
  unfold OpenAny, OpenAnyIO.
  destruct (ReadableFilename w name) as [[[ofname ofcmd] ofcode]|msg];
    [|exists msg; reflexivity].
  cbn [mbind Result_bind].
  destruct (bool_decide (ofcode ∈ [1; 7; 4; 10; 5])).
  { destruct ofcmd as [cmd|]; [|eexists; reflexivity].
    destruct (Cmd_StdoutPipe w cmd); [eexists; reflexivity|reflexivity]. }
  destruct (bool_decide (ofcode ∈ [2; 8])).
  { destruct (os_Open w ofname); [reflexivity|eexists; reflexivity]. }
  destruct (bool_decide (ofcode ∈ [3; 9])).
  { destruct (os_Open w ofname); [reflexivity|eexists; reflexivity]. }
  destruct (bool_decide (ofcode ∈ [6; 11])).
  { destruct (os_Open w ofname); [reflexivity|eexists; reflexivity]. }
  reflexivity.
Qed.

End OpenAnyIOProperties.

(** ** The further theorems at concrete inputs *)

Lemma xyz_map_no_ties : no_ties xyz_map.
Proof.
  intros k1 k2 v1 v2 H1 H2.
  apply elem_of_map_to_list in H1. apply elem_of_map_to_list in H2.
  vm_compute in H1, H2.
  repeat (apply elem_of_cons in H1 as [H1|H1]);
    [| | |apply elem_of_nil in H1; destruct H1];
    repeat (apply elem_of_cons in H2 as [H2|H2]);
    try (apply elem_of_nil in H2; destruct H2);
    inversion H1; inversion H2; subst;
    vm_compute; intros Hle Hge; try reflexivity; discriminate.
Qed.

Lemma kx_map_free :
  kv_map_free (<["k" := "v"]> (<["x" := "y"]> ∅)).
Proof.
  apply map_Forall_to_list. vm_compute. repeat constructor.
Qed.

Lemma comment_world_short_lines :
  short_lines 81920 [x61; x0a; x20; x20; x0a; x20; x23; x62; x0a; x63].
Proof. intros k Hk. simpl in Hk. lia. Qed.

Lemma ReadableFilename_result_shape_witness :
  ReadableFilename foo_world "foo" =
    Ok ("foo", Some (exec_Command "/bin/cat" ["foo"]), 6) /\
  ((6 = 0 /\ Some (exec_Command "/bin/cat" ["foo"]) = None /\
    "foo" = "/dev/null") \/
   (6 = 5 /\
    Some (exec_Command "/bin/cat" ["foo"]) = Some (exec_Command "foo" []) /\
    "foo" = "/dev/null" /\ FileExecutable foo_world "foo" = true) \/
   (6 ∈ [1; 2; 3; 4; 6; 7; 8; 9; 10; 11] /\ PathOK foo_world "foo" = true /\
    exists prog,
      Some (exec_Command "/bin/cat" ["foo"]) =
      Some (exec_Command prog ["foo"]))).
Proof.
  split; [vm_compute; reflexivity|].
  apply (ReadableFilename_result_shape foo_world "foo").
  vm_compute. reflexivity.
Defined.

Lemma CompressType_is_exact_code_witness :
  PathOK foo_gz_world "foo.gz" = true /\
  HasSuffix "foo.gz" ".ZIP" = false /\
  exists ofname ofcmd,
    ReadableFilename foo_gz_world "foo.gz" = Ok (ofname, ofcmd, 2).
Proof.
  split; [vm_compute; reflexivity|]. split; [vm_compute; reflexivity|].
  apply (CompressType_is_exact_code foo_gz_world "foo.gz").
  - vm_compute. reflexivity.
  - vm_compute. reflexivity.
  - vm_compute. intros H. discriminate H.
Defined.

Lemma ReadableFilenameCommand_text_witness :
  FileExecutable bash_world "run.bash" = true /\
  ReadableFilenameCommand bash_world "run.bash" = Ok "run.bash".
Proof.
  split; [vm_compute; reflexivity|].
  apply (ReadableFilenameCommand_text bash_world "run.bash").
  vm_compute. reflexivity.
Defined.

Lemma RemoveCompressionVariants_then_AnyPathOK_witness :
  RemoveCompressionVariants foo_world "foo.gz" false = Ok empty_world /\
  AnyPathOK empty_world "foo.gz" = Ok false.
Proof.
  split; [vm_compute; reflexivity|].
  apply (RemoveCompressionVariants_then_AnyPathOK foo_world empty_world
           "foo.gz").
  - vm_compute. reflexivity.
  - vm_compute. reflexivity.
  - vm_compute. reflexivity.
  - vm_compute. reflexivity.
Defined.

Lemma OpenAnyErr_reader_or_error_witness :
  OpenAnyErr no_gzip no_bzip2 lines_world "b.txt" =
    Ok (Some {| rd := Stream [x61; x0a; x62]; bufsize := 81920 |}, None) /\
  OpenAny no_gzip no_bzip2 lines_world "b.txt" =
    Ok (Some {| rd := Stream [x61; x0a; x62]; bufsize := 81920 |}).
Proof.
  split; [vm_compute; reflexivity|].
  apply (OpenAnyErr_reader_or_error no_gzip no_bzip2 lines_world "b.txt"
           (Some {| rd := Stream [x61; x0a; x62]; bufsize := 81920 |}) None).
  - vm_compute. reflexivity.
  - reflexivity.
Defined.

Lemma GetFileLineCount_counts_newlines_witness :
  OpenAnyErr no_gzip no_bzip2 comment_world "c.txt" =
    Ok (Some {| rd := Stream [x61; x0a; x20; x20; x0a; x20; x23; x62; x0a; x63];
                bufsize := 81920 |}, None) /\
  GetFileLineCount no_gzip no_bzip2 11 comment_world "c.txt" "" =
    Some (Ok (3, None)).
Proof.
  split; [vm_compute; reflexivity|].
  apply (GetFileLineCount_counts_newlines no_gzip no_bzip2 comment_world
           "c.txt" ""
           {| rd := Stream [x61; x0a; x20; x20; x0a; x20; x23; x62; x0a; x63];
              bufsize := 81920 |}
           [x61; x0a; x20; x20; x0a; x20; x23; x62; x0a; x63] 11).
  - vm_compute. reflexivity.
  - reflexivity.
  - intros tag Htag. vm_compute in Htag.
    apply list_elem_of_singleton in Htag. subst tag.
    split; intros H; discriminate H.
  - simpl. lia.
Defined.

Lemma GetFileLineCount_skips_comments_witness :
  OpenAnyErr no_gzip no_bzip2 comment_world "c.txt" =
    Ok (Some {| rd := Stream [x61; x0a; x20; x20; x0a; x20; x23; x62; x0a; x63];
                bufsize := 81920 |}, None) /\
  GetFileLineCount no_gzip no_bzip2 11 comment_world "c.txt"
    "Whitespace,WhitespaceHash" = Some (Ok (1, None)).
Proof.
  split; [vm_compute; reflexivity|].
  apply (GetFileLineCount_skips_comments no_gzip no_bzip2 comment_world
           "c.txt" "Whitespace,WhitespaceHash"
           {| rd := Stream [x61; x0a; x20; x20; x0a; x20; x23; x62; x0a; x63];
              bufsize := 81920 |}
           [x61; x0a; x20; x20; x0a; x20; x23; x62; x0a; x63] 11).
  - vm_compute. reflexivity.
  - reflexivity.
  - exact comment_world_short_lines.
  - simpl. lia.
Defined.

Lemma GetFileLineCount_not_found_witness :
  ReadableFilename empty_world "nonexistent" = Ok ("/dev/null", None, 0) /\
  GetFileLineCount no_gzip no_bzip2 1 empty_world "nonexistent" "" =
    Some (Ok (0, Some "os.exec.Command returned nil pointer")) /\
  GetNumLines no_gzip no_bzip2 2 empty_world "nonexistent" =
    Some (Panic nil_dereference).
Proof.
  split; [vm_compute; reflexivity|].
  apply (GetFileLineCount_not_found no_gzip no_bzip2 empty_world
           "nonexistent" "" "/dev/null" 1).
  vm_compute. reflexivity.
Defined.

Lemma GetNumLines_vs_GetFileLineCount_witness :
  OpenAnyErr no_gzip no_bzip2 lines_world "b.txt" =
    Ok (Some {| rd := Stream [x61; x0a; x62]; bufsize := 81920 |}, None) /\
  exists n,
    GetFileLineCount no_gzip no_bzip2 4 lines_world "b.txt" "" =
      Some (Ok (n, None)) /\
    GetNumLines no_gzip no_bzip2 4 lines_world "b.txt" =
      Some (Ok (wrap_int64 (n + 1))).
Proof.
  split; [vm_compute; reflexivity|].
  apply (GetNumLines_vs_GetFileLineCount no_gzip no_bzip2 lines_world "b.txt"
           {| rd := Stream [x61; x0a; x62]; bufsize := 81920 |}
           [x61; x0a; x62] 4).
  - vm_compute. reflexivity.
  - reflexivity.
  - intros k Hk. simpl in Hk. lia.
  - simpl. lia.
Defined.

Lemma UniqueKeys_no_duplicates_witness :
  range_visits_all range_canonical /\
  NoDup (UniqueKeys range_canonical [["b"; "a"]; ["a"; "c"]]).
Proof.
  split; [exact range_canonical_visits_all|].
  exact (proj1 (proj2 (UniqueKeys_no_duplicates range_canonical
                         range_canonical_visits_all ∅
                         [["b"; "a"]; ["a"; "c"]]))).
Defined.

Lemma SortedUniqueKeys_sorted_set_witness :
  sort_permutes insertion_sort /\ range_visits_all range_canonical /\
  sort_orders insertion_sort /\
  Sorted String.le
    (SortedUniqueKeys insertion_sort range_canonical [["b"; "a"]; ["a"; "c"]]).
Proof.
  split; [exact insertion_sort_permutes|].
  split; [exact range_canonical_visits_all|].
  split; [exact insertion_sort_orders|].
  exact (proj1 (SortedUniqueKeys_sorted_set insertion_sort range_canonical
                  insertion_sort_permutes range_canonical_visits_all
                  insertion_sort_orders [["b"; "a"]; ["a"; "c"]])).
Defined.

Lemma SortedUniqueKeys_idempotent_witness :
  sort_permutes insertion_sort /\ range_visits_all range_canonical /\
  sort_orders insertion_sort /\
  SortedUniqueKeys insertion_sort range_canonical
    [SortedUniqueKeys insertion_sort range_canonical [["b"; "a"]; ["a"; "c"]]] =
  SortedUniqueKeys insertion_sort range_canonical [["b"; "a"]; ["a"; "c"]].
Proof.
  split; [exact insertion_sort_permutes|].
  split; [exact range_canonical_visits_all|].
  split; [exact insertion_sort_orders|].
  exact (proj1 (SortedUniqueKeys_idempotent insertion_sort range_canonical
                  insertion_sort_permutes range_canonical_visits_all
                  insertion_sort_orders [["b"; "a"]; ["a"; "c"]] ∅)).
Defined.

Lemma descending_is_reversed_ascending_witness :
  no_nan xyz_map /\ no_ties xyz_map /\
  exists out,
    SortedKeysByVal_String2Float64_Ascending insertion_sort range_canonical
      xyz_map = Ok out /\
    SortedKeysByVal_String2Float64_Descending insertion_sort range_canonical
      xyz_map = Ok (reverse out).
Proof.
  split; [exact xyz_map_no_nan|]. split; [exact xyz_map_no_ties|].
  exact (descending_is_reversed_ascending insertion_sort range_canonical
           insertion_sort_permutes range_canonical_visits_all
           insertion_sort_orders xyz_map xyz_map_no_nan xyz_map_no_ties).
Defined.

Lemma sorted_by_value_is_determined_witness :
  no_nan xyz_map /\ no_ties xyz_map /\
  SortedKeysByVal_String2Float64_Ascending insertion_sort range_canonical
    xyz_map =
  SortedKeysByVal_String2Float64_Ascending insertion_sort_reversed
    range_reversed xyz_map.
Proof.
  split; [exact xyz_map_no_nan|]. split; [exact xyz_map_no_ties|].
  exact (proj1 (sorted_by_value_is_determined
                  insertion_sort insertion_sort_reversed
                  range_canonical range_reversed xyz_map
                  insertion_sort_permutes insertion_sort_orders
                  range_canonical_visits_all
                  insertion_sort_reversed_permutes
                  insertion_sort_reversed_orders range_reversed_visits_all
                  xyz_map_no_nan xyz_map_no_ties)).
Defined.

Lemma AbsInt64_minimum_witness :
  is_int64 (- 2 ^ 63) /\ AbsInt64 (- 2 ^ 63) = - 2 ^ 63.
Proof.
  assert (H : is_int64 (- 2 ^ 63)) by (unfold is_int64; lia).
  split; [exact H|].
  exact (proj1 (proj2 (proj2 (AbsInt64_minimum (- 2 ^ 63) H))) eq_refl).
Defined.

Lemma MinFloat_MaxFloat_nan_witness :
  is_nan S754_nan = true /\
  MinFloat S754_nan f64_one = f64_one /\ MaxFloat S754_nan f64_one = f64_one.
Proof.
  split; [reflexivity|].
  exact (proj1 (MinFloat_MaxFloat_nan S754_nan f64_one) (or_introl eq_refl)).
Defined.

Lemma SliceIndexStr_first_occurrence_witness :
  SliceContainsStr ["a"; "b"; "a"; "b"] "b" = true /\
  exists i : nat,
    SliceIndexStr ["a"; "b"; "a"; "b"] "b" = Z.of_nat i /\
    ["a"; "b"; "a"; "b"] !! i = Some "b" /\
    forall j : nat, (j < i)%nat -> ["a"; "b"; "a"; "b"] !! j <> Some "b".
Proof.
  split; [reflexivity|].
  exact (proj2 (SliceIndexStr_first_occurrence ["a"; "b"; "a"; "b"] "b")
           eq_refl).
Defined.

Lemma IndexNl_after_first_newline_witness :
  0 <= 2 /\ 4 <= Z.of_nat (length [x61; x0a; x62; x0a]) /\
  exists r,
    IndexNl [x61; x0a; x62; x0a] 4 2 = Ok r /\
    (forall j : nat, 2 <= Z.of_nat j < r - 1 ->
       [x61; x0a; x62; x0a] !! j <> Some newline) /\
    ((2 < r <= 4 /\
      [x61; x0a; x62; x0a] !! Z.to_nat (r - 1) = Some newline) \/
     (r = 4 /\
      forall j : nat, 2 <= Z.of_nat j < 4 ->
        [x61; x0a; x62; x0a] !! j <> Some newline)).
Proof.
  split; [lia|]. split; [simpl; lia|].
  apply (IndexNl_after_first_newline [x61; x0a; x62; x0a] 4 2).
  - lia.
  - simpl. lia.
Defined.

Lemma StrCapped_prefix_or_panic_witness :
  -1 < 0 /\ StrCapped "" (-1) = Panic slice_out_of_range.
Proof.
  split; [lia|].
  apply (proj2 (StrCapped_prefix_or_panic "" (-1))). lia.
Defined.

Lemma ChompStr_round_trip_witness :
  HasSuffix "a.txt" ".txt" = true /\
  ChompStr "a.txt" ".txt" +:+ ".txt" = "a.txt".
Proof.
  split; [reflexivity|].
  exact (proj1 (proj2 (ChompStr_round_trip "a.txt" ".txt")) eq_refl).
Defined.

Lemma GetMapFromKV_GenKVFromMap_witness :
  range_visits_all range_canonical /\
  kv_map_free (<["k" := "v"]> (<["x" := "y"]> ∅)) /\
  GetMapFromKV (GenKVFromMap range_canonical (<["k" := "v"]> (<["x" := "y"]> ∅)))
    = <["k" := "v"]> (<["x" := "y"]> ∅).
Proof.
  split; [exact range_canonical_visits_all|]. split; [exact kx_map_free|].
  exact (GetMapFromKV_GenKVFromMap range_canonical range_canonical_visits_all
           (<["k" := "v"]> (<["x" := "y"]> ∅)) kx_map_free).
Defined.

Lemma GetKV_ModifyKV_witness :
  range_visits_all range_canonical /\
  kv_free "b" = true /\ kv_free "9" = true /\
  GetKV (ModifyKV range_canonical "a=1;b=2;a=3" "b" "9") "b" "none" = "9".
Proof.
  split; [exact range_canonical_visits_all|].
  split; [reflexivity|]. split; [reflexivity|].
  exact (proj2 (GetKV_ModifyKV range_canonical range_canonical_visits_all
                  "a=1;b=2;a=3" "b" "9" eq_refl eq_refl) "none").
Defined.

Lemma Stryyyymmdd_orders_witness :
  String.length "20240101" = 8%nat /\ String.length "20240102" = 8%nat /\
  StryyyymmddLT "20240101" "20240102" =
    (negb (StryyyymmddLTEQ "20240102" "20240101").1, false).
Proof.
  split; [reflexivity|]. split; [reflexivity|].
  exact (proj1 (proj1 (Stryyyymmdd_orders "20240101" "20240102")
                  eq_refl eq_refl)).
Defined.
